(** * Formula.py: propositional formulas, their parser and two CNF pipelines

    A shallow embedding of [Formula.py] and the verification of its
    specification.  The Python classes become modules:
    - [Formula] (the dataclass) is an inductive type with the methods
      [is_variable], [is_literal] and [str];
    - [FormulaParser] holds the tokenizer and the recursive-descent parser;
    - [CNFConverter] holds the normaliser, the classical pipeline
      [to_cnf_equiv], the Tseitin pipeline [tseitin_450] and the clause
      simplifier [_dedup_simplify].

    Python strings are modelled by [string]: sequences of code points below
    256.  Python exceptions are modelled by the [Raised] outcome; recursion
    that is not structural carries fuel and [Timeout] marks its exhaustion
    (shown never to happen). *)

From Stdlib Require Import String Ascii List Bool Arith NArith Lia Sorted.
From Stdlib Require Import DecimalString DecimalNat Decimal.
From Equations Require Import Equations.
Import ListNotations.

Local Open Scope string_scope.
Local Open Scope list_scope.

(* ===================================================================== *)
(** * Outcomes of fallible code *)
(* ===================================================================== *)

(** The exceptions the program can raise: the three [ValueError]s of the
    parser and the two of the Tseitin helpers carry their message; an index
    out of range and an attribute read on [None] are Python's own. *)
Inductive exn : Type :=
| ValueError (msg : string)
| IndexError
| AttributeError.

Inductive outcome (A : Type) : Type :=
| Done (a : A)
| Raised (e : exn)
| Timeout.
Arguments Done {A} a.
Arguments Raised {A} e.
Arguments Timeout {A}.

Definition bind {A B : Type} (m : outcome A) (k : A -> outcome B) : outcome B :=
  match m with
  | Done a => k a
  | Raised e => Raised e
  | Timeout => Timeout
  end.

Notation "x <- m ;; k" := (bind m (fun x => k))
  (at level 61, m at next level, right associativity).
Notation "' p <- m ;; k" := (bind m (fun x => match x with p => k end))
  (at level 61, p pattern, m at next level, right associativity).

(* ===================================================================== *)
(** * class Formula *)
(* ===================================================================== *)

(** A [Formula] node is tagged by its [op]: a string for a variable, or an
    [OpType].  The inductive type has the nodes the program builds: a
    variable without children, [NOT] with a left child only, and the four
    binary operators with both children. *)
Inductive Formula : Type :=
| Var (op : string)
| Not (left : Formula)
| And (left right : Formula)
| Or (left right : Formula)
| Impl (left right : Formula)
| Equiv (left right : Formula).

Definition is_variable (f : Formula) : bool :=
  match f with Var _ => true | _ => false end.

Definition is_literal (f : Formula) : bool :=
  is_variable f
  || match f with Not l => is_variable l | _ => false end.
Arguments is_literal !f /.

(** The children of a node, as the dataclass fields [left] and [right]. *)
Definition left_of (f : Formula) : option Formula :=
  match f with
  | Var _ => None
  | Not l | And l _ | Or l _ | Impl l _ | Equiv l _ => Some l
  end.

Definition right_of (f : Formula) : option Formula :=
  match f with
  | Var _ | Not _ => None
  | And _ r | Or _ r | Impl _ r | Equiv _ r => Some r
  end.

(** [Formula.__str__] *)
Fixpoint str (f : Formula) : string :=
  match f with
  | Var name => name
  | Not l => "-" ++ str l
  | And l r => "(" ++ str l ++ " & " ++ str r ++ ")"
  | Or l r => "(" ++ str l ++ " v " ++ str r ++ ")"
  | Impl l r => "(" ++ str l ++ " -> " ++ str r ++ ")"
  | Equiv l r => "(" ++ str l ++ " <-> " ++ str r ++ ")"
  end.

(** Number of nodes of a tree. *)
Fixpoint size (f : Formula) : nat :=
  match f with
  | Var _ => 1
  | Not l => S (size l)
  | And l r | Or l r | Impl l r | Equiv l r => S (size l + size r)
  end.

(** The variable names of a tree, left to right. *)
Fixpoint vars (f : Formula) : list string :=
  match f with
  | Var name => [name]
  | Not l => vars l
  | And l r | Or l r | Impl l r | Equiv l r => vars l ++ vars r
  end.

(* ===================================================================== *)
(** * class FormulaParser *)
(* ===================================================================== *)

Module FormulaParser.

(** [str.isalnum] on the code points below 256. *)
Definition isalnum (c : ascii) : bool :=
  let n := N_of_ascii c in
  ((48 <=? n) && (n <=? 57)
   || (65 <=? n) && (n <=? 90)
   || (97 <=? n) && (n <=? 122)
   || (n =? 170) || (n =? 178) || (n =? 179) || (n =? 181)
   || (n =? 185) || (n =? 186)
   || (188 <=? n) && (n <=? 190)
   || (192 <=? n) && (n <=? 214)
   || (216 <=? n) && (n <=? 246)
   || (248 <=? n) && (n <=? 255))%N.

(** [s[j].isalnum() or s[j] == '_'] *)
Definition ident_char (c : ascii) : bool :=
  isalnum c || Ascii.eqb c "_".

(** [s[i] in '-&v()'] *)
Definition symbol_char (c : ascii) : bool :=
  Ascii.eqb c "-" || Ascii.eqb c "&" || Ascii.eqb c "v"
  || Ascii.eqb c "(" || Ascii.eqb c ")".

(** [s.replace(' ', '')] *)
Fixpoint remove_spaces (s : string) : string :=
  match s with
  | EmptyString => EmptyString
  | String c r =>
      if Ascii.eqb c " " then remove_spaces r else String c (remove_spaces r)
  end.

Definition inspect {A : Type} (a : A) : {b : A | a = b} := exist _ a eq_refl.

Lemma get_Some_lt (s : string) (i : nat) (c : ascii) :
  String.get i s = Some c -> i < String.length s.
Proof.
  revert i. induction s as [| a r IH]; intros [| i] H; simpl in *;
    try discriminate; try lia.
  apply IH in H. lia.
Qed.

(** The inner loop of [_tokenize]:
    [while j < len(s) and (s[j].isalnum() or s[j] == '_'): j += 1]. *)
Equations? scan_ident (s : string) (j : nat) : nat
  by wf (String.length s - j) lt :=
  scan_ident s j with inspect (String.get j s) => {
    | exist _ (Some c) Hc with inspect (ident_char c) => {
        | exist _ true _ => scan_ident s (S j)
        | exist _ false _ => j };
    | exist _ None _ => j }.
Proof.
  apply get_Some_lt in Hc. lia.
Qed.

Lemma scan_ident_ge (s : string) (j : nat) : j <= scan_ident s j.
Proof.
  funelim (scan_ident s j); try lia.
Qed.

Lemma scan_ident_gt (s : string) (j : nat) (c : ascii) :
  String.get j s = Some c -> ident_char c = true -> j < scan_ident s j.
Proof.
  intros Hg Hi. funelim (scan_ident s j); try congruence.
  pose proof (scan_ident_ge s (S j)). lia.
Qed.

(** The outer loop of [_tokenize], from index [i] with the tokens [out]. *)
Equations? tokenize_loop (s : string) (i : nat) (out : list string)
  : list string by wf (String.length s - i) lt :=
  tokenize_loop s i out with inspect (String.get i s) => {
    | exist _ None _ => out
    | exist _ (Some c) Hc =>
        if String.eqb (substring i 3 s) "<->" then
          tokenize_loop s (i + 3) (out ++ ["<->"])
        else if String.eqb (substring i 2 s) "->" then
          tokenize_loop s (i + 2) (out ++ ["->"])
        else if symbol_char c then
          tokenize_loop s (i + 1) (out ++ [String c EmptyString])
        else match sumbool_of_bool (ident_char c) with
             | left Hid =>
                 tokenize_loop s (scan_ident s i)
                   (out ++ [substring i (scan_ident s i - i) s])
             | right _ => tokenize_loop s (i + 1) out
             end }.
Proof.
  all: pose proof (get_Some_lt _ _ _ Hc).
  all: try lia.
  pose proof (scan_ident_gt _ _ _ Hc Hid). lia.
Qed.

(** [FormulaParser._tokenize] *)
Definition _tokenize (s : string) : list string :=
  tokenize_loop (remove_spaces s) 0 [].

(** [self.pos < len(self.tokens) and self.tokens[self.pos] == t] *)
Definition tok_is (tokens : list string) (pos : nat) (t : string) : bool :=
  match nth_error tokens pos with
  | Some x => String.eqb x t
  | None => false
  end.

(** [self.tokens[self.pos]]: an index out of range raises [IndexError]. *)
Definition tok_at (tokens : list string) (pos : nat) : outcome string :=
  match nth_error tokens pos with
  | Some x => Done x
  | None => Raised IndexError
  end.

Definition err_extraneous (tok : string) : exn :=
  ValueError ("Extraneous input at '" ++ tok ++ "'").
Definition err_expected_rparen : exn := ValueError "Expected ')'".
Definition err_unexpected_end : exn := ValueError "Unexpected end".

(** The recursive-descent methods.  The parser object is the token list and
    the position [self.pos], which every method takes and returns.  The two
    [while] loops are [or_loop] and [and_loop].  Every call and every loop
    iteration takes one unit of fuel. *)
Fixpoint _parse_equiv (n : nat) (tokens : list string) (pos : nat)
  {struct n} : outcome (Formula * nat) :=
  match n with
  | O => Timeout
  | S n =>
      '(l, pos) <- _parse_impl n tokens pos ;;
      if tok_is tokens pos "<->" then
        '(r, pos) <- _parse_equiv n tokens (pos + 1) ;;
        Done (Equiv l r, pos)
      else Done (l, pos)
  end

with _parse_impl (n : nat) (tokens : list string) (pos : nat)
  {struct n} : outcome (Formula * nat) :=
  match n with
  | O => Timeout
  | S n =>
      '(l, pos) <- _parse_or n tokens pos ;;
      if tok_is tokens pos "->" then
        '(r, pos) <- _parse_impl n tokens (pos + 1) ;;
        Done (Impl l r, pos)
      else Done (l, pos)
  end

with _parse_or (n : nat) (tokens : list string) (pos : nat)
  {struct n} : outcome (Formula * nat) :=
  match n with
  | O => Timeout
  | S n =>
      '(l, pos) <- _parse_and n tokens pos ;;
      or_loop n tokens l pos
  end

with or_loop (n : nat) (tokens : list string) (l : Formula) (pos : nat)
  {struct n} : outcome (Formula * nat) :=
  match n with
  | O => Timeout
  | S n =>
      if tok_is tokens pos "v" then
        '(r, pos) <- _parse_and n tokens (pos + 1) ;;
        or_loop n tokens (Or l r) pos
      else Done (l, pos)
  end

with _parse_and (n : nat) (tokens : list string) (pos : nat)
  {struct n} : outcome (Formula * nat) :=
  match n with
  | O => Timeout
  | S n =>
      '(l, pos) <- _parse_not n tokens pos ;;
      and_loop n tokens l pos
  end

with and_loop (n : nat) (tokens : list string) (l : Formula) (pos : nat)
  {struct n} : outcome (Formula * nat) :=
  match n with
  | O => Timeout
  | S n =>
      if tok_is tokens pos "&" then
        '(r, pos) <- _parse_not n tokens (pos + 1) ;;
        and_loop n tokens (And l r) pos
      else Done (l, pos)
  end

with _parse_not (n : nat) (tokens : list string) (pos : nat)
  {struct n} : outcome (Formula * nat) :=
  match n with
  | O => Timeout
  | S n =>
      if tok_is tokens pos "-" then
        '(l, pos) <- _parse_not n tokens (pos + 1) ;;
        Done (Not l, pos)
      else _parse_primary n tokens pos
  end

with _parse_primary (n : nat) (tokens : list string) (pos : nat)
  {struct n} : outcome (Formula * nat) :=
  match n with
  | O => Timeout
  | S n =>
      if tok_is tokens pos "(" then
        '(node, pos) <- _parse_equiv n tokens (pos + 1) ;;
        if negb (pos <? List.length tokens)%nat || negb (tok_is tokens pos ")") then
          Raised err_expected_rparen
        else Done (node, pos + 1)
      else if (pos <? List.length tokens)%nat then
        tok <- tok_at tokens pos ;;
        Done (Var tok, pos + 1)
      else Raised err_unexpected_end
  end.

(** Fuel that covers every call chain on [tokens]: at most eight nested
    calls per token consumed. *)
Definition parse_fuel (tokens : list string) : nat :=
  8 * List.length tokens + 8.

(** [FormulaParser(s).parse()] *)
Definition parse (s : string) : outcome Formula :=
  let tokens := _tokenize s in
  '(node, pos) <- _parse_equiv (parse_fuel tokens) tokens 0 ;;
  if negb (pos =? List.length tokens)%nat then
    tok <- tok_at tokens pos ;;
    Raised (err_extraneous tok)
  else Done node.

End FormulaParser.
(* ===================================================================== *)
(** * class CNFConverter *)
(* ===================================================================== *)

Module CNFConverter.

(** ** The normaliser *)

Fixpoint _elim_equiv_impl (f : Formula) : Formula :=
  match f with
  | Var _ => f
  | Not l => Not (_elim_equiv_impl l)
  | Impl l r => Or (Not (_elim_equiv_impl l)) (_elim_equiv_impl r)
  | Equiv l r =>
      let A := _elim_equiv_impl l in
      let B := _elim_equiv_impl r in
      And (Or (Not A) B) (Or (Not B) A)
  | And l r => And (_elim_equiv_impl l) (_elim_equiv_impl r)
  | Or l r => Or (_elim_equiv_impl l) (_elim_equiv_impl r)
  end.

(** The measure under which the recursion of [_nnf] decreases: a negation
    doubles the weight of what it negates. *)
Fixpoint nnf_weight (f : Formula) : nat :=
  match f with
  | Var _ => 1
  | Not l => 2 * nnf_weight l
  | And l r | Or l r | Impl l r | Equiv l r => S (nnf_weight l + nnf_weight r)
  end.

Lemma nnf_weight_pos (f : Formula) : 0 < nnf_weight f.
Proof. induction f; simpl; lia. Qed.

Equations? _nnf (f : Formula) : Formula by wf (nnf_weight f) lt :=
  _nnf (Var x) := Var x;
  _nnf (Not (Var x)) := Not (Var x);
  _nnf (Not (Not h)) := _nnf h;
  _nnf (Not (And a b)) := _nnf (Or (Not a) (Not b));
  _nnf (Not (Or a b)) := _nnf (And (Not a) (Not b));
  _nnf (Not (Impl a b)) := Not (_nnf (Impl a b));
  _nnf (Not (Equiv a b)) := Not (_nnf (Equiv a b));
  _nnf (And l r) := And (_nnf l) (_nnf r);
  _nnf (Or l r) := Or (_nnf l) (_nnf r);
  _nnf (Impl l r) := Impl (_nnf l) (_nnf r);
  _nnf (Equiv l r) := Equiv (_nnf l) (_nnf r).
Proof.
  all: simpl; try lia.
  pose proof (nnf_weight_pos h). lia.
Qed.

(** ** The classical clausifier *)

(** [_dist(A, B)]: the recursion goes down [A] while it is an [And], and
    then, with [A] fixed, down [B]. *)
Fixpoint _dist (A B : Formula) {struct A} : Formula :=
  match A with
  | And A1 A2 => And (_dist A1 B) (_dist A2 B)
  | _ =>
      (fix dist_right (B : Formula) : Formula :=
         match B with
         | And B1 B2 => And (dist_right B1) (dist_right B2)
         | _ => Or A B
         end) B
  end.

Fixpoint _dist_or_over_and (f : Formula) : Formula :=
  if is_variable f || is_literal f then f
  else
    match f with
    | Var _ => f
    | Not l => Not (_dist_or_over_and l)
    | And l r => And (_dist_or_over_and l) (_dist_or_over_and r)
    | Or l r => _dist (_dist_or_over_and l) (_dist_or_over_and r)
    | Impl l r => Impl (_dist_or_over_and l) (_dist_or_over_and r)
    | Equiv l r => Equiv (_dist_or_over_and l) (_dist_or_over_and r)
    end.

Fixpoint _or_to_literals (f : Formula) : list string :=
  match f with
  | Or l r => _or_to_literals l ++ _or_to_literals r
  | Var name => [name]
  | Not (Var name) => [("-" ++ name)%string]
  | _ => [str f]
  end.

Fixpoint _formula_to_clauses (f : Formula) : list (list string) :=
  match f with
  | And l r => _formula_to_clauses l ++ _formula_to_clauses r
  | _ => [_or_to_literals f]
  end.

Definition to_cnf_equiv (f : Formula) : list (list string) :=
  let f1 := _elim_equiv_impl f in
  let f2 := _nnf f1 in
  let f3 := _dist_or_over_and f2 in
  _formula_to_clauses f3.

Fixpoint _is_clause (f : Formula) : bool :=
  if is_literal f then true
  else match f with
       | Or l r => _is_clause l && _is_clause r
       | _ => false
       end.

Fixpoint _is_cnf (f : Formula) : bool :=
  if is_literal f then true
  else match f with
       | And l r => _is_cnf l && _is_cnf r
       | Or l r => _is_clause l && _is_clause r
       | _ => false
       end.

(** ** The clause simplifier *)

(** [l.startswith('-')] and [l[1:]] *)
Definition starts_with_dash (l : string) : bool :=
  match l with
  | String c _ => Ascii.eqb c "-"
  | EmptyString => false
  end.

Definition tail (l : string) : string :=
  match l with
  | String _ r => r
  | EmptyString => EmptyString
  end.

(** [x in s] *)
Definition mem (x : string) (s : list string) : bool :=
  existsb (String.eqb x) s.

(** Insertion of a string into a strictly increasing list, keeping it
    strictly increasing. *)
Fixpoint insert (x : string) (s : list string) : list string :=
  match s with
  | [] => [x]
  | y :: r =>
      match String.compare x y with
      | Lt => x :: y :: r
      | Eq => y :: r
      | Gt => y :: insert x r
      end
  end.

(** [sorted(set(c))]: the distinct strings of [c] in increasing order (of
    code points, lexicographically).  A Python [set] is modelled by this
    list of its elements, since only membership, [any] over the elements and
    [sorted] are applied to it. *)
Definition sorted_set (c : list string) : list string :=
  fold_right insert [] c.

(** The test of the first loop of [_dedup_simplify] on the set [s]:
    [any(l.startswith('-') and l[1:] in s for l in s)
     or any(('-'+l) in s for l in s if not l.startswith('-'))]. *)
Definition tautological (s : list string) : bool :=
  existsb (fun l => starts_with_dash l && mem (tail l) s) s
  || existsb (fun l => mem ("-" ++ l)%string s)
       (filter (fun l => negb (starts_with_dash l)) s).

(** [set(d).issubset(sc)] and [set(d) != sc] *)
Definition issubset (d sc : list string) : bool :=
  forallb (fun x => mem x sc) d.

Definition set_neq (d sc : list string) : bool :=
  negb (issubset d sc && issubset sc d).

(** [enumerate(norm)] *)
Definition enumerate {A : Type} (l : list A) : list (nat * A) :=
  combine (seq 0 (List.length l)) l.

(** The first loop: drop the tautologies, normalise the others. *)
Fixpoint normalise (cls : list (list string)) : list (list string) :=
  match cls with
  | [] => []
  | c :: rest =>
      let s := sorted_set c in
      if tautological s then normalise rest else s :: normalise rest
  end.

(** The test of the second loop on the clause [c] at index [i]:
    [any(set(d).issubset(sc) and set(d) != sc
         for j, d in enumerate(norm) if i != j)]. *)
Definition subsumed (norm : list (list string)) (i : nat) (c : list string)
  : bool :=
  existsb (fun jd => issubset (snd jd) c && set_neq (snd jd) c)
    (filter (fun jd => negb (i =? fst jd)%nat) (enumerate norm)).

Definition _dedup_simplify (cls : list (list string)) : list (list string) :=
  let norm := normalise cls in
  map snd (filter (fun ic => negb (subsumed norm (fst ic) (snd ic)))
             (enumerate norm)).

(** ** The Tseitin clausifier *)

Inductive OpType : Type := EQUIV | IMPL | OR | AND | NOT.

(** The state of one [tseitin_450] run: the tree [g], the defining clauses
    emitted so far and the counter [fresh_id]. *)
Record tseitin_state : Type := mk_state {
  st_g : Formula;
  st_clauses : list (list string);
  st_fresh_id : nat }.

(** [f"t{fresh_id}"] *)
Definition fresh_name (fresh_id : nat) : string :=
  ("t" ++ NilEmpty.string_of_uint (Nat.to_uint fresh_id))%string.

Definition lit_to_str (x : Formula) : outcome string :=
  match x with
  | Var name => Done name
  | Not (Var name) => Done ("-" ++ name)%string
  | _ => Raised (ValueError "Expected literal")
  end.

Definition negate (s : string) : string :=
  if starts_with_dash s then tail s else ("-" ++ s)%string.

(** [add_equiv_cnf] appends to the list [clauses] of the enclosing call;
    here it returns the extended list. *)
Definition add_equiv_cnf (clauses : list (list string))
  (p : string) (op : OpType) (L R : string) : outcome (list (list string)) :=
  match op with
  | AND =>
      Done (clauses ++ [[("-" ++ p)%string; L]; [("-" ++ p)%string; R];
                        [negate L; negate R; p]])
  | OR =>
      Done (clauses ++ [[p; negate L]; [p; negate R];
                        [("-" ++ p)%string; L; R]])
  | _ => Raised (ValueError "Only AND/OR expected here")
  end.

(** Paths are lists of the strings ['left'] and ['right']. *)
Fixpoint find_literal_binary (h : Formula) (path : list string)
  : option (Formula * list string) :=
  match h with
  | Var _ => None
  | Not l => find_literal_binary l (path ++ ["left"])
  | And l r | Or l r =>
      if is_literal l && is_literal r then Some (h, path)
      else
        match find_literal_binary l (path ++ ["left"]) with
        | Some res => Some res
        | None => find_literal_binary r (path ++ ["right"])
        end
  | Impl l r | Equiv l r =>
      match find_literal_binary l (path ++ ["left"]) with
      | Some res => Some res
      | None => find_literal_binary r (path ++ ["right"])
      end
  end.

(** [replace_at] rebuilds the nodes along [path].  [None] stands for a path
    that steps to a child that is not there, where Python reads an attribute
    of [None] or builds a node outside the data model. *)
Fixpoint replace_at (h : Formula) (path : list string) (atom : Formula)
  {struct path} : option Formula :=
  match path with
  | [] => Some atom
  | d :: rest =>
      if String.eqb d "left" then
        match h with
        | Var _ => None
        | Not l => option_map Not (replace_at l rest atom)
        | And l r => option_map (fun l' => And l' r) (replace_at l rest atom)
        | Or l r => option_map (fun l' => Or l' r) (replace_at l rest atom)
        | Impl l r => option_map (fun l' => Impl l' r) (replace_at l rest atom)
        | Equiv l r => option_map (fun l' => Equiv l' r) (replace_at l rest atom)
        end
      else
        match h with
        | Var _ | Not _ => None
        | And l r => option_map (And l) (replace_at r rest atom)
        | Or l r => option_map (Or l) (replace_at r rest atom)
        | Impl l r => option_map (Impl l) (replace_at r rest atom)
        | Equiv l r => option_map (Equiv l) (replace_at r rest atom)
        end
  end.

(** The body of the [while] loop once a node has been found. *)
Definition rewrite_node (st : tseitin_state) (node : Formula)
  (path : list string) : outcome tseitin_state :=
  let go (op : OpType) (l r : Formula) :=
    Ls <- lit_to_str l ;;
    Rs <- lit_to_str r ;;
    let fresh_id := S (st_fresh_id st) in
    let p := fresh_name fresh_id in
    clauses <- add_equiv_cnf (st_clauses st) p op Ls Rs ;;
    match replace_at (st_g st) path (Var p) with
    | Some g => Done (mk_state g clauses fresh_id)
    | None => Raised AttributeError
    end in
  match node with
  | Var _ => Raised AttributeError
  | Not l => _ <- lit_to_str l ;; Raised AttributeError
  | And l r => go AND l r
  | Or l r => go OR l r
  | Impl l r => go IMPL l r
  | Equiv l r => go EQUIV l r
  end.

(** The [while not self._is_cnf(g)] loop; each iteration takes one unit of
    fuel. *)
Fixpoint tseitin_loop (n : nat) (st : tseitin_state) : outcome tseitin_state :=
  match n with
  | O => Timeout
  | S n =>
      if _is_cnf (st_g st) then Done st
      else
        match find_literal_binary (st_g st) [] with
        | None => Done st
        | Some (node, path) =>
            st' <- rewrite_node st node path ;;
            tseitin_loop n st'
        end
  end.

Definition tseitin_450 (f : Formula) : outcome (list (list string)) :=
  let g := _elim_equiv_impl f in
  let g := _nnf g in
  st <- tseitin_loop (size g) (mk_state g [] 0) ;;
  let g := st_g st in
  let cnf_g := if _is_cnf g then _formula_to_clauses g else to_cnf_equiv g in
  Done (_dedup_simplify (st_clauses st ++ cnf_g)).

End CNFConverter.

(** [format_cnf]: the text of a clause list.  A clause of one literal is
    printed bare (and only then is [cl[0]] read), any other clause as its
    literals joined by [ v ] between parentheses; the clauses are joined
    by [ & ], and the empty list is [TRUE]. *)
Definition format_clause (cl : list string) : string :=
  match cl with
  | [l] => l
  | _ => "(" ++ String.concat " v " cl ++ ")"
  end.

Definition format_cnf (clauses : list (list string)) : string :=
  match clauses with
  | [] => "TRUE"
  | _ => String.concat " & " (map format_clause clauses)
  end.

Import FormulaParser.
Import CNFConverter.

(* ===================================================================== *)
(** * Semantics of formulas and of clause lists *)
(* ===================================================================== *)

Definition assignment : Type := string -> bool.

Fixpoint eval (v : assignment) (f : Formula) : bool :=
  match f with
  | Var name => v name
  | Not l => negb (eval v l)
  | And l r => eval v l && eval v r
  | Or l r => eval v l || eval v r
  | Impl l r => implb (eval v l) (eval v r)
  | Equiv l r => Bool.eqb (eval v l) (eval v r)
  end.

(** A literal string is a name, or ['-'] followed by a literal string that
    it negates; this is the reading under which [negate] is negation. *)
Fixpoint lit_eval (v : assignment) (s : string) : bool :=
  match s with
  | String c r => if Ascii.eqb c "-" then negb (lit_eval v r) else v s
  | EmptyString => v s
  end.

Definition clause_eval (v : assignment) (c : list string) : bool :=
  existsb (lit_eval v) c.

Definition cnf_eval (v : assignment) (cls : list (list string)) : bool :=
  forallb (clause_eval v) cls.

Definition satisfiable (f : Formula) : Prop :=
  exists v, eval v f = true.

Definition cnf_satisfiable (cls : list (list string)) : Prop :=
  exists v, cnf_eval v cls = true.

(** Well-formed names: a name is a non-empty run of alphanumeric or
    underscore characters. *)
Fixpoint all_chars (P : ascii -> bool) (s : string) : bool :=
  match s with
  | EmptyString => true
  | String c r => P c && all_chars P r
  end.

Definition identifier (s : string) : bool :=
  negb (String.eqb s "") && all_chars ident_char s.

Definition all_vars (P : string -> Prop) (f : Formula) : Prop :=
  Forall P (vars f).

Definition well_formed (f : Formula) : Prop :=
  all_vars (fun x => identifier x = true) f.

(** What the literal strings need of a name: it does not start with the
    negation sign. *)
Definition plain (x : string) : Prop := starts_with_dash x = false.

(** Trees over [And], [Or], [Not] and variables, and those with [Not] on
    variables only. *)
Fixpoint no_impl_equiv (f : Formula) : bool :=
  match f with
  | Var _ => true
  | Not l => no_impl_equiv l
  | And l r | Or l r => no_impl_equiv l && no_impl_equiv r
  | Impl _ _ | Equiv _ _ => false
  end.

Fixpoint is_nnf (f : Formula) : bool :=
  match f with
  | Var _ => true
  | Not l => is_variable l
  | And l r | Or l r => is_nnf l && is_nnf r
  | Impl _ _ | Equiv _ _ => false
  end.

(* ===================================================================== *)
(** * Vocabulary of the statements *)
(* ===================================================================== *)

(** [A.op == OpType.AND] *)
Definition is_and (f : Formula) : bool :=
  match f with And _ _ => true | _ => false end.

(** The tree that [to_cnf_equiv] flattens. *)
Definition classical_cnf (f : Formula) : Formula :=
  _dist_or_over_and (_nnf (_elim_equiv_impl f)).

(** A literal over the names [P]: a name of [P], or ['-'] and such a
    name. *)
Definition literal_over (P : string -> Prop) (l : string) : Prop :=
  exists x, P x /\ (l = x \/ l = ("-" ++ x)%string).

(** The names a parsed variable can carry: a token other than the opening
    parenthesis and the negation sign. *)
Definition var_token (tokens : list string) (x : string) : Prop :=
  In x tokens /\ x <> "(" /\ x <> "-".

(** The two errors raised inside the grammar, by [_parse_primary]. *)
Definition parser_error (e : exn) : Prop :=
  e = err_expected_rparen \/ e = err_unexpected_end.

(** A method started at [pos] that returns has consumed at least one token,
    stays within the tokens, and builds variables from tokens; when it
    raises, it raises one of the two errors of [_parse_primary]. *)
Definition parsed_ok (tokens : list string) (pos : nat)
  (out : outcome (Formula * nat)) : Prop :=
  match out with
  | Done (f, pos') =>
      pos < pos' <= List.length tokens /\ all_vars (var_token tokens) f
  | Raised e => parser_error e
  | Timeout => True
  end.

(** The same for the two loops, which may consume nothing, and for
    [_parse_primary], whose variable is a name when the token is not the
    negation sign (as it is when [_parse_not] calls it). *)
Definition loop_ok (tokens : list string) (pos : nat)
  (out : outcome (Formula * nat)) : Prop :=
  match out with
  | Done (f, pos') =>
      pos <= pos' <= List.length tokens /\ all_vars (var_token tokens) f
  | Raised e => parser_error e
  | Timeout => True
  end.

Definition primary_ok (tokens : list string) (pos : nat)
  (out : outcome (Formula * nat)) : Prop :=
  match out with
  | Done (f, pos') =>
      pos < pos' <= List.length tokens
      /\ (tok_is tokens pos "-" = false -> all_vars (var_token tokens) f)
  | Raised e => parser_error e
  | Timeout => True
  end.

(** Fuel that suffices for each method, by the number of tokens left. *)
Definition need (h : nat) (tokens : list string) (pos : nat) : nat :=
  8 * (List.length tokens - pos) + h.

(** The tokens of [_tokenize]: the seven symbols, and identifiers. *)
Definition symbol_token (t : string) : Prop :=
  In t ["<->"; "->"; "-"; "&"; "v"; "("; ")"].

Definition token (t : string) : Prop :=
  identifier t = true \/ symbol_token t.

(** The four outcomes of [parse], by the run of [_parse_equiv] on the
    tokens. *)
Inductive parse_case (s : string) : Prop :=
| parse_returns (f : Formula) :
    _parse_equiv (parse_fuel (_tokenize s)) (_tokenize s) 0
      = Done (f, List.length (_tokenize s)) ->
    parse s = Done f ->
    parse_case s
| parse_extraneous (node : Formula) (pos : nat) (tok : string) :
    _parse_equiv (parse_fuel (_tokenize s)) (_tokenize s) 0
      = Done (node, pos) ->
    pos < List.length (_tokenize s) ->
    nth_error (_tokenize s) pos = Some tok ->
    parse s = Raised (err_extraneous tok) ->
    parse_case s
| parse_expected_rparen :
    _parse_equiv (parse_fuel (_tokenize s)) (_tokenize s) 0
      = Raised err_expected_rparen ->
    parse s = Raised err_expected_rparen ->
    parse_case s
| parse_unexpected_end :
    _parse_equiv (parse_fuel (_tokenize s)) (_tokenize s) 0
      = Raised err_unexpected_end ->
    parse s = Raised err_unexpected_end ->
    parse_case s.

(** The subtrees of a tree, the tree itself first. *)
Fixpoint nodes (f : Formula) : list Formula :=
  f :: match f with
       | Var _ => []
       | Not l => nodes l
       | And l r | Or l r | Impl l r | Equiv l r => nodes l ++ nodes r
       end.

(** The name of a parsed variable: an identifier, or one of the four
    symbol tokens that [_parse_primary] takes as a name. *)
Definition parsed_name (x : string) : Prop :=
  identifier x = true \/ In x ["<->"; "->"; "&"; ")"].

(** The order of [sorted] on strings. *)
Definition str_lt (a b : string) : Prop := String.compare a b = Lt.

(** Some clause of [norm] is a strict subset of [c]. *)
Definition strictly_subsumed (norm : list (list string)) (c : list string)
  : bool :=
  existsb (fun d => issubset d c && set_neq d c) norm.

(** The subtree that a path leads to. *)
Fixpoint subtree_at (h : Formula) (path : list string) : option Formula :=
  match path with
  | [] => Some h
  | d :: rest =>
      match (if String.eqb d "left" then left_of h else right_of h) with
      | Some c => subtree_at c rest
      | None => None
      end
  end.

(** A node the search can select: an [And] or an [Or] of two literals. *)
Definition literal_binary (node : Formula) : Prop :=
  exists l r, (node = And l r \/ node = Or l r)
              /\ is_literal l = true /\ is_literal r = true.

(** What the search returns from [h] with the path [acc] so far. *)
Definition found_at (h : Formula) (acc : list string)
  (node : Formula) (path : list string) : Prop :=
  exists rel, path = acc ++ rel /\ subtree_at h rel = Some node
              /\ literal_binary node.

(** [st'] is the state after one iteration of the loop from [st]. *)
Definition iteration (st st' : tseitin_state) : Prop :=
  _is_cnf (st_g st) = false
  /\ exists node path,
       find_literal_binary (st_g st) [] = Some (node, path)
       /\ rewrite_node st node path = Done st'.

(** The three clauses that define [p] as the conjunction, and as the
    disjunction, of the literals [L] and [R]. *)
Definition and_clauses (p L R : string) : list (list string) :=
  [[("-" ++ p)%string; L]; [("-" ++ p)%string; R]; [negate L; negate R; p]].

Definition or_clauses (p L R : string) : list (list string) :=
  [[p; negate L]; [p; negate R]; [("-" ++ p)%string; L; R]].

(** [run_from st k st']: the loop started in [st] is in [st'] after [k]
    iterations. *)
Inductive run_from (st : tseitin_state) : nat -> tseitin_state -> Prop :=
| run_start : run_from st 0 st
| run_iteration (k : nat) (st1 st2 : tseitin_state) :
    run_from st k st1 -> iteration st1 st2 -> run_from st (S k) st2.

(** The state in which [tseitin_450] enters the loop. *)
Definition initial_state (f : Formula) : tseitin_state :=
  mk_state (_nnf (_elim_equiv_impl f)) [] 0.

(** The assignment [v] with the value [b] for the name [p]. *)
Definition update (v : assignment) (p : string) (b : bool) : assignment :=
  fun x => if String.eqb x p then b else v x.

(** The names [t1], ..., [t<fresh_id>] that a run has used. *)
Definition fresh_upto (fresh_id : nat) (x : string) : Prop :=
  exists j, 1 <= j <= fresh_id /\ x = fresh_name j.

(** No variable of [f] is named like a fresh variable. *)
Definition fresh_free (f : Formula) : Prop :=
  forall n, 1 <= n -> ~ In (fresh_name n) (vars f).

(** The names a state of the run from [g0] can mention. *)
Definition known (g0 : Formula) (fresh_id : nat) (x : string) : Prop :=
  In x (vars g0) \/ fresh_upto fresh_id x.

(** The invariant of the loop started on [g0]: under the clauses emitted so
    far the tree has the value of [g0]; every assignment can be changed on
    the names used so far to satisfy these clauses; and the clauses and the
    tree mention known names only. *)
Record tseitin_inv (g0 : Formula) (st : tseitin_state) : Prop := {
  inv_plain : all_vars plain (st_g st);
  inv_known : all_vars (known g0 (st_fresh_id st)) (st_g st);
  inv_sound : forall v,
    cnf_eval v (st_clauses st) = true -> eval v (st_g st) = eval v g0;
  inv_extend : forall v, exists v',
    (forall x, ~ fresh_upto (st_fresh_id st) x -> v' x = v x)
    /\ cnf_eval v' (st_clauses st) = true;
  inv_support : forall v w,
    (forall x, known g0 (st_fresh_id st) x -> v x = w x) ->
    cnf_eval v (st_clauses st) = cnf_eval w (st_clauses st) }.

(** The clauses and the tree of a state mention names of [g0] and names
    used so far, and the names in the tree do not start with ['-']. *)
Definition names_inv (g0 : Formula) (st : tseitin_state) : Prop :=
  all_vars plain (st_g st)
  /\ all_vars (known g0 (st_fresh_id st)) (st_g st)
  /\ Forall (Forall (literal_over (known g0 (st_fresh_id st))))
       (st_clauses st).

(** The tokens of a text that is scanned as it stands. *)
Definition lex (s : string) : list string := tokenize_loop s 0 [].

(** A text does not go on with [c]. *)
Definition not_next (c : ascii) (r : string) : Prop :=
  match r with
  | String a _ => a <> c
  | EmptyString => True
  end.

(** A text does not go on with an identifier character. *)
Definition stops (r : string) : Prop :=
  match r with
  | String a _ => ident_char a = false
  | EmptyString => True
  end.

(** A name that the scan reads as one identifier: a non-empty run of
    identifier characters that does not begin with a symbol (the letter
    [v]). *)
Definition name_token (x : string) : bool :=
  match x with
  | String c _ => negb (symbol_char c) && all_chars ident_char x
  | EmptyString => false
  end.

(** A token of [_tokenize]: one of the seven symbols, or a name. *)
Definition proper_token (t : string) : Prop :=
  symbol_token t \/ name_token t = true.

(** A character that the scan skips. *)
Definition other_char (c : ascii) : bool :=
  negb (symbol_char c) && negb (ident_char c).

(** A method that returns the tree [f] from [pos] has consumed at least
    [size f] tokens; a loop entered with the tree [l], at least as many as
    it added nodes. *)
Definition consumed_ok (pos : nat) (out : outcome (Formula * nat)) : Prop :=
  match out with
  | Done (f, pos') => pos + size f <= pos'
  | _ => True
  end.

Definition consumed_loop_ok (l : Formula) (pos : nat)
  (out : outcome (Formula * nat)) : Prop :=
  match out with
  | Done (f, pos') => pos + size f <= pos' + size l
  | _ => True
  end.

(** The tokens of the text of a tree. *)
Fixpoint toks (f : Formula) : list string :=
  match f with
  | Var x => [x]
  | Not l => "-" :: toks l
  | And l r => "(" :: toks l ++ "&" :: toks r ++ [")"]
  | Or l r => "(" :: toks l ++ "v" :: toks r ++ [")"]
  | Impl l r => "(" :: toks l ++ "->" :: toks r ++ [")"]
  | Equiv l r => "(" :: toks l ++ "<->" :: toks r ++ [")"]
  end.

(** The text of a tree ends with a name (and not with a parenthesis). *)
Fixpoint open_end (f : Formula) : bool :=
  match f with
  | Var _ => true
  | Not l => open_end l
  | _ => false
  end.

(** The trees whose text [parse] reads back: the variables are names, and
    the left operand of a disjunction ends with a parenthesis. *)
Fixpoint printable (f : Formula) : bool :=
  match f with
  | Var x => name_token x
  | Not l => printable l
  | Or l r => printable l && printable r && negb (open_end l)
  | And l r | Impl l r | Equiv l r => printable l && printable r
  end.

(** With enough fuel the call [F] returns [res]. *)
Definition yields (F : nat -> outcome (Formula * nat)) (res : Formula * nat)
  : Prop :=
  exists m0, forall m, m0 <= m -> F m = Done res.

(** None of the four binary operators stands at the position [p]. *)
Definition ends_at (ts : list string) (p : nat) : Prop :=
  tok_is ts p "&" = false /\ tok_is ts p "v" = false
  /\ tok_is ts p "->" = false /\ tok_is ts p "<->" = false.

(** The tokens [l] stand in [ts] from the position [q]. *)
Definition tokens_at (ts : list string) (q : nat) (l : list string) : Prop :=
  forall k t, nth_error l k = Some t -> nth_error ts (q + k) = Some t.

(* ===================================================================== *)
(** * The normaliser and the classical pipeline *)
(* ===================================================================== *)

Section Normaliser.

Variable P : string -> Prop.

(** The two rewrites keep the variables. *)
Lemma elim_all_vars (f : Formula) :
  all_vars P f -> all_vars P (_elim_equiv_impl f).
Proof.
  unfold all_vars.
  induction f; simpl; intros H; auto;
    apply Forall_app in H; destruct H as [Hl Hr];
    repeat (apply Forall_app; split); auto.
Qed.

Lemma nnf_all_vars (f : Formula) : all_vars P f -> all_vars P (_nnf f).
Proof.
  unfold all_vars.
  funelim (_nnf f); simpl in *; intros Hf; auto;
    apply Forall_app in Hf; destruct Hf as [Hl Hr];
    apply Forall_app; split; auto.
Qed.

End Normaliser.

Lemma elim_eval (v : assignment) (f : Formula) :
  eval v (_elim_equiv_impl f) = eval v f.
Proof.
  induction f; simpl; rewrite ?IHf, ?IHf1, ?IHf2; auto;
    destruct (eval v f1), (eval v f2); reflexivity.
Qed.

Lemma elim_no_impl_equiv (f : Formula) :
  no_impl_equiv (_elim_equiv_impl f) = true.
Proof. induction f; simpl; rewrite ?IHf, ?IHf1, ?IHf2; auto. Qed.

Lemma nnf_eval (v : assignment) (f : Formula) : eval v (_nnf f) = eval v f.
Proof.
  funelim (_nnf f); simpl in *; auto;
    repeat match goal with
           | IH : forall v, eval v (_nnf ?g) = _ |- _ => rewrite IH; clear IH
           end;
    simpl; auto.
  - rewrite negb_involutive. reflexivity.
  - rewrite negb_andb. reflexivity.
  - rewrite negb_orb. reflexivity.
Qed.

Lemma nnf_is_nnf (f : Formula) :
  no_impl_equiv f = true -> is_nnf (_nnf f) = true.
Proof.
  funelim (_nnf f); simpl in *; intros Hf; auto; try discriminate.
  all: apply andb_true_iff in Hf; destruct Hf as [Hl Hr].
  all: apply andb_true_iff; split; auto.
Qed.

(** An NNF tree is left unchanged by [_nnf], and a tree over [And], [Or],
    [Not] and variables by [_elim_equiv_impl]. *)
Lemma elim_fixed (f : Formula) :
  no_impl_equiv f = true -> _elim_equiv_impl f = f.
Proof.
  induction f; simpl; intros H; try discriminate; auto.
  - rewrite IHf; auto.
  - apply andb_true_iff in H. destruct H. rewrite IHf1, IHf2; auto.
  - apply andb_true_iff in H. destruct H. rewrite IHf1, IHf2; auto.
Qed.

Lemma nnf_fixed (f : Formula) : is_nnf f = true -> _nnf f = f.
Proof.
  funelim (_nnf f); simpl in *; intros Hf; auto; try discriminate.
  all: apply andb_true_iff in Hf; destruct Hf as [Hl Hr].
  all: rewrite H, H0; auto.
Qed.

Lemma is_nnf_no_impl_equiv (f : Formula) :
  is_nnf f = true -> no_impl_equiv f = true.
Proof.
  induction f; simpl; intros H; auto.
  - destruct f; simpl in *; auto; discriminate.
  - apply andb_true_iff in H. destruct H. rewrite IHf1, IHf2; auto.
  - apply andb_true_iff in H. destruct H. rewrite IHf1, IHf2; auto.
Qed.

(** The CNF predicates of the converter, on NNF trees. *)
Lemma is_literal_is_clause (f : Formula) :
  is_literal f = true -> _is_clause f = true.
Proof.
  intros H. destruct f; simpl in *; try discriminate; try rewrite H; auto.
Qed.

Lemma is_clause_is_cnf (f : Formula) : _is_clause f = true -> _is_cnf f = true.
Proof.
  destruct f as [x | l | l r | l r | l r | l r]; simpl;
    intros H; try discriminate; auto.
Qed.

Lemma is_clause_is_nnf (f : Formula) : _is_clause f = true -> is_nnf f = true.
Proof.
  induction f as [x | l IHl | l IHl r IHr | l IHl r IHr
                 | l IHl r IHr | l IHl r IHr];
    simpl; intros H; try discriminate; auto.
  - revert H. destruct (is_variable l); auto.
  - apply andb_true_iff in H. destruct H. rewrite IHl, IHr; auto.
Qed.

Lemma is_cnf_is_nnf (f : Formula) : _is_cnf f = true -> is_nnf f = true.
Proof.
  induction f as [x | l IHl | l IHl r IHr | l IHl r IHr
                 | l IHl r IHr | l IHl r IHr];
    simpl; intros H; try discriminate; auto.
  - revert H. destruct (is_variable l); auto.
  - apply andb_true_iff in H. destruct H. rewrite IHl, IHr; auto.
  - apply andb_true_iff in H. destruct H. rewrite !is_clause_is_nnf; auto.
Qed.

(** ** Distribution *)

Lemma dist_and_left (A1 A2 B : Formula) :
  _dist (And A1 A2) B = And (_dist A1 B) (_dist A2 B).
Proof. reflexivity. Qed.

Lemma dist_and_right (A B1 B2 : Formula) :
  is_and A = false ->
  _dist A (And B1 B2) = And (_dist A B1) (_dist A B2).
Proof. intros H. destruct A; simpl in *; try discriminate; reflexivity. Qed.

Lemma dist_or (A B : Formula) :
  is_and A = false -> is_and B = false -> _dist A B = Or A B.
Proof.
  intros HA HB.
  destruct A; simpl in *; try discriminate;
    destruct B; simpl in *; try discriminate; reflexivity.
Qed.

Lemma dist_eval (v : assignment) (A B : Formula) :
  eval v (_dist A B) = eval v A || eval v B.
Proof.
  revert B. induction A; intros B;
    try (induction B; simpl in *;
         rewrite ?IHB1, ?IHB2; auto;
         match goal with
         | |- _ = ?a || (?b && ?c) => destruct a, b, c; reflexivity
         end).
  simpl. rewrite IHA1, IHA2.
  destruct (eval v A1), (eval v A2), (eval v B); reflexivity.
Qed.

Lemma is_cnf_not_and (f : Formula) :
  _is_cnf f = true -> is_and f = false -> _is_clause f = true.
Proof.
  destruct f as [x | l | l r | l r | l r | l r]; simpl; intros H Ha;
    try discriminate; auto.
Qed.

Lemma is_cnf_or (A B : Formula) :
  _is_cnf (Or A B) = _is_clause A && _is_clause B.
Proof. reflexivity. Qed.

Lemma dist_is_cnf (A B : Formula) :
  _is_cnf A = true -> _is_cnf B = true -> _is_cnf (_dist A B) = true.
Proof.
  intros HA HB.
  assert (Hright : forall A, is_and A = false -> _is_cnf A = true ->
            _is_cnf (_dist A B) = true).
  { clear A HA. intros A Ha HA.
    induction B as [x | l IHl | l IHl r IHr | l IHl r IHr
                   | l IHl r IHr | l IHl r IHr].
    all: try (rewrite dist_or by (auto; reflexivity); rewrite is_cnf_or;
              rewrite (is_cnf_not_and A HA Ha);
              rewrite (is_cnf_not_and _ HB eq_refl); reflexivity).
    rewrite dist_and_right by assumption. simpl in *.
    apply andb_true_iff in HB. destruct HB as [Hl Hr].
    rewrite IHl, IHr; auto. }
  induction A as [x | l IHl | l IHl r IHr | l IHl r IHr
                 | l IHl r IHr | l IHl r IHr];
    try (apply Hright; [reflexivity | assumption]).
  rewrite dist_and_left. simpl in *.
  apply andb_true_iff in HA. destruct HA as [Hl Hr].
  rewrite IHl, IHr; auto.
Qed.

Lemma dist_all_vars (P : string -> Prop) (A B : Formula) :
  all_vars P A -> all_vars P B -> all_vars P (_dist A B).
Proof.
  unfold all_vars. intros HA HB.
  assert (Hright : forall A, is_and A = false -> Forall P (vars A) ->
            Forall P (vars (_dist A B))).
  { clear A HA. intros A Ha HA.
    induction B as [x | l IHl | l IHl r IHr | l IHl r IHr
                   | l IHl r IHr | l IHl r IHr].
    all: try (rewrite dist_or by (auto; reflexivity); simpl;
              apply Forall_app; split; assumption).
    rewrite dist_and_right by assumption. simpl in *.
    apply Forall_app in HB. destruct HB as [Hl Hr].
    apply Forall_app; split; auto. }
  induction A as [x | l IHl | l IHl r IHr | l IHl r IHr
                 | l IHl r IHr | l IHl r IHr];
    try (apply Hright; [reflexivity | assumption]).
  rewrite dist_and_left. simpl in *.
  apply Forall_app in HA. destruct HA as [Hl Hr].
  apply Forall_app; split; auto.
Qed.

Lemma dist_or_over_and_eval (v : assignment) (f : Formula) :
  eval v (_dist_or_over_and f) = eval v f.
Proof.
  induction f as [x | l IHl | l IHl r IHr | l IHl r IHr
                 | l IHl r IHr | l IHl r IHr]; simpl; auto.
  - destruct (is_variable l); simpl; rewrite ?IHl; auto.
  - rewrite IHl, IHr; reflexivity.
  - rewrite dist_eval, IHl, IHr; reflexivity.
  - rewrite IHl, IHr; reflexivity.
  - rewrite IHl, IHr; reflexivity.
Qed.

Lemma dist_or_over_and_is_cnf (f : Formula) :
  is_nnf f = true -> _is_cnf (_dist_or_over_and f) = true.
Proof.
  induction f as [x | l IHl | l IHl r IHr | l IHl r IHr
                 | l IHl r IHr | l IHl r IHr]; simpl; intros H;
    try discriminate; auto.
  - rewrite H. simpl. rewrite H. reflexivity.
  - apply andb_true_iff in H. destruct H. rewrite IHl, IHr; auto.
  - apply andb_true_iff in H. destruct H. apply dist_is_cnf; auto.
Qed.

Lemma dist_or_over_and_all_vars (P : string -> Prop) (f : Formula) :
  all_vars P f -> all_vars P (_dist_or_over_and f).
Proof.
  unfold all_vars.
  induction f as [x | l IHl | l IHl r IHr | l IHl r IHr
                 | l IHl r IHr | l IHl r IHr]; simpl; intros H; auto.
  - destruct (is_variable l); simpl; auto.
  - apply Forall_app in H. destruct H. apply Forall_app; split; auto.
  - apply Forall_app in H. destruct H. apply dist_all_vars; unfold all_vars; auto.
  - apply Forall_app in H. destruct H. apply Forall_app; split; auto.
  - apply Forall_app in H. destruct H. apply Forall_app; split; auto.
Qed.

(** ** Flattening *)

Lemma lit_eval_plain (v : assignment) (x : string) :
  plain x -> lit_eval v x = v x.
Proof.
  unfold plain. destruct x as [| c r]; simpl; intros H; auto.
  rewrite H. reflexivity.
Qed.

Lemma lit_eval_dash (v : assignment) (s : string) :
  lit_eval v ("-" ++ s) = negb (lit_eval v s).
Proof. reflexivity. Qed.

Lemma clause_eval_app (v : assignment) (c d : list string) :
  clause_eval v (c ++ d) = clause_eval v c || clause_eval v d.
Proof. unfold clause_eval. apply existsb_app. Qed.

Lemma cnf_eval_app (v : assignment) (c d : list (list string)) :
  cnf_eval v (c ++ d) = cnf_eval v c && cnf_eval v d.
Proof. unfold cnf_eval. apply forallb_app. Qed.

Lemma cnf_eval_single (v : assignment) (c : list string) :
  cnf_eval v [c] = clause_eval v c.
Proof. unfold cnf_eval. simpl. apply andb_true_r. Qed.

Lemma or_to_literals_eval (v : assignment) (f : Formula) :
  _is_clause f = true -> all_vars plain f ->
  clause_eval v (_or_to_literals f) = eval v f.
Proof.
  unfold all_vars.
  induction f as [x | l IHl | l IHl r IHr | l IHl r IHr
                 | l IHl r IHr | l IHl r IHr]; simpl; intros Hc Hp;
    try discriminate.
  - inversion Hp; subst. unfold clause_eval. simpl.
    rewrite lit_eval_plain by assumption. apply orb_false_r.
  - destruct l; simpl in *; try discriminate.
    inversion Hp; subst. unfold clause_eval. simpl.
    rewrite lit_eval_plain by assumption. apply orb_false_r.
  - apply andb_true_iff in Hc. destruct Hc.
    apply Forall_app in Hp. destruct Hp.
    rewrite clause_eval_app, IHl, IHr; auto.
Qed.

Lemma formula_to_clauses_eval (v : assignment) (f : Formula) :
  _is_cnf f = true -> all_vars plain f ->
  cnf_eval v (_formula_to_clauses f) = eval v f.
Proof.
  unfold all_vars.
  induction f as [x | l IHl | l IHl r IHr | l IHl r IHr
                 | l IHl r IHr | l IHl r IHr]; intros Hc Hp;
    try (simpl in Hc; discriminate).
  - change (_formula_to_clauses (Var x)) with [_or_to_literals (Var x)].
    rewrite cnf_eval_single.
    apply or_to_literals_eval; auto.
  - change (_formula_to_clauses (Not l)) with [_or_to_literals (Not l)].
    rewrite cnf_eval_single.
    apply or_to_literals_eval; auto.
  - simpl in *. apply andb_true_iff in Hc. destruct Hc.
    apply Forall_app in Hp. destruct Hp.
    rewrite cnf_eval_app, IHl, IHr; auto.
  - change (_formula_to_clauses (Or l r)) with [_or_to_literals (Or l r)].
    rewrite cnf_eval_single.
    apply or_to_literals_eval; auto.
Qed.

(** ** The classical pipeline *)

Lemma identifier_plain (x : string) : identifier x = true -> plain x.
Proof.
  unfold identifier, plain. destruct x as [| c r]; simpl; auto.
  intros H. apply andb_true_iff in H. destruct H as [Hc _].
  destruct (Ascii.eqb c "-") eqn:E; auto.
  apply Ascii.eqb_eq in E. subst c. discriminate Hc.
Qed.

Lemma well_formed_plain (f : Formula) : well_formed f -> all_vars plain f.
Proof.
  unfold well_formed, all_vars. intros H.
  eapply Forall_impl; [| exact H]. intros x Hx. apply identifier_plain, Hx.
Qed.

Lemma classical_cnf_is_cnf (f : Formula) : _is_cnf (classical_cnf f) = true.
Proof.
  unfold classical_cnf.
  apply dist_or_over_and_is_cnf, nnf_is_nnf, elim_no_impl_equiv.
Qed.

Lemma classical_cnf_all_vars (P : string -> Prop) (f : Formula) :
  all_vars P f -> all_vars P (classical_cnf f).
Proof.
  intros H. unfold classical_cnf.
  apply dist_or_over_and_all_vars, nnf_all_vars, elim_all_vars, H.
Qed.

Lemma classical_cnf_eval (v : assignment) (f : Formula) :
  eval v (classical_cnf f) = eval v f.
Proof.
  unfold classical_cnf.
  rewrite dist_or_over_and_eval, nnf_eval, elim_eval. reflexivity.
Qed.

Lemma to_cnf_equiv_eval (v : assignment) (f : Formula) :
  all_vars plain f -> cnf_eval v (to_cnf_equiv f) = eval v f.
Proof.
  intros Hp. change (to_cnf_equiv f) with (_formula_to_clauses (classical_cnf f)).
  rewrite formula_to_clauses_eval.
  - apply classical_cnf_eval.
  - apply classical_cnf_is_cnf.
  - apply classical_cnf_all_vars, Hp.
Qed.

Lemma or_to_literals_over (P : string -> Prop) (f : Formula) :
  _is_clause f = true -> all_vars P f ->
  Forall (literal_over P) (_or_to_literals f).
Proof.
  unfold all_vars.
  induction f as [x | l IHl | l IHl r IHr | l IHl r IHr
                 | l IHl r IHr | l IHl r IHr]; simpl; intros Hc Hp;
    try discriminate.
  - inversion Hp; subst. repeat constructor. exists x; auto.
  - destruct l; simpl in *; try discriminate.
    inversion Hp; subst. repeat constructor. exists op; auto.
  - apply andb_true_iff in Hc. destruct Hc.
    apply Forall_app in Hp. destruct Hp.
    apply Forall_app; split; auto.
Qed.

Lemma formula_to_clauses_over (P : string -> Prop) (f : Formula) :
  _is_cnf f = true -> all_vars P f ->
  Forall (Forall (literal_over P)) (_formula_to_clauses f).
Proof.
  unfold all_vars.
  induction f as [x | l IHl | l IHl r IHr | l IHl r IHr
                 | l IHl r IHr | l IHl r IHr]; intros Hc Hp;
    try (simpl in Hc; discriminate).
  - constructor; [| constructor]. apply or_to_literals_over; auto.
  - constructor; [| constructor]. apply or_to_literals_over; auto.
  - simpl in *. apply andb_true_iff in Hc. destruct Hc.
    apply Forall_app in Hp. destruct Hp.
    apply Forall_app; split; auto.
  - constructor; [| constructor]. apply or_to_literals_over; auto.
Qed.

(** C1.  For a well-formed formula [f] and every assignment [v], the
    conjunction of the clauses of [to_cnf_equiv f] has the truth value of
    [f] under [v]; the literals of the clauses are variables of [f] and
    their negations. *)
Theorem to_cnf_equiv_equivalent (f : Formula) (v : assignment) :
  well_formed f ->
  cnf_eval v (to_cnf_equiv f) = eval v f
  /\ Forall (Forall (literal_over (fun x => In x (vars f)))) (to_cnf_equiv f).
Proof.
  intros Hwf. split.
  - apply to_cnf_equiv_eval, well_formed_plain, Hwf.
  - change (to_cnf_equiv f) with (_formula_to_clauses (classical_cnf f)).
    apply formula_to_clauses_over.
    + apply classical_cnf_is_cnf.
    + apply classical_cnf_all_vars. unfold all_vars.
      apply Forall_forall. auto.
Qed.

Lemma to_cnf_equiv_equivalent_witness :
  let f := Equiv (Var "A") (Or (Var "B") (Not (Var "C_1"))) in
  let v := fun x : string => String.eqb x "A" in
  cnf_eval v (to_cnf_equiv f) = eval v f
  /\ Forall (Forall (literal_over (fun x => In x (vars f)))) (to_cnf_equiv f).
Proof.
  apply to_cnf_equiv_equivalent.
  unfold well_formed, all_vars. simpl.
  repeat constructor.
Defined.

(* ===================================================================== *)
(** * The parser *)
(* ===================================================================== *)

(** ** What a call of a parsing method can yield *)

Lemma tok_is_lt (tokens : list string) (pos : nat) (t : string) :
  tok_is tokens pos t = true -> pos < List.length tokens.
Proof.
  unfold tok_is. destruct (nth_error tokens pos) eqn:E; try discriminate.
  intros _. apply nth_error_Some. congruence.
Qed.

Lemma all_vars_bin_intro (P : string -> Prop) (l r : Formula) :
  all_vars P l -> all_vars P r -> Forall P (vars l ++ vars r).
Proof. intros Hl Hr. apply Forall_app; split; assumption. Qed.

(** Case analysis on the outcome of a call, with the fact known of it. *)
Ltac call_of H :=
  match type of H with
  | _ _ _ ?m =>
      let f := fresh "f" in
      let p := fresh "pos" in
      let e := fresh "e" in
      destruct m as [[f p] | e |]; simpl in H |- *; auto
  end.

Lemma parser_ok (n : nat) :
  (forall ts pos, parsed_ok ts pos (_parse_equiv n ts pos))
  /\ (forall ts pos, parsed_ok ts pos (_parse_impl n ts pos))
  /\ (forall ts pos, parsed_ok ts pos (_parse_or n ts pos))
  /\ (forall ts l pos, pos <= List.length ts -> all_vars (var_token ts) l ->
        loop_ok ts pos (or_loop n ts l pos))
  /\ (forall ts pos, parsed_ok ts pos (_parse_and n ts pos))
  /\ (forall ts l pos, pos <= List.length ts -> all_vars (var_token ts) l ->
        loop_ok ts pos (and_loop n ts l pos))
  /\ (forall ts pos, parsed_ok ts pos (_parse_not n ts pos))
  /\ (forall ts pos, primary_ok ts pos (_parse_primary n ts pos)).
Proof.
  induction n as [| n IH]; [simpl; repeat split; auto |].
  destruct IH as (IHeq & IHimpl & IHor & IHorl & IHand & IHandl & IHnot & IHpr).
  repeat split; intros; simpl.
  - (* _parse_equiv *)
    pose proof (IHimpl ts pos) as H1. call_of H1.
    destruct (tok_is ts pos0 "<->"); simpl; auto.
    pose proof (IHeq ts (pos0 + 1)) as H2. call_of H2.
    destruct H1, H2. split; [lia | apply all_vars_bin_intro; auto].
  - (* _parse_impl *)
    pose proof (IHor ts pos) as H1. call_of H1.
    destruct (tok_is ts pos0 "->"); simpl; auto.
    pose proof (IHimpl ts (pos0 + 1)) as H2. call_of H2.
    destruct H1, H2. split; [lia | apply all_vars_bin_intro; auto].
  - (* _parse_or *)
    pose proof (IHand ts pos) as H1. call_of H1. destruct H1 as [Hb Hv].
    pose proof (IHorl ts f pos0 ltac:(lia) Hv) as H2. call_of H2.
    destruct H2. split; [lia | auto].
  - (* or_loop *)
    destruct (tok_is ts pos "v"); simpl; auto.
    pose proof (IHand ts (pos + 1)) as H1. call_of H1. destruct H1 as [Hb Hv].
    pose proof (IHorl ts (Or l f) pos0 ltac:(lia)
                  (all_vars_bin_intro _ _ _ H0 Hv)) as H2.
    call_of H2. destruct H2. split; [lia | auto].
  - (* _parse_and *)
    pose proof (IHnot ts pos) as H1. call_of H1. destruct H1 as [Hb Hv].
    pose proof (IHandl ts f pos0 ltac:(lia) Hv) as H2. call_of H2.
    destruct H2. split; [lia | auto].
  - (* and_loop *)
    destruct (tok_is ts pos "&"); simpl; auto.
    pose proof (IHnot ts (pos + 1)) as H1. call_of H1. destruct H1 as [Hb Hv].
    pose proof (IHandl ts (And l f) pos0 ltac:(lia)
                  (all_vars_bin_intro _ _ _ H0 Hv)) as H2.
    call_of H2. destruct H2. split; [lia | auto].
  - (* _parse_not *)
    destruct (tok_is ts pos "-") eqn:Hd; simpl.
    + pose proof (IHnot ts (pos + 1)) as H1. call_of H1.
      destruct H1. split; [lia | auto].
    + pose proof (IHpr ts pos) as H1. call_of H1.
      destruct H1. split; auto.
  - (* _parse_primary *)
    destruct (tok_is ts pos "(") eqn:Hp; simpl.
    + pose proof (IHeq ts (pos + 1)) as H1. call_of H1.
      destruct (tok_is ts pos0 ")") eqn:Hr.
      * apply tok_is_lt in Hr. apply Nat.ltb_lt in Hr as Hr'.
        rewrite Hr'. simpl. destruct H1. split; [lia | auto].
      * rewrite orb_true_r. simpl. left; reflexivity.
    + destruct (pos <? List.length ts)%nat eqn:Hl; simpl.
      * apply Nat.ltb_lt in Hl. unfold tok_at, tok_is in *.
        destruct (nth_error ts pos) as [tok |] eqn:E.
        -- simpl. split; [lia |]. intros Hd.
           constructor; [| constructor]. split; [| split].
           ++ eapply nth_error_In; eauto.
           ++ intros ->. simpl in Hp. discriminate.
           ++ intros ->. unfold tok_is in Hd. rewrite E in Hd. discriminate.
        -- apply nth_error_None in E. lia.
      * right; reflexivity.
Qed.

(** ** Fuel *)

(** A sub-call that is given enough fuel: it raises, or it returns and the
    proof goes on with what [parser_ok] says of its result. *)
Ltac sub_call m IHm Hok :=
  let E := fresh "E" in
  let H := fresh "Hsub" in
  pose proof Hok as H;
  destruct m as [[? ?] | ? |] eqn:E; simpl in H |- *;
  [ | discriminate | exfalso; revert E; apply IHm; unfold need in *; lia ].

Lemma parser_fuel (n : nat) :
  (forall ts pos, need 6 ts pos <= n -> _parse_equiv n ts pos <> Timeout)
  /\ (forall ts pos, need 5 ts pos <= n -> _parse_impl n ts pos <> Timeout)
  /\ (forall ts pos, need 4 ts pos <= n -> _parse_or n ts pos <> Timeout)
  /\ (forall ts l pos, pos <= List.length ts -> all_vars (var_token ts) l ->
        need 1 ts pos <= n -> or_loop n ts l pos <> Timeout)
  /\ (forall ts pos, need 3 ts pos <= n -> _parse_and n ts pos <> Timeout)
  /\ (forall ts l pos, pos <= List.length ts -> all_vars (var_token ts) l ->
        need 1 ts pos <= n -> and_loop n ts l pos <> Timeout)
  /\ (forall ts pos, need 2 ts pos <= n -> _parse_not n ts pos <> Timeout)
  /\ (forall ts pos, need 1 ts pos <= n -> _parse_primary n ts pos <> Timeout).
Proof.
  induction n as [| n IH];
    [repeat split; intros; unfold need in *; lia |].
  destruct IH as (IHeq & IHimpl & IHor & IHorl & IHand & IHandl & IHnot & IHpr).
  destruct (parser_ok n) as (Keq & Kimpl & Kor & Korl & Kand & Kandl & Knot & Kpr).
  repeat split; intros; simpl.
  - (* _parse_equiv *)
    sub_call (_parse_impl n ts pos) IHimpl (Kimpl ts pos).
    destruct (tok_is ts n0 "<->"); simpl; try discriminate.
    sub_call (_parse_equiv n ts (n0 + 1)) IHeq (Keq ts (n0 + 1)).
    discriminate.
  - (* _parse_impl *)
    sub_call (_parse_or n ts pos) IHor (Kor ts pos).
    destruct (tok_is ts n0 "->"); simpl; try discriminate.
    sub_call (_parse_impl n ts (n0 + 1)) IHimpl (Kimpl ts (n0 + 1)).
    discriminate.
  - (* _parse_or *)
    sub_call (_parse_and n ts pos) IHand (Kand ts pos).
    destruct Hsub as [Hb Hv].
    apply IHorl; auto; unfold need in *; lia.
  - (* or_loop *)
    destruct (tok_is ts pos "v") eqn:Ht; simpl; try discriminate.
    apply tok_is_lt in Ht.
    sub_call (_parse_and n ts (pos + 1)) IHand (Kand ts (pos + 1)).
    destruct Hsub as [Hb Hv].
    apply IHorl; [lia | apply all_vars_bin_intro; auto | unfold need in *; lia].
  - (* _parse_and *)
    sub_call (_parse_not n ts pos) IHnot (Knot ts pos).
    destruct Hsub as [Hb Hv].
    apply IHandl; auto; unfold need in *; lia.
  - (* and_loop *)
    destruct (tok_is ts pos "&") eqn:Ht; simpl; try discriminate.
    apply tok_is_lt in Ht.
    sub_call (_parse_not n ts (pos + 1)) IHnot (Knot ts (pos + 1)).
    destruct Hsub as [Hb Hv].
    apply IHandl; [lia | apply all_vars_bin_intro; auto | unfold need in *; lia].
  - (* _parse_not *)
    destruct (tok_is ts pos "-") eqn:Ht; simpl.
    + apply tok_is_lt in Ht.
      sub_call (_parse_not n ts (pos + 1)) IHnot (Knot ts (pos + 1)).
      discriminate.
    + apply IHpr. unfold need in *; lia.
  - (* _parse_primary *)
    destruct (tok_is ts pos "(") eqn:Ht; simpl.
    + apply tok_is_lt in Ht.
      sub_call (_parse_equiv n ts (pos + 1)) IHeq (Keq ts (pos + 1)).
      destruct (negb (n0 <? List.length ts)%nat || negb (tok_is ts n0 ")"));
        discriminate.
    + destruct (pos <? List.length ts)%nat eqn:Hl; simpl; try discriminate.
      apply Nat.ltb_lt in Hl. unfold tok_at.
      destruct (nth_error ts pos) eqn:E; simpl; discriminate.
Qed.

(** More fuel does not change the result of a call that had enough. *)
Ltac more_fuel m IHm :=
  let E := fresh "E" in
  destruct m as [[? ?] | ? |] eqn:E;
  [ rewrite (IHm ltac:(lia) ltac:(rewrite E; discriminate))
  | rewrite (IHm ltac:(lia) ltac:(rewrite E; discriminate))
  | simpl in *; congruence ];
  rewrite ?E; simpl in *; auto.

Lemma parser_fuel_mono (n : nat) :
  (forall ts pos m, n <= m -> _parse_equiv n ts pos <> Timeout ->
     _parse_equiv m ts pos = _parse_equiv n ts pos)
  /\ (forall ts pos m, n <= m -> _parse_impl n ts pos <> Timeout ->
     _parse_impl m ts pos = _parse_impl n ts pos)
  /\ (forall ts pos m, n <= m -> _parse_or n ts pos <> Timeout ->
     _parse_or m ts pos = _parse_or n ts pos)
  /\ (forall ts l pos m, n <= m -> or_loop n ts l pos <> Timeout ->
     or_loop m ts l pos = or_loop n ts l pos)
  /\ (forall ts pos m, n <= m -> _parse_and n ts pos <> Timeout ->
     _parse_and m ts pos = _parse_and n ts pos)
  /\ (forall ts l pos m, n <= m -> and_loop n ts l pos <> Timeout ->
     and_loop m ts l pos = and_loop n ts l pos)
  /\ (forall ts pos m, n <= m -> _parse_not n ts pos <> Timeout ->
     _parse_not m ts pos = _parse_not n ts pos)
  /\ (forall ts pos m, n <= m -> _parse_primary n ts pos <> Timeout ->
     _parse_primary m ts pos = _parse_primary n ts pos).
Proof.
  induction n as [| n IH]; [repeat split; intros; simpl in *; congruence |].
  destruct IH as (IHeq & IHimpl & IHor & IHorl & IHand & IHandl & IHnot & IHpr).
  repeat split; intros; (destruct m as [| m]; [lia |]); simpl in *.
  - more_fuel (_parse_impl n ts pos) (IHimpl ts pos m).
    destruct (tok_is ts n0 "<->"); simpl in *; auto.
    more_fuel (_parse_equiv n ts (n0 + 1)) (IHeq ts (n0 + 1) m).
  - more_fuel (_parse_or n ts pos) (IHor ts pos m).
    destruct (tok_is ts n0 "->"); simpl in *; auto.
    more_fuel (_parse_impl n ts (n0 + 1)) (IHimpl ts (n0 + 1) m).
  - more_fuel (_parse_and n ts pos) (IHand ts pos m).
    apply IHorl; [lia | assumption].
  - destruct (tok_is ts pos "v"); simpl in *; auto.
    more_fuel (_parse_and n ts (pos + 1)) (IHand ts (pos + 1) m).
    apply IHorl; [lia | assumption].
  - more_fuel (_parse_not n ts pos) (IHnot ts pos m).
    apply IHandl; [lia | assumption].
  - destruct (tok_is ts pos "&"); simpl in *; auto.
    more_fuel (_parse_not n ts (pos + 1)) (IHnot ts (pos + 1) m).
    apply IHandl; [lia | assumption].
  - destruct (tok_is ts pos "-"); simpl in *.
    + more_fuel (_parse_not n ts (pos + 1)) (IHnot ts (pos + 1) m).
    + apply IHpr; [lia | assumption].
  - destruct (tok_is ts pos "("); simpl in *; auto.
    more_fuel (_parse_equiv n ts (pos + 1)) (IHeq ts (pos + 1) m).
Qed.

(** ** The tokens *)

Lemma scan_ident_run (s : string) (j k : nat) :
  j <= k < scan_ident s j ->
  exists c, String.get k s = Some c /\ ident_char c = true.
Proof.
  funelim (scan_ident s j); intros Hk; try lia.
  destruct (Nat.eq_dec j k) as [-> | Hne].
  - exists c. split; assumption.
  - apply H. lia.
Qed.

Lemma all_chars_get (P : ascii -> bool) (t : string) :
  (forall k c, String.get k t = Some c -> P c = true) -> all_chars P t = true.
Proof.
  induction t as [| a r IH]; simpl; intros H; auto.
  apply andb_true_iff; split.
  - apply (H 0). reflexivity.
  - apply IH. intros k c Hk. apply (H (S k)). exact Hk.
Qed.

Lemma substring_get (s : string) (i n k : nat) (c : ascii) :
  String.get k (substring i n s) = Some c ->
  k < n /\ String.get (k + i) s = Some c.
Proof.
  intros H. destruct (lt_dec k n) as [Hlt | Hge].
  - split; auto. rewrite <- substring_correct1 with (m := n); auto.
  - rewrite substring_correct2 in H by lia. discriminate.
Qed.

Lemma ident_run_identifier (s : string) (i : nat) (c : ascii) :
  String.get i s = Some c -> ident_char c = true ->
  identifier (substring i (scan_ident s i - i) s) = true.
Proof.
  intros Hg Hc. pose proof (scan_ident_gt s i c Hg Hc) as Hgt.
  unfold identifier. apply andb_true_iff; split.
  - apply negb_true_iff, String.eqb_neq. intros He.
    assert (String.get 0 (substring i (scan_ident s i - i) s) = Some c) as H0.
    { rewrite substring_correct1 by lia. exact Hg. }
    rewrite He in H0. discriminate.
  - apply all_chars_get. intros k a Hk.
    apply substring_get in Hk. destruct Hk as [Hlt Hk].
    destruct (scan_ident_run s i (k + i)) as [a' [Ha' Hid]]; [lia |].
    congruence.
Qed.

Lemma symbol_char_token (c : ascii) :
  symbol_char c = true -> symbol_token (String c EmptyString).
Proof.
  unfold symbol_char, symbol_token. intros H.
  repeat (apply orb_true_iff in H; destruct H as [H | H]);
    apply Ascii.eqb_eq in H; subst c; simpl; auto 10.
Qed.

Lemma tokenize_loop_tokens (s : string) (i : nat) (out : list string) :
  Forall token out -> Forall token (tokenize_loop s i out).
Proof.
  funelim (tokenize_loop s i out); intros Hout; auto.
  destruct (substring i 3 s =? "<->").
  { apply H. apply Forall_app; split; auto.
    constructor; [| constructor]. right. unfold symbol_token. simpl. auto. }
  destruct (substring i 2 s =? "->").
  { apply H0. apply Forall_app; split; auto.
    constructor; [| constructor]. right. unfold symbol_token. simpl. auto. }
  destruct (symbol_char c) eqn:Hs.
  { apply H1. apply Forall_app; split; auto.
    constructor; [| constructor]. right. apply symbol_char_token, Hs. }
  destruct (sumbool_of_bool (ident_char c)) as [Hid | Hid].
  - apply H2; [exact Hid |]. apply Forall_app; split; auto.
    constructor; [| constructor]. left. eapply ident_run_identifier; eauto.
  - apply H3; [exact Hid | exact Hout].
Qed.

Lemma tokenize_tokens (s : string) : Forall token (_tokenize s).
Proof. apply tokenize_loop_tokens. constructor. Qed.

(** ** The outcomes of [parse] *)

Lemma parse_equiv_total (tokens : list string) (n : nat) :
  parse_fuel tokens <= n ->
  _parse_equiv n tokens 0 <> Timeout
  /\ _parse_equiv n tokens 0 = _parse_equiv (parse_fuel tokens) tokens 0.
Proof.
  intros Hn.
  assert (Hfuel : _parse_equiv (parse_fuel tokens) tokens 0 <> Timeout).
  { apply (proj1 (parser_fuel (parse_fuel tokens))).
    unfold need, parse_fuel. lia. }
  assert (Heq : _parse_equiv n tokens 0
                = _parse_equiv (parse_fuel tokens) tokens 0).
  { apply (proj1 (parser_fuel_mono (parse_fuel tokens))); assumption. }
  split; [rewrite Heq |]; assumption.
Qed.

Lemma parse_cases (s : string) : parse_case s.
Proof.
  pose proof (parse_equiv_total (_tokenize s) _ (le_n _)) as [Hfuel _].
  pose proof (proj1 (parser_ok (parse_fuel (_tokenize s))) (_tokenize s) 0)
    as Hok.
  assert (Hparse : parse s =
            '(node, pos) <- _parse_equiv (parse_fuel (_tokenize s))
                              (_tokenize s) 0 ;;
            if negb (pos =? List.length (_tokenize s))%nat then
              tok <- tok_at (_tokenize s) pos ;; Raised (err_extraneous tok)
            else Done node) by reflexivity.
  destruct (_parse_equiv (parse_fuel (_tokenize s)) (_tokenize s) 0)
    as [[node pos] | e |] eqn:E; simpl in *.
  - destruct Hok as [Hb _].
    destruct (pos =? List.length (_tokenize s))%nat eqn:Hp; simpl in Hparse.
    + apply Nat.eqb_eq in Hp. subst pos.
      eapply parse_returns; [exact E | exact Hparse].
    + apply Nat.eqb_neq in Hp. unfold tok_at in Hparse.
      destruct (nth_error (_tokenize s) pos) as [tok |] eqn:Ht.
      * eapply parse_extraneous; [exact E | lia | exact Ht | exact Hparse].
      * apply nth_error_None in Ht. lia.
  - destruct Hok as [-> | ->].
    + apply parse_expected_rparen; [exact E | exact Hparse].
    + apply parse_unexpected_end; [exact E | exact Hparse].
  - congruence.
Qed.


(** ** The variables of a parsed tree *)

Lemma nodes_vars (P : string -> Prop) (f : Formula) :
  all_vars P f ->
  Forall (fun n => forall x, n = Var x -> P x) (nodes f).
Proof.
  unfold all_vars.
  induction f as [x | l IHl | l IHl r IHr | l IHl r IHr
                 | l IHl r IHr | l IHl r IHr]; simpl; intros H.
  - constructor; [| constructor]. intros y Hy. inversion Hy; subst.
    inversion H; assumption.
  - constructor; [discriminate | auto].
  - apply Forall_app in H. destruct H.
    constructor; [discriminate | apply Forall_app; split; auto].
  - apply Forall_app in H. destruct H.
    constructor; [discriminate | apply Forall_app; split; auto].
  - apply Forall_app in H. destruct H.
    constructor; [discriminate | apply Forall_app; split; auto].
  - apply Forall_app in H. destruct H.
    constructor; [discriminate | apply Forall_app; split; auto].
Qed.

Lemma var_token_parsed_name (s x : string) :
  var_token (_tokenize s) x -> parsed_name x.
Proof.
  intros (Hin & Hp & Hd).
  pose proof (tokenize_tokens s) as Ht.
  rewrite Forall_forall in Ht. specialize (Ht x Hin).
  destruct Ht as [Hi | Hs]; [left; exact Hi |].
  unfold symbol_token in Hs. simpl in Hs.
  destruct Hs as [<- | [<- | [<- | [<- | [<- | [<- | [<- | []]]]]]]];
    unfold parsed_name; simpl; auto 10; try congruence.
Qed.

Lemma parse_all_vars (s : string) (f : Formula) :
  parse s = Done f -> all_vars parsed_name f.
Proof.
  intros Hp. destruct (parse_cases s) as [f' E H | | |];
    try congruence.
  assert (f' = f) by congruence. subst f'.
  pose proof (proj1 (parser_ok (parse_fuel (_tokenize s))) (_tokenize s) 0)
    as Hok.
  rewrite E in Hok. simpl in Hok. destruct Hok as [_ Hv].
  unfold all_vars in *. eapply Forall_impl; [| exact Hv].
  intros x. apply var_token_parsed_name.
Qed.

(** C9, as amended.  In the tree that [parse] returns, every variable node
    has no children, and its name is a non-empty token: a run of
    alphanumeric or underscore characters, or one of the symbol tokens
    [<->], [->], [&] and [)]. *)
Theorem parse_variable_nodes (s : string) (f : Formula) :
  parse s = Done f ->
  Forall (fun n =>
            is_variable n = true ->
            left_of n = None /\ right_of n = None
            /\ exists x, n = Var x /\ x <> "" /\ parsed_name x)
    (nodes f).
Proof.
  intros Hp. apply parse_all_vars in Hp.
  apply nodes_vars in Hp. eapply Forall_impl; [| exact Hp].
  intros n Hn Hv. destruct n as [x | | | | |]; try discriminate.
  repeat split. exists x. split; [reflexivity |].
  specialize (Hn x eq_refl). split; [| exact Hn].
  destruct Hn as [Hi | Hs].
  - intros ->. discriminate.
  - intros ->. simpl in Hs. intuition discriminate.
Qed.

Lemma parse_variable_nodes_witness :
  Forall (fun n =>
            is_variable n = true ->
            left_of n = None /\ right_of n = None
            /\ exists x, n = Var x /\ x <> "" /\ parsed_name x)
    (nodes (Impl (Var "p_1") (Not (Var "&")))).
Proof.
  apply (parse_variable_nodes "p_1 -> - &"). vm_compute. reflexivity.
Defined.

(** The claim as it was stated fails on the input [")"]: the tree is the
    variable named [")"], which is not an identifier. *)
Lemma parse_variable_not_identifier :
  parse ")" = Done (Var ")")
  /\ identifier ")" = false
  /\ ~ (forall f, parse ")" = Done f ->
         Forall (fun n => forall x, n = Var x -> identifier x = true)
           (nodes f)).
Proof.
  split; [vm_compute; reflexivity |].
  split; [vm_compute; reflexivity |].
  intros H. specialize (H (Var ")") ltac:(vm_compute; reflexivity)).
  inversion H as [| n l Hn Hl]; subst.
  specialize (Hn ")" eq_refl). vm_compute in Hn. discriminate.
Qed.

(** ** Associativity *)

(** C6 at the input ["A v B v C"]: the spaces are removed before the scan,
    so the text is the single identifier [AvBvC], and the tree is that
    variable, not a disjunction. *)
Theorem parse_or_chain_one_identifier :
  _tokenize "A v B v C" = ["AvBvC"]
  /\ parse "A v B v C" = Done (Var "AvBvC")
  /\ str (Var "AvBvC") <> "((A v B) v C)".
Proof.
  split; [vm_compute; reflexivity |].
  split; [vm_compute; reflexivity |].
  simpl. discriminate.
Qed.

(** Chains of the other three operators, and a disjunction whose operands
    are kept apart from the operator by parentheses. *)
Lemma parse_associativity :
  option_map str (match parse "A -> B -> C" with Done f => Some f | _ => None end)
    = Some "(A -> (B -> C))"
  /\ option_map str (match parse "A <-> B <-> C" with Done f => Some f | _ => None end)
    = Some "(A <-> (B <-> C))"
  /\ option_map str (match parse "A & B & C" with Done f => Some f | _ => None end)
    = Some "((A & B) & C)"
  /\ option_map str (match parse "(A) v (B) v (C)" with Done f => Some f | _ => None end)
    = Some "((A v B) v C)".
Proof. repeat split; vm_compute; reflexivity. Qed.

(* ===================================================================== *)
(** * The clause simplifier *)
(* ===================================================================== *)

(** ** Sets as increasing lists *)

Lemma mem_In (x : string) (s : list string) : mem x s = true <-> In x s.
Proof.
  unfold mem. rewrite existsb_exists. split.
  - intros [y [Hy He]]. apply String.eqb_eq in He. subst. exact Hy.
  - intros H. exists x. split; [exact H | apply String.eqb_refl].
Qed.

Lemma insert_In (x y : string) (s : list string) :
  In y (insert x s) <-> y = x \/ In y s.
Proof.
  induction s as [| z r IH]; simpl.
  - intuition.
  - destruct (String.compare x z) eqn:E; simpl.
    + apply String.compare_eq_iff in E. subst. intuition.
    + intuition.
    + rewrite IH. intuition.
Qed.

Lemma sorted_set_In (y : string) (c : list string) :
  In y (sorted_set c) <-> In y c.
Proof.
  induction c as [| x r IH]; simpl; [tauto |].
  rewrite insert_In, IH. intuition.
Qed.

Lemma insert_sorted (x : string) (s : list string) :
  Sorted str_lt s -> Sorted str_lt (insert x s).
Proof.
  induction s as [| y r IH]; simpl; intros Hs.
  - repeat constructor.
  - inversion Hs as [| ? ? Hr Hhd]; subst.
    destruct (String.compare x y) eqn:E.
    + exact Hs.
    + constructor; [exact Hs | constructor; exact E].
    + constructor; [apply IH, Hr |].
      assert (Hyx : str_lt y x).
      { unfold str_lt. rewrite String.compare_antisym, E. reflexivity. }
      destruct r as [| z r']; simpl.
      * constructor. exact Hyx.
      * inversion Hhd; subst.
        destruct (String.compare x z); constructor; assumption.
Qed.

Lemma sorted_set_sorted (c : list string) : Sorted str_lt (sorted_set c).
Proof.
  induction c as [| x r IH]; simpl; [constructor | apply insert_sorted, IH].
Qed.

Lemma sorted_set_fixed (s : list string) :
  Sorted str_lt s -> sorted_set s = s.
Proof.
  induction s as [| x r IH]; simpl; intros Hs; [reflexivity |].
  inversion Hs as [| ? ? Hr Hhd]; subst.
  rewrite (IH Hr). destruct r as [| y r']; simpl; [reflexivity |].
  inversion Hhd as [| ? ? Hxy]; subst. unfold str_lt in Hxy.
  rewrite Hxy. reflexivity.
Qed.

(** ** What the two passes keep *)

Lemma issubset_incl (d c : list string) : issubset d c = true <-> incl d c.
Proof.
  unfold issubset, incl. rewrite forallb_forall.
  split; intros H x Hx; apply mem_In, H, Hx.
Qed.

Lemma issubset_refl (c : list string) : issubset c c = true.
Proof. apply issubset_incl, incl_refl. Qed.

Lemma enumerate_from_In {A : Type} (l : list A) (k j : nat) (d : A) :
  In (j, d) (combine (seq k (List.length l)) l) <->
  k <= j /\ nth_error l (j - k) = Some d.
Proof.
  revert k. induction l as [| a r IH]; intros k; simpl.
  - split; [tauto |]. intros [_ H]. destruct (j - k); discriminate.
  - rewrite IH. split.
    + intros [H | [Hk Hn]].
      * inversion H; subst. rewrite Nat.sub_diag. simpl. auto.
      * split; [lia |]. replace (j - k) with (S (j - S k)) by lia. exact Hn.
    + intros [Hk Hn]. destruct (j - k) as [| m] eqn:E.
      * left. simpl in Hn. inversion Hn. f_equal. lia.
      * right. split; [lia |]. replace (j - S k) with m by lia. exact Hn.
Qed.

Lemma enumerate_In {A : Type} (l : list A) (j : nat) (d : A) :
  In (j, d) (enumerate l) <-> nth_error l j = Some d.
Proof.
  unfold enumerate. rewrite enumerate_from_In, Nat.sub_0_r.
  intuition lia.
Qed.

Lemma subsumed_strictly (norm : list (list string)) (i : nat)
  (c : list string) :
  nth_error norm i = Some c -> subsumed norm i c = strictly_subsumed norm c.
Proof.
  intros Hi. unfold subsumed, strictly_subsumed.
  apply eq_true_iff_eq. rewrite !existsb_exists. split.
  - intros [[j d] [Hin Hd]]. apply filter_In in Hin. destruct Hin as [Hin _].
    apply enumerate_In, nth_error_In in Hin. exists d. auto.
  - intros [d [Hin Hd]]. apply In_nth_error in Hin. destruct Hin as [j Hj].
    exists (j, d). split; [| exact Hd].
    apply filter_In. split; [apply enumerate_In, Hj |].
    simpl. apply negb_true_iff, Nat.eqb_neq. intros ->.
    assert (d = c) by congruence. subst d.
    apply andb_true_iff in Hd. destruct Hd as [_ Hd].
    unfold set_neq in Hd. rewrite issubset_refl in Hd. discriminate.
Qed.

Lemma filter_enumerate {A : Type} (q : A -> bool) (l : list A) (k : nat) :
  map snd (filter (fun ic => q (snd ic)) (combine (seq k (List.length l)) l))
  = filter q l.
Proof.
  revert k. induction l as [| a r IH]; intros k; simpl; [reflexivity |].
  destruct (q a); simpl; rewrite IH; reflexivity.
Qed.

(** The second loop keeps the clauses that no clause of [norm] strictly
    subsumes: the test [i != j] changes nothing, since a clause is not a
    strict subset of itself. *)
Lemma dedup_simplify_filter (cls : list (list string)) :
  _dedup_simplify cls
  = filter (fun c => negb (strictly_subsumed (normalise cls) c))
      (normalise cls).
Proof.
  unfold _dedup_simplify.
  rewrite <- (filter_enumerate
                (fun c => negb (strictly_subsumed (normalise cls) c))
                (normalise cls) 0).
  f_equal. apply filter_ext_in. intros [i c] Hin. simpl.
  apply enumerate_In in Hin. rewrite (subsumed_strictly _ _ _ Hin).
  reflexivity.
Qed.

Lemma normalise_In (cls : list (list string)) (s : list string) :
  In s (normalise cls) ->
  exists c, In c cls /\ s = sorted_set c /\ tautological s = false.
Proof.
  induction cls as [| c r IH]; simpl; [tauto |].
  destruct (tautological (sorted_set c)) eqn:E; simpl.
  - intros H. destruct (IH H) as [c' [Hc' H']]. exists c'. auto.
  - intros [<- | H].
    + exists c. auto.
    + destruct (IH H) as [c' [Hc' H']]. exists c'. auto.
Qed.

Lemma normalise_fixed (l : list (list string)) :
  Forall (fun c => Sorted str_lt c /\ tautological c = false) l ->
  normalise l = l.
Proof.
  induction l as [| c r IH]; simpl; intros H; [reflexivity |].
  inversion H as [| ? ? [Hs Ht] Hr]; subst.
  rewrite (sorted_set_fixed c Hs), Ht, (IH Hr). reflexivity.
Qed.

Lemma filter_all {A : Type} (q : A -> bool) (l : list A) :
  (forall x, In x l -> q x = true) -> filter q l = l.
Proof.
  induction l as [| a r IH]; simpl; intros H; [reflexivity |].
  rewrite (H a) by auto. rewrite IH; auto.
Qed.

(** C7.  Running the simplifier on its own output changes nothing. *)
Theorem dedup_simplify_idempotent (cs : list (list string)) :
  _dedup_simplify (_dedup_simplify cs) = _dedup_simplify cs.
Proof.
  rewrite (dedup_simplify_filter (_dedup_simplify cs)).
  assert (Hnorm : normalise (_dedup_simplify cs) = _dedup_simplify cs).
  { apply normalise_fixed. apply Forall_forall. intros c Hc.
    rewrite dedup_simplify_filter in Hc. apply filter_In in Hc.
    destruct Hc as [Hc _]. apply normalise_In in Hc.
    destruct Hc as [c0 [_ [-> Ht]]]. split; [apply sorted_set_sorted | exact Ht]. }
  rewrite Hnorm. apply filter_all. intros c Hc.
  rewrite dedup_simplify_filter in Hc. apply filter_In in Hc.
  destruct Hc as [_ Hkeep]. apply negb_true_iff. apply negb_true_iff in Hkeep.
  unfold strictly_subsumed in *.
  apply not_true_iff_false. intros Hex. apply not_true_iff_false in Hkeep.
  apply Hkeep. apply existsb_exists in Hex. destruct Hex as [d [Hd Hsub]].
  apply existsb_exists. exists d. split; [| exact Hsub].
  rewrite dedup_simplify_filter in Hd. apply filter_In in Hd. tauto.
Qed.

(** ** The simplifier keeps the models *)

Lemma clause_eval_In (v : assignment) (c : list string) :
  clause_eval v c = true <-> exists l, In l c /\ lit_eval v l = true.
Proof. unfold clause_eval. apply existsb_exists. Qed.

Lemma clause_eval_incl (v : assignment) (d c : list string) :
  incl d c -> clause_eval v d = true -> clause_eval v c = true.
Proof.
  intros Hi Hd. apply clause_eval_In in Hd. destruct Hd as [l [Hl Hv]].
  apply clause_eval_In. exists l. split; [apply Hi, Hl | exact Hv].
Qed.

Lemma clause_eval_sorted_set (v : assignment) (c : list string) :
  clause_eval v (sorted_set c) = clause_eval v c.
Proof.
  apply eq_true_iff_eq. split; apply clause_eval_incl;
    intros x Hx; apply sorted_set_In; exact Hx.
Qed.

Lemma starts_with_dash_tail (l : string) :
  starts_with_dash l = true -> l = ("-" ++ tail l)%string.
Proof.
  destruct l as [| c r]; simpl; [discriminate |].
  intros H. apply Ascii.eqb_eq in H. subst c. reflexivity.
Qed.

(** A clause with a literal and the literal that negates it. *)
Lemma tautological_iff (s : list string) :
  tautological s = true <-> exists x, In x s /\ In ("-" ++ x)%string s.
Proof.
  unfold tautological. rewrite orb_true_iff, !existsb_exists. split.
  - intros [[l [Hl H]] | [l [Hl H]]].
    + apply andb_true_iff in H. destruct H as [Hd Hm].
      apply mem_In in Hm. exists (tail l). split; [exact Hm |].
      rewrite <- starts_with_dash_tail; assumption.
    + apply filter_In in Hl. destruct Hl as [Hl _]. apply mem_In in H.
      exists l. auto.
  - intros [x [Hx Hn]]. left. exists ("-" ++ x)%string. split; [exact Hn |].
    simpl. apply mem_In, Hx.
Qed.

Lemma tautological_eval (v : assignment) (s : list string) :
  tautological s = true -> clause_eval v s = true.
Proof.
  intros H. apply tautological_iff in H. destruct H as [x [Hx Hn]].
  apply clause_eval_In. destruct (lit_eval v x) eqn:E.
  - exists x. auto.
  - exists ("-" ++ x)%string. split; [exact Hn |].
    rewrite lit_eval_dash, E. reflexivity.
Qed.

Lemma normalise_eval (v : assignment) (cls : list (list string)) :
  cnf_eval v (normalise cls) = cnf_eval v cls.
Proof.
  induction cls as [| c r IH]; simpl; [reflexivity |].
  destruct (tautological (sorted_set c)) eqn:E; simpl.
  - rewrite IH. apply (tautological_eval v) in E.
    rewrite clause_eval_sorted_set in E. rewrite E. reflexivity.
  - rewrite IH, clause_eval_sorted_set. reflexivity.
Qed.

Lemma strict_subset_shorter (d c : list string) :
  issubset d c = true -> set_neq d c = true ->
  List.length (nodup string_dec d) < List.length (nodup string_dec c).
Proof.
  intros Hs Hn. apply issubset_incl in Hs.
  assert (Hle : List.length (nodup string_dec d)
                <= List.length (nodup string_dec c)).
  { apply NoDup_incl_length; [apply NoDup_nodup |].
    intros x Hx. apply nodup_In. apply Hs. apply nodup_In in Hx. exact Hx. }
  destruct (Nat.eq_dec (List.length (nodup string_dec d))
                       (List.length (nodup string_dec c))) as [He | Hne];
    [| lia].
  exfalso. unfold set_neq in Hn. apply negb_true_iff in Hn.
  apply andb_false_iff in Hn. destruct Hn as [Hn | Hn].
  - apply issubset_incl in Hs. congruence.
  - apply not_true_iff_false in Hn. apply Hn. apply issubset_incl.
    assert (Hincl : incl (nodup string_dec c) (nodup string_dec d)).
    { apply NoDup_length_incl; [apply NoDup_nodup | lia |].
      intros y Hy. apply nodup_In. apply Hs. apply nodup_In in Hy. exact Hy. }
    intros x Hx. apply (nodup_In string_dec). apply Hincl.
    apply nodup_In. exact Hx.
Qed.

(** Every clause of [norm] contains a clause that the second loop keeps. *)
Lemma kept_subclause (norm : list (list string)) (k : nat) (c : list string) :
  List.length (nodup string_dec c) <= k -> In c norm ->
  exists d, In d (filter (fun c => negb (strictly_subsumed norm c)) norm)
            /\ incl d c.
Proof.
  revert c. induction k as [| k IH]; intros c Hk Hc.
  - destruct (strictly_subsumed norm c) eqn:E.
    + apply existsb_exists in E. destruct E as [d [_ Hd]].
      apply andb_true_iff in Hd. destruct Hd as [Hs Hn].
      pose proof (strict_subset_shorter d c Hs Hn). lia.
    + exists c. split; [| apply incl_refl].
      apply filter_In. split; [exact Hc | rewrite E; reflexivity].
  - destruct (strictly_subsumed norm c) eqn:E.
    + apply existsb_exists in E. destruct E as [d [Hd Hsub]].
      apply andb_true_iff in Hsub. destruct Hsub as [Hs Hn].
      pose proof (strict_subset_shorter d c Hs Hn) as Hlt.
      destruct (IH d ltac:(lia) Hd) as [d' [Hd' Hi]].
      exists d'. split; [exact Hd' |].
      apply issubset_incl in Hs. eapply incl_tran; eauto.
    + exists c. split; [| apply incl_refl].
      apply filter_In. split; [exact Hc | rewrite E; reflexivity].
Qed.

Lemma cnf_eval_forall (v : assignment) (cls : list (list string)) :
  cnf_eval v cls = true <-> forall c, In c cls -> clause_eval v c = true.
Proof. unfold cnf_eval. apply forallb_forall. Qed.

Lemma dedup_simplify_eval (v : assignment) (cls : list (list string)) :
  cnf_eval v (_dedup_simplify cls) = cnf_eval v cls.
Proof.
  rewrite <- (normalise_eval v cls), dedup_simplify_filter.
  apply eq_true_iff_eq. rewrite !cnf_eval_forall. split.
  - intros H c Hc.
    destruct (kept_subclause (normalise cls) _ c (le_n _) Hc) as [d [Hd Hi]].
    eapply clause_eval_incl; [exact Hi | apply H, Hd].
  - intros H c Hc. apply filter_In in Hc. apply H. tauto.
Qed.

(** No clause of the simplifier's output has a literal and its negation. *)
Lemma dedup_simplify_no_tautology (cls : list (list string))
  (C : list string) (x : string) :
  In C (_dedup_simplify cls) -> ~ (In x C /\ In ("-" ++ x)%string C).
Proof.
  intros HC Hx. rewrite dedup_simplify_filter in HC.
  apply filter_In in HC. destruct HC as [HC _].
  apply normalise_In in HC. destruct HC as [c [_ [_ Ht]]].
  apply not_true_iff_false in Ht. apply Ht.
  apply tautological_iff. exists x. exact Hx.
Qed.

(* ===================================================================== *)
(** * The Tseitin clausifier *)
(* ===================================================================== *)

(** ** Search and replacement *)

Lemma found_below (h c : Formula) (d : string) (acc : list string)
  (node : Formula) (path : list string) :
  d = "left" /\ left_of h = Some c \/ d = "right" /\ right_of h = Some c ->
  found_at c (acc ++ [d]) node path -> found_at h acc node path.
Proof.
  intros Hd (rel & Hp & Hs & Hl). exists (d :: rel).
  split; [rewrite Hp, <- app_assoc; reflexivity |].
  split; [| exact Hl].
  simpl. destruct Hd as [[-> ->] | [-> ->]]; simpl; exact Hs.
Qed.

Lemma find_literal_binary_spec (h : Formula) (acc : list string)
  (node : Formula) (path : list string) :
  find_literal_binary h acc = Some (node, path) -> found_at h acc node path.
Proof.
  revert acc.
  induction h as [x | l IHl | l IHl r IHr | l IHl r IHr
                 | l IHl r IHr | l IHl r IHr]; intros acc; simpl.
  - discriminate.
  - intros H. apply (found_below _ l "left"); auto.
  - destruct (is_literal l && is_literal r) eqn:E.
    + intros H. inversion H; subst. exists []. rewrite app_nil_r.
      apply andb_true_iff in E. destruct E.
      repeat split. exists l, r. auto.
    + destruct (find_literal_binary l (acc ++ ["left"])) eqn:El.
      * intros H. inversion H; subst.
        apply (found_below _ l "left"); auto.
      * intros H. apply (found_below _ r "right"); auto.
  - destruct (is_literal l && is_literal r) eqn:E.
    + intros H. inversion H; subst. exists []. rewrite app_nil_r.
      apply andb_true_iff in E. destruct E.
      repeat split. exists l, r. auto.
    + destruct (find_literal_binary l (acc ++ ["left"])) eqn:El.
      * intros H. inversion H; subst.
        apply (found_below _ l "left"); auto.
      * intros H. apply (found_below _ r "right"); auto.
  - destruct (find_literal_binary l (acc ++ ["left"])) eqn:El.
    + intros H. inversion H; subst.
      apply (found_below _ l "left"); auto.
    + intros H. apply (found_below _ r "right"); auto.
  - destruct (find_literal_binary l (acc ++ ["left"])) eqn:El.
    + intros H. inversion H; subst.
      apply (found_below _ l "left"); auto.
    + intros H. apply (found_below _ r "right"); auto.
Qed.

(** On an NNF tree that is not a literal the search succeeds. *)
Lemma find_literal_binary_complete (h : Formula) (acc : list string) :
  is_nnf h = true -> is_literal h = false ->
  exists node path, find_literal_binary h acc = Some (node, path).
Proof.
  revert acc.
  induction h as [x | l IHl | l IHl r IHr | l IHl r IHr
                 | l IHl r IHr | l IHl r IHr]; intros acc Hn Hl;
    simpl in *; try discriminate; try congruence.
  - apply andb_true_iff in Hn. destruct Hn as [Hnl Hnr].
    destruct (is_literal l) eqn:Ell; simpl.
    + destruct (is_literal r) eqn:Elr; simpl; [eauto |].
      destruct (find_literal_binary l (acc ++ ["left"])) as [[n p] |];
        [eauto | apply IHr; auto].
    + destruct (IHl (acc ++ ["left"]) Hnl eq_refl) as (n & p & ->). eauto.
  - apply andb_true_iff in Hn. destruct Hn as [Hnl Hnr].
    destruct (is_literal l) eqn:Ell; simpl.
    + destruct (is_literal r) eqn:Elr; simpl; [eauto |].
      destruct (find_literal_binary l (acc ++ ["left"])) as [[n p] |];
        [eauto | apply IHr; auto].
    + destruct (IHl (acc ++ ["left"]) Hnl eq_refl) as (n & p & ->). eauto.
Qed.

Lemma is_cnf_literal (h : Formula) : is_literal h = true -> _is_cnf h = true.
Proof. intros H. apply is_clause_is_cnf, is_literal_is_clause, H. Qed.

Lemma size_pos (f : Formula) : 0 < size f.
Proof. destruct f; simpl; lia. Qed.

Lemma size_one_variable (f : Formula) : size f = 1 -> is_variable f = true.
Proof.
  destruct f as [x | l | l r | l r | l r | l r]; simpl; auto; intros H;
    pose proof (size_pos l); try pose proof (size_pos r); lia.
Qed.

(** Replacing the subtree at a path. *)
Lemma replace_at_subtree (h : Formula) (rel : list string)
  (node atom : Formula) :
  subtree_at h rel = Some node ->
  exists h',
    replace_at h rel atom = Some h'
    /\ size h' + size node = size h + size atom
    /\ (forall v, eval v atom = eval v node -> eval v h' = eval v h)
    /\ (forall P, all_vars P h -> all_vars P atom -> all_vars P h')
    /\ (forall P, all_vars P h -> all_vars P node)
    /\ (is_nnf h = true -> is_variable atom = true -> is_nnf h' = true).
Proof.
  revert h. induction rel as [| d rest IH]; intros h; simpl.
  - intros H. inversion H; subst. exists atom.
    split; [reflexivity |]. split; [lia |]. split; [auto |].
    split; [auto |]. split; [auto |].
    intros _ Ha. destruct atom; simpl in *; try discriminate; reflexivity.
  - destruct (String.eqb d "left") eqn:Ed.
    + destruct h as [x | l | l r | l r | l r | l r]; simpl; try discriminate;
        intros H; destruct (IH _ H) as (h' & -> & Hs & He & Hv & Hn & Hf);
        simpl; eexists; (split; [reflexivity |]); simpl;
        (split; [lia |]);
        (split; [intros v Hv'; rewrite (He v Hv'); reflexivity |]);
        unfold all_vars in *; simpl;
        (split; [intros P HP Ha; try apply Forall_app in HP;
                 try apply Forall_app; intuition |]);
        (split; [intros P HP; try apply Forall_app in HP; intuition |]).
      * (* under a negation the tree is a variable and the path ends *)
        intros Hl Ha. apply size_one_variable.
        pose proof (size_pos node). pose proof (size_pos h').
        destruct l; simpl in *; try discriminate.
        destruct atom; simpl in *; try discriminate. lia.
      * intros Hl Ha. apply andb_true_iff in Hl. destruct Hl as [H1 H2].
        rewrite H2, Hf; auto.
      * intros Hl Ha. apply andb_true_iff in Hl. destruct Hl as [H1 H2].
        rewrite H2, Hf; auto.
      * discriminate.
      * discriminate.
    + destruct h as [x | l | l r | l r | l r | l r]; simpl; try discriminate;
        intros H; destruct (IH _ H) as (h' & -> & Hs & He & Hv & Hn & Hf);
        simpl; eexists; (split; [reflexivity |]); simpl;
        (split; [lia |]);
        (split; [intros v Hv'; rewrite (He v Hv'); reflexivity |]);
        unfold all_vars in *; simpl;
        (split; [intros P HP Ha; try apply Forall_app in HP;
                 try apply Forall_app; intuition |]);
        (split; [intros P HP; try apply Forall_app in HP; intuition |]).
      * intros Hl Ha. apply andb_true_iff in Hl. destruct Hl as [H1 H2].
        rewrite H1, Hf; auto.
      * intros Hl Ha. apply andb_true_iff in Hl. destruct Hl as [H1 H2].
        rewrite H1, Hf; auto.
      * discriminate.
      * discriminate.
Qed.

(** ** One iteration of the rewrite loop *)

Lemma lit_to_str_literal (l : Formula) :
  is_literal l = true -> exists L, lit_to_str l = Done L.
Proof.
  destruct l as [x | l | | | |]; simpl; try discriminate; eauto.
  destruct l; simpl; try discriminate; eauto.
Qed.

Lemma rewrite_node_found (st : tseitin_state) (node : Formula)
  (path : list string) :
  found_at (st_g st) [] node path ->
  exists l r L R g',
    subtree_at (st_g st) path = Some node
    /\ is_literal l = true /\ is_literal r = true
    /\ lit_to_str l = Done L /\ lit_to_str r = Done R
    /\ replace_at (st_g st) path (Var (fresh_name (S (st_fresh_id st))))
       = Some g'
    /\ (node = And l r
        /\ rewrite_node st node path
           = Done (mk_state g'
                     (st_clauses st
                      ++ and_clauses (fresh_name (S (st_fresh_id st))) L R)
                     (S (st_fresh_id st)))
        \/ node = Or l r
        /\ rewrite_node st node path
           = Done (mk_state g'
                     (st_clauses st
                      ++ or_clauses (fresh_name (S (st_fresh_id st))) L R)
                     (S (st_fresh_id st)))).
Proof.
  intros (rel & Hp & Hs & (l & r & Hn & Hl & Hr)). simpl in Hp. subst rel.
  destruct (lit_to_str_literal l Hl) as [L HL].
  destruct (lit_to_str_literal r Hr) as [R HR].
  destruct (replace_at_subtree _ _ _
              (Var (fresh_name (S (st_fresh_id st)))) Hs)
    as (g' & Hg & _).
  exists l, r, L, R, g'. repeat (split; [assumption |]).
  destruct Hn as [-> | ->]; [left | right]; (split; [reflexivity |]);
    unfold rewrite_node; rewrite HL, HR; simpl; rewrite Hg; reflexivity.
Qed.

Lemma iteration_shape (st st' : tseitin_state) :
  iteration st st' ->
  exists node path l r L R,
    find_literal_binary (st_g st) [] = Some (node, path)
    /\ subtree_at (st_g st) path = Some node
    /\ is_literal l = true /\ is_literal r = true
    /\ lit_to_str l = Done L /\ lit_to_str r = Done R
    /\ st_fresh_id st' = S (st_fresh_id st)
    /\ replace_at (st_g st) path (Var (fresh_name (S (st_fresh_id st))))
       = Some (st_g st')
    /\ (node = And l r
        /\ st_clauses st'
           = st_clauses st ++ and_clauses (fresh_name (S (st_fresh_id st))) L R
        \/ node = Or l r
        /\ st_clauses st'
           = st_clauses st ++ or_clauses (fresh_name (S (st_fresh_id st))) L R).
Proof.
  intros (Hc & node & path & Hf & Hr).
  destruct (rewrite_node_found st node path (find_literal_binary_spec _ _ _ _ Hf))
    as (l & r & L & R & g' & Hs & Hl & Hr' & HL & HR & Hg & Hcase).
  exists node, path, l, r, L, R.
  repeat (split; [assumption |]).
  destruct Hcase as [[Hn He] | [Hn He]]; rewrite He in Hr;
    inversion Hr; subst st'; simpl; auto.
Qed.

Lemma iteration_size (st st' : tseitin_state) :
  iteration st st' -> size (st_g st') + 2 <= size (st_g st).
Proof.
  intros H. apply iteration_shape in H.
  destruct H as (node & path & l & r & L & R & _ & Hs & _ & _ & _ & _ & _
                 & Hg & Hn).
  destruct (replace_at_subtree _ _ _
              (Var (fresh_name (S (st_fresh_id st)))) Hs)
    as (g' & Hg' & Hsz & _).
  rewrite Hg in Hg'. inversion Hg'; subst g'. simpl in Hsz.
  pose proof (size_pos l). pose proof (size_pos r).
  destruct Hn as [[-> _] | [-> _]]; simpl in Hsz; lia.
Qed.

Lemma iteration_nnf (st st' : tseitin_state) :
  iteration st st' -> is_nnf (st_g st) = true -> is_nnf (st_g st') = true.
Proof.
  intros H Hn. apply iteration_shape in H.
  destruct H as (node & path & l & r & L & R & _ & Hs & _ & _ & _ & _ & _
                 & Hg & _).
  destruct (replace_at_subtree _ _ _
              (Var (fresh_name (S (st_fresh_id st)))) Hs)
    as (g' & Hg' & _ & _ & _ & _ & Hf).
  rewrite Hg in Hg'. inversion Hg'; subst g'. apply Hf; auto.
Qed.

(** ** The loop *)

Lemma run_from_first (st st1 st2 : tseitin_state) (k : nat) :
  iteration st st1 -> run_from st1 k st2 -> run_from st (S k) st2.
Proof.
  intros Hi Hr. induction Hr as [| k sa sb Hr IH Hs].
  - eapply run_iteration; [apply run_start | exact Hi].
  - eapply run_iteration; [exact IH | exact Hs].
Qed.

Lemma tseitin_loop_runs (n : nat) (st : tseitin_state) :
  size (st_g st) <= n ->
  exists k st',
    tseitin_loop n st = Done st'
    /\ run_from st k st'
    /\ (_is_cnf (st_g st') = true
        \/ find_literal_binary (st_g st') [] = None).
Proof.
  revert st. induction n as [| n IH]; intros st Hn.
  - pose proof (size_pos (st_g st)). lia.
  - simpl. destruct (_is_cnf (st_g st)) eqn:Hc.
    + exists 0, st. split; [reflexivity |]. split; [apply run_start | auto].
    + destruct (find_literal_binary (st_g st) []) as [[node path] |] eqn:Hf.
      * destruct (rewrite_node_found st node path
                    (find_literal_binary_spec _ _ _ _ Hf))
          as (l & r & L & R & g' & _ & _ & _ & _ & _ & _ & Hcase).
        assert (Hex : exists st1, rewrite_node st node path = Done st1)
          by (destruct Hcase as [[_ ->] | [_ ->]]; eauto).
        destruct Hex as [st1 Hst1]. rewrite Hst1. simpl.
        assert (Hit : iteration st st1)
          by (split; [exact Hc | exists node, path; auto]).
        pose proof (iteration_size _ _ Hit) as Hsz.
        destruct (IH st1 ltac:(lia)) as (k & st' & Hl & Hr & Hend).
        exists (S k), st'. split; [exact Hl |].
        split; [eapply run_from_first; eauto | exact Hend].
      * exists 0, st. split; [reflexivity |]. split; [apply run_start | auto].
Qed.

Lemma run_from_nnf (st st' : tseitin_state) (k : nat) :
  run_from st k st' -> is_nnf (st_g st) = true -> is_nnf (st_g st') = true.
Proof.
  intros Hr Hn. induction Hr as [| k sa sb Hr IH Hs]; [exact Hn |].
  eapply iteration_nnf; eauto.
Qed.

Lemma run_from_fresh_id (st st' : tseitin_state) (k : nat) :
  run_from st k st' -> st_fresh_id st' = st_fresh_id st + k.
Proof.
  intros Hr. induction Hr as [| k sa sb Hr IH Hs]; [lia |].
  apply iteration_shape in Hs.
  destruct Hs as (node & path & l & r & L & R & _ & _ & _ & _ & _ & _ & Hid & _).
  lia.
Qed.

Lemma initial_state_nnf (f : Formula) : is_nnf (st_g (initial_state f)) = true.
Proof. apply nnf_is_nnf, elim_no_impl_equiv. Qed.

(** On NNF trees the loop ends with a tree in CNF. *)
Lemma tseitin_loop_cnf (n : nat) (st : tseitin_state) :
  is_nnf (st_g st) = true -> size (st_g st) <= n ->
  exists k st',
    tseitin_loop n st = Done st' /\ run_from st k st'
    /\ _is_cnf (st_g st') = true.
Proof.
  intros Hn Hs. destruct (tseitin_loop_runs n st Hs) as (k & st' & Hl & Hr & He).
  exists k, st'. split; [exact Hl |]. split; [exact Hr |].
  destruct He as [Hc | Hnone]; [exact Hc |].
  destruct (is_literal (st_g st')) eqn:El; [apply is_cnf_literal, El |].
  destruct (find_literal_binary_complete (st_g st') []
              (run_from_nnf _ _ _ Hr Hn) El) as (node & path & Hf).
  congruence.
Qed.

Lemma tseitin_450_unfold (f : Formula) :
  tseitin_450 f =
  st <- tseitin_loop (size (st_g (initial_state f))) (initial_state f) ;;
  Done (_dedup_simplify
          (st_clauses st
           ++ (if _is_cnf (st_g st) then _formula_to_clauses (st_g st)
               else to_cnf_equiv (st_g st)))).
Proof. reflexivity. Qed.

(** [tseitin_450] returns on every formula: the clauses of the run, and
    those of the final tree, simplified. *)
Lemma tseitin_450_returns (f : Formula) :
  exists k st,
    run_from (initial_state f) k st
    /\ _is_cnf (st_g st) = true
    /\ tseitin_loop (size (st_g (initial_state f))) (initial_state f) = Done st
    /\ tseitin_450 f
       = Done (_dedup_simplify
                 (st_clauses st ++ _formula_to_clauses (st_g st))).
Proof.
  destruct (tseitin_loop_cnf _ (initial_state f) (initial_state_nnf f) (le_n _))
    as (k & st & Hl & Hr & Hc).
  exists k, st. repeat (split; [assumption |]).
  rewrite tseitin_450_unfold, Hl. simpl. rewrite Hc. reflexivity.
Qed.

(** ** The search never stalls *)

(** C4.  On an NNF tree [g] that is not in CNF, the search returns an
    [And] or [Or] node of [g] with two literal children, and the rewrite of
    that node gives a strictly smaller NNF tree; the loop started on [g]
    returns, with a tree in CNF, so that [tseitin_450] flattens the tree
    and does not fall back on the classical pipeline; and the loop returns
    from every state when it has fuel for the size of the tree. *)
Theorem tseitin_search_never_stalls (g : Formula)
  (clauses : list (list string)) (fresh_id : nat) :
  is_nnf g = true ->
  (_is_cnf g = false ->
   exists node path st',
     find_literal_binary g [] = Some (node, path)
     /\ subtree_at g path = Some node
     /\ literal_binary node
     /\ rewrite_node (mk_state g clauses fresh_id) node path = Done st'
     /\ size (st_g st') < size g
     /\ is_nnf (st_g st') = true)
  /\ (exists k st',
        tseitin_loop (size g) (mk_state g clauses fresh_id) = Done st'
        /\ run_from (mk_state g clauses fresh_id) k st'
        /\ _is_cnf (st_g st') = true)
  /\ (forall f, exists k st,
        run_from (initial_state f) k st
        /\ _is_cnf (st_g st) = true
        /\ tseitin_loop (size (st_g (initial_state f))) (initial_state f)
           = Done st
        /\ tseitin_450 f
           = Done (_dedup_simplify
                     (st_clauses st ++ _formula_to_clauses (st_g st))))
  /\ (forall st n, size (st_g st) <= n ->
        exists st', tseitin_loop n st = Done st').
Proof.
  intros Hn. split; [| split; [| split]].
  - intros Hc.
    assert (Hl : is_literal g = false).
    { destruct (is_literal g) eqn:E; [| reflexivity].
      apply is_cnf_literal in E. congruence. }
    destruct (find_literal_binary_complete g [] Hn Hl) as (node & path & Hf).
    pose proof (find_literal_binary_spec _ _ _ _ Hf) as Hfound.
    destruct (rewrite_node_found (mk_state g clauses fresh_id) node path Hfound)
      as (l & r & L & R & g' & Hs & Hll & Hlr & _ & _ & _ & Hcase).
    assert (Hex : exists st',
               rewrite_node (mk_state g clauses fresh_id) node path = Done st')
      by (destruct Hcase as [[_ ->] | [_ ->]]; eauto).
    destruct Hex as [st' Hst'].
    assert (Hit : iteration (mk_state g clauses fresh_id) st')
      by (split; [exact Hc | exists node, path; auto]).
    exists node, path, st'. split; [exact Hf |]. split; [exact Hs |].
    split; [destruct Hfound as (_ & _ & _ & Hlb); exact Hlb |].
    split; [exact Hst' |].
    split; [pose proof (iteration_size _ _ Hit); simpl in *; lia |].
    apply (iteration_nnf _ _ Hit). exact Hn.
  - destruct (tseitin_loop_cnf (size g) (mk_state g clauses fresh_id) Hn (le_n _))
      as (k & st' & Hl & Hr & Hc).
    exists k, st'. auto.
  - apply tseitin_450_returns.
  - intros st n Hs. destruct (tseitin_loop_runs n st Hs) as (k & st' & Hl & _).
    exists st'. exact Hl.
Qed.

Lemma tseitin_search_never_stalls_witness :
  let g := Or (And (Var "A") (Var "B")) (Not (Var "C")) in
  (_is_cnf g = false ->
   exists node path st',
     find_literal_binary g [] = Some (node, path)
     /\ subtree_at g path = Some node
     /\ literal_binary node
     /\ rewrite_node (mk_state g [] 0) node path = Done st'
     /\ size (st_g st') < size g
     /\ is_nnf (st_g st') = true)
  /\ (exists k st',
        tseitin_loop (size g) (mk_state g [] 0) = Done st'
        /\ run_from (mk_state g [] 0) k st'
        /\ _is_cnf (st_g st') = true)
  /\ (forall f, exists k st,
        run_from (initial_state f) k st
        /\ _is_cnf (st_g st) = true
        /\ tseitin_loop (size (st_g (initial_state f))) (initial_state f)
           = Done st
        /\ tseitin_450 f
           = Done (_dedup_simplify
                     (st_clauses st ++ _formula_to_clauses (st_g st))))
  /\ (forall st n, size (st_g st) <= n ->
        exists st', tseitin_loop n st = Done st').
Proof.
  apply (tseitin_search_never_stalls
           (Or (And (Var "A") (Var "B")) (Not (Var "C"))) [] 0).
  reflexivity.
Defined.

(** ** Fresh names and defining clauses *)

Lemma fresh_name_examples :
  fresh_name 1 = "t1" /\ fresh_name 2 = "t2" /\ fresh_name 10 = "t10".
Proof. repeat split. Qed.

Lemma fresh_name_inj (n m : nat) : fresh_name n = fresh_name m -> n = m.
Proof.
  unfold fresh_name. simpl. intros H. inversion H as [H'].
  apply DecimalNat.Unsigned.to_uint_inj.
  pose proof (NilEmpty.usu (Nat.to_uint n)) as Hn.
  pose proof (NilEmpty.usu (Nat.to_uint m)) as Hm.
  rewrite H' in Hn. congruence.
Qed.

Lemma negate_eval (v : assignment) (s : string) :
  lit_eval v (negate s) = negb (lit_eval v s).
Proof.
  unfold negate. destruct (starts_with_dash s) eqn:E.
  - rewrite (starts_with_dash_tail s E) at 2.
    rewrite lit_eval_dash, negb_involutive. reflexivity.
  - apply lit_eval_dash.
Qed.





(** ** Formulas that are already in CNF *)

Lemma dedup_simplify_In (cls : list (list string)) (C : list string) :
  In C (_dedup_simplify cls) ->
  exists c, In c cls /\ (forall l, In l C <-> In l c).
Proof.
  intros H. rewrite dedup_simplify_filter in H. apply filter_In in H.
  destruct H as [H _]. apply normalise_In in H.
  destruct H as [c [Hc [-> _]]]. exists c. split; [exact Hc |].
  intros l. apply sorted_set_In.
Qed.

Lemma dedup_simplify_over (P : string -> Prop) (cls : list (list string)) :
  Forall (Forall P) cls -> Forall (Forall P) (_dedup_simplify cls).
Proof.
  rewrite !Forall_forall. intros H C HC.
  apply dedup_simplify_In in HC. destruct HC as [c [Hc Hl]].
  specialize (H c Hc). rewrite Forall_forall in *.
  intros l Hin. apply H, Hl, Hin.
Qed.

(** C10.  On a formula [f] that satisfies [_is_cnf], the normaliser returns
    [f] itself, the rewrite loop returns the state it was given, with no
    clause and the counter at 0, and [tseitin_450] returns the simplified
    flattening of [f], whose literals are variables of [f] and their
    negations. *)
Theorem tseitin_450_on_cnf (f : Formula) :
  _is_cnf f = true ->
  _nnf (_elim_equiv_impl f) = f
  /\ tseitin_loop (size f) (mk_state f [] 0) = Done (mk_state f [] 0)
  /\ tseitin_450 f = Done (_dedup_simplify (_formula_to_clauses f))
  /\ Forall (Forall (literal_over (fun x => In x (vars f))))
       (_dedup_simplify (_formula_to_clauses f)).
Proof.
  intros Hc.
  assert (Hn : is_nnf f = true) by (apply is_cnf_is_nnf, Hc).
  assert (Hg : _nnf (_elim_equiv_impl f) = f).
  { rewrite elim_fixed by (apply is_nnf_no_impl_equiv, Hn).
    apply nnf_fixed, Hn. }
  assert (Hl : tseitin_loop (size f) (mk_state f [] 0)
               = Done (mk_state f [] 0)).
  { pose proof (size_pos f). destruct (size f) as [| n]; [lia |].
    simpl. rewrite Hc. reflexivity. }
  split; [exact Hg |]. split; [exact Hl |]. split.
  - rewrite tseitin_450_unfold. unfold initial_state. rewrite Hg. simpl.
    rewrite Hl. simpl. rewrite Hc. reflexivity.
  - apply dedup_simplify_over. apply formula_to_clauses_over; [exact Hc |].
    unfold all_vars. apply Forall_forall. auto.
Qed.

Lemma tseitin_450_on_cnf_witness :
  let f := And (Or (Var "A") (Not (Var "B"))) (Var "C") in
  _nnf (_elim_equiv_impl f) = f
  /\ tseitin_loop (size f) (mk_state f [] 0) = Done (mk_state f [] 0)
  /\ tseitin_450 f = Done (_dedup_simplify (_formula_to_clauses f))
  /\ Forall (Forall (literal_over (fun x => In x (vars f))))
       (_dedup_simplify (_formula_to_clauses f)).
Proof.
  apply (tseitin_450_on_cnf (And (Or (Var "A") (Not (Var "B"))) (Var "C"))).
  reflexivity.
Defined.

(** ** Tautological clauses *)

(** C3, as amended.  [tseitin_450] returns on every formula, and no clause
    of its output has a literal [x] together with [-x]. *)
Theorem tseitin_450_no_tautology (f : Formula) :
  exists cls,
    tseitin_450 f = Done cls
    /\ forall C x, In C cls -> ~ (In x C /\ In ("-" ++ x)%string C).
Proof.
  destruct (tseitin_450_returns f) as (k & st & _ & _ & _ & H).
  eexists. split; [exact H |].
  intros C x HC. eapply dedup_simplify_no_tautology, HC.
Qed.

(** The claim as it was stated fails for the classical pipeline, which does
    not run the simplifier: on [A v -A] it returns the clause [A, -A]. *)
Lemma to_cnf_equiv_keeps_tautology :
  to_cnf_equiv (Or (Var "A") (Not (Var "A"))) = [["A"; "-A"]]
  /\ ~ (forall C x, In C (to_cnf_equiv (Or (Var "A") (Not (Var "A")))) ->
          ~ (In x C /\ In ("-" ++ x)%string C)).
Proof.
  split; [reflexivity |].
  intros H. apply (H ["A"; "-A"] "A").
  - left. reflexivity.
  - simpl. auto.
Qed.

(** ** Equisatisfiability *)

Lemma eval_ext (v w : assignment) (f : Formula) :
  (forall x, In x (vars f) -> v x = w x) -> eval v f = eval w f.
Proof.
  induction f as [x | l IHl | l IHl r IHr | l IHl r IHr
                 | l IHl r IHr | l IHl r IHr]; simpl; intros H.
  - apply H. auto.
  - rewrite IHl; auto.
  - rewrite IHl, IHr; auto; intros x Hx; apply H, in_or_app; auto.
  - rewrite IHl, IHr; auto; intros x Hx; apply H, in_or_app; auto.
  - rewrite IHl, IHr; auto; intros x Hx; apply H, in_or_app; auto.
  - rewrite IHl, IHr; auto; intros x Hx; apply H, in_or_app; auto.
Qed.

Lemma lit_to_str_eval (l : Formula) (L : string) (v : assignment) :
  all_vars plain l -> lit_to_str l = Done L -> lit_eval v L = eval v l.
Proof.
  unfold all_vars.
  destruct l as [x | l | | | |]; simpl; try discriminate.
  - intros Hp H. inversion H; subst. inversion Hp; subst.
    apply lit_eval_plain. assumption.
  - destruct l as [x | | | | |]; simpl; try discriminate.
    intros Hp H. inversion H; subst. inversion Hp; subst.
    simpl. rewrite lit_eval_plain by assumption. reflexivity.
Qed.

Lemma fresh_name_plain (n : nat) : plain (fresh_name n).
Proof. reflexivity. Qed.

Lemma and_clauses_eval (v : assignment) (p L R : string) :
  plain p ->
  cnf_eval v (and_clauses p L R)
  = Bool.eqb (v p) (lit_eval v L && lit_eval v R).
Proof.
  intros Hp. unfold and_clauses, cnf_eval, clause_eval. simpl.
  rewrite !negate_eval, (lit_eval_plain v p Hp).
  destruct (v p), (lit_eval v L), (lit_eval v R); reflexivity.
Qed.

Lemma or_clauses_eval (v : assignment) (p L R : string) :
  plain p ->
  cnf_eval v (or_clauses p L R)
  = Bool.eqb (v p) (lit_eval v L || lit_eval v R).
Proof.
  intros Hp. unfold or_clauses, cnf_eval, clause_eval. simpl.
  rewrite !negate_eval, (lit_eval_plain v p Hp).
  destruct (v p), (lit_eval v L), (lit_eval v R); reflexivity.
Qed.

Section Invariant.

Variable g0 : Formula.
Hypothesis g0_plain : all_vars plain g0.
Hypothesis g0_fresh_free : fresh_free g0.

Lemma inv_initial : tseitin_inv g0 (mk_state g0 [] 0).
Proof.
  constructor; simpl; auto.
  - unfold all_vars. apply Forall_forall. intros x Hx. left. exact Hx.
  - intros v. exists v. auto.
Qed.

Lemma known_mono (i : nat) (x : string) : known g0 i x -> known g0 (S i) x.
Proof.
  intros [H | (j & Hj & ->)]; [left; exact H |].
  right. exists j. split; [lia | reflexivity].
Qed.

Lemma next_name_unknown (i : nat) : ~ known g0 i (fresh_name (S i)).
Proof.
  intros [H | (j & Hj & He)].
  - apply (g0_fresh_free (S i)); [lia | exact H].
  - apply fresh_name_inj in He. lia.
Qed.

Lemma inv_iteration (st st' : tseitin_state) :
  tseitin_inv g0 st -> iteration st st' -> tseitin_inv g0 st'.
Proof.
  intros [Hplain Hknown Hsound Hext Hsupp] Hi.
  apply iteration_shape in Hi.
  destruct Hi as (node & path & l & r & L & R & _ & Hs & Hl & Hr & HL & HR
                  & Hid & Hg & Hc).
  set (p := fresh_name (S (st_fresh_id st))) in *.
  destruct (replace_at_subtree _ _ _ (Var p) Hs)
    as (g' & Hg' & _ & Heval & Hvars & Hnode & _).
  rewrite Hg in Hg'. inversion Hg'; subst g'. clear Hg'.
  (* the defining clauses state that [p] has the value of the node *)
  assert (Hdef : exists def,
             st_clauses st' = st_clauses st ++ def
             /\ forall v, cnf_eval v def = Bool.eqb (v p) (eval v node)).
  { pose proof (Hnode _ Hplain) as Hpn. unfold all_vars in Hpn.
    destruct Hc as [[-> ->] | [-> ->]]; simpl in Hpn;
      apply Forall_app in Hpn; destruct Hpn as [Hpl Hpr];
      eexists; (split; [reflexivity |]); intros v.
    - rewrite and_clauses_eval by apply fresh_name_plain.
      rewrite (lit_to_str_eval l L v Hpl HL), (lit_to_str_eval r R v Hpr HR).
      reflexivity.
    - rewrite or_clauses_eval by apply fresh_name_plain.
      rewrite (lit_to_str_eval l L v Hpl HL), (lit_to_str_eval r R v Hpr HR).
      reflexivity. }
  destruct Hdef as (def & Hcl & Hdef).
  pose proof (Hnode _ Hknown) as Hkn.
  assert (Hnode_ext : forall v w,
             (forall x, known g0 (st_fresh_id st) x -> v x = w x) ->
             eval v node = eval w node).
  { intros v w Hvw. apply eval_ext. intros x Hx. apply Hvw.
    unfold all_vars in Hkn. rewrite Forall_forall in Hkn. auto. }
  constructor; rewrite ?Hid, ?Hcl.
  - apply Hvars; [exact Hplain |]. constructor; [| constructor].
    apply fresh_name_plain.
  - apply Hvars.
    + unfold all_vars in *. eapply Forall_impl; [| exact Hknown].
      intros x. apply known_mono.
    + constructor; [| constructor]. right.
      exists (S (st_fresh_id st)). split; [lia | reflexivity].
  - intros v Hv. rewrite cnf_eval_app in Hv.
    apply andb_true_iff in Hv. destruct Hv as [Hv1 Hv2].
    rewrite Hdef in Hv2. apply eqb_prop in Hv2.
    rewrite Heval by (simpl; exact Hv2). apply Hsound, Hv1.
  - intros v. destruct (Hext v) as (v1 & Hagree & Hv1).
    exists (update v1 p (eval v1 node)).
    assert (Hsame : forall x, known g0 (st_fresh_id st) x ->
                      update v1 p (eval v1 node) x = v1 x).
    { intros x Hx. unfold update.
      destruct (String.eqb x p) eqn:E; [| reflexivity].
      apply String.eqb_eq in E. subst x.
      exfalso. exact (next_name_unknown _ Hx). }
    split.
    + intros x Hx. unfold update.
      destruct (String.eqb x p) eqn:E.
      * apply String.eqb_eq in E. subst x. exfalso. apply Hx.
        exists (S (st_fresh_id st)). split; [lia | reflexivity].
      * apply Hagree. intros (j & Hj & He). apply Hx.
        exists j. split; [lia | exact He].
    + rewrite cnf_eval_app, (Hsupp _ v1 Hsame), Hv1, Hdef. simpl.
      rewrite (Hnode_ext _ v1 Hsame).
      unfold update at 1. rewrite String.eqb_refl.
      apply eqb_reflx.
  - intros v w Hvw. rewrite !cnf_eval_app, !Hdef.
    rewrite (Hsupp v w) by (intros x Hx; apply Hvw, known_mono, Hx).
    rewrite (Hnode_ext v w) by (intros x Hx; apply Hvw, known_mono, Hx).
    rewrite (Hvw p); [reflexivity |].
    right. exists (S (st_fresh_id st)). split; [lia | reflexivity].
Qed.

Lemma inv_run (st st' : tseitin_state) (k : nat) :
  run_from st k st' -> tseitin_inv g0 st -> tseitin_inv g0 st'.
Proof.
  intros Hr Hinv. induction Hr as [| k sa sb Hr IH Hs]; [exact Hinv |].
  eapply inv_iteration; eauto.
Qed.

End Invariant.

Lemma all_vars_In (P : string -> Prop) (f : Formula) :
  all_vars P f <-> forall x, In x (vars f) -> P x.
Proof. unfold all_vars. apply Forall_forall. Qed.

Lemma normal_form_vars (P : string -> Prop) (f : Formula) :
  all_vars P f -> all_vars P (_nnf (_elim_equiv_impl f)).
Proof. intros H. apply nnf_all_vars, elim_all_vars, H. Qed.

Lemma normal_form_eval (v : assignment) (f : Formula) :
  eval v (_nnf (_elim_equiv_impl f)) = eval v f.
Proof. rewrite nnf_eval, elim_eval. reflexivity. Qed.

(** C2, as amended.  For a well-formed formula [f] with no variable named
    [t1], [t2], ..., [tseitin_450] returns clauses that are satisfiable
    exactly when [f] is: an assignment that satisfies the clauses satisfies
    [f], and so does every assignment that agrees with it on the variables
    of [f]; and an assignment that satisfies [f] satisfies the clauses once
    its values on the names [t1], [t2], ... are chosen suitably. *)
Theorem tseitin_450_equisatisfiable (f : Formula) :
  well_formed f -> fresh_free f ->
  exists cls,
    tseitin_450 f = Done cls
    /\ (cnf_satisfiable cls <-> satisfiable f)
    /\ (forall v w, cnf_eval v cls = true ->
          (forall x, In x (vars f) -> w x = v x) -> eval w f = true)
    /\ (forall v, eval v f = true ->
          exists v',
            (forall x, (forall n, 1 <= n -> x <> fresh_name n) -> v' x = v x)
            /\ (forall x, In x (vars f) -> v' x = v x)
            /\ cnf_eval v' cls = true).
Proof.
  intros Hwf Hff.
  set (g0 := _nnf (_elim_equiv_impl f)).
  assert (Hplain : all_vars plain g0)
    by (apply normal_form_vars, well_formed_plain, Hwf).
  assert (Hfree : fresh_free g0).
  { assert (H : all_vars (fun x => forall n, 1 <= n -> x <> fresh_name n) g0).
    { apply normal_form_vars. apply all_vars_In. intros x Hx n Hn ->.
      exact (Hff n Hn Hx). }
    intros n Hn Hin. rewrite all_vars_In in H. exact (H _ Hin n Hn eq_refl). }
  destruct (tseitin_450_returns f) as (k & st & Hrun & Hcnf & _ & Hout).
  pose proof (inv_run g0 Hfree _ _ _ Hrun (inv_initial g0 Hplain))
    as [Hpl Hkn Hsound Hext Hsupp].
  assert (Heval : forall v,
             cnf_eval v (_dedup_simplify
                           (st_clauses st ++ _formula_to_clauses (st_g st)))
             = cnf_eval v (st_clauses st) && eval v (st_g st)).
  { intros v. rewrite dedup_simplify_eval, cnf_eval_app.
    rewrite formula_to_clauses_eval by assumption. reflexivity. }
  assert (Hsnd : forall v w,
             cnf_eval v (_dedup_simplify
                           (st_clauses st ++ _formula_to_clauses (st_g st)))
             = true ->
             (forall x, In x (vars f) -> w x = v x) -> eval w f = true).
  { intros v w Hv Hw. rewrite Heval in Hv.
    apply andb_true_iff in Hv. destruct Hv as [Hc Hg].
    rewrite (eval_ext w v f Hw). rewrite <- (normal_form_eval v f).
    fold g0. rewrite <- (Hsound v Hc). exact Hg. }
  assert (Hcmp : forall v, eval v f = true ->
             exists v',
               (forall x, (forall n, 1 <= n -> x <> fresh_name n) ->
                          v' x = v x)
               /\ (forall x, In x (vars f) -> v' x = v x)
               /\ cnf_eval v' (_dedup_simplify
                    (st_clauses st ++ _formula_to_clauses (st_g st)))
                  = true).
  { intros v Hv. destruct (Hext v) as (v' & Hagree & Hc).
    assert (Hoff : forall x, (forall n, 1 <= n -> x <> fresh_name n) ->
                     v' x = v x).
    { intros x Hx. apply Hagree. intros (j & Hj & He).
      exact (Hx j ltac:(lia) He). }
    assert (Hon : forall x, In x (vars f) -> v' x = v x).
    { intros x Hx. apply Hoff. intros n Hn ->. exact (Hff n Hn Hx). }
    exists v'. split; [exact Hoff |]. split; [exact Hon |].
    rewrite Heval, Hc. simpl. rewrite (Hsound v' Hc). unfold g0.
    rewrite normal_form_eval, (eval_ext v' v f Hon). exact Hv. }
  eexists. split; [exact Hout |]. split; [| split].
  - split.
    + intros [v Hv]. exists v. apply (Hsnd v v Hv). reflexivity.
    + intros [v Hv]. destruct (Hcmp v Hv) as (v' & _ & _ & Hv').
      exists v'. exact Hv'.
  - exact Hsnd.
  - exact Hcmp.
Qed.

Lemma tseitin_450_equisatisfiable_witness :
  let f := Or (And (Var "A") (Var "B")) (And (Var "C") (Var "D")) in
  exists cls,
    tseitin_450 f = Done cls
    /\ (cnf_satisfiable cls <-> satisfiable f)
    /\ (forall v w, cnf_eval v cls = true ->
          (forall x, In x (vars f) -> w x = v x) -> eval w f = true)
    /\ (forall v, eval v f = true ->
          exists v',
            (forall x, (forall n, 1 <= n -> x <> fresh_name n) -> v' x = v x)
            /\ (forall x, In x (vars f) -> v' x = v x)
            /\ cnf_eval v' cls = true).
Proof.
  apply (tseitin_450_equisatisfiable
           (Or (And (Var "A") (Var "B")) (And (Var "C") (Var "D")))).
  - unfold well_formed, all_vars. simpl. repeat constructor.
  - intros n Hn Hin. unfold fresh_name in Hin. simpl in Hin.
    repeat (destruct Hin as [Hin | Hin]; [discriminate Hin |]).
    exact Hin.
Defined.

(** The claim as it was stated fails when the formula has a variable named
    like a fresh one: here the run names [A & B] by [t1], which the formula
    uses, and the output is unsatisfiable while the formula is
    satisfiable. *)
Lemma tseitin_450_name_collision :
  let f := And (And (Or (And (Var "A") (Var "B")) (Var "C"))
                    (Not (Var "t1")))
               (Not (Var "C")) in
  well_formed f
  /\ satisfiable f
  /\ tseitin_450 f
     = Done [["-A"; "-B"; "t1"]; ["C"; "t1"]; ["-t1"]; ["-C"]]
  /\ ~ cnf_satisfiable [["-A"; "-B"; "t1"]; ["C"; "t1"]; ["-t1"]; ["-C"]].
Proof.
  split; [| split; [| split]].
  - unfold well_formed, all_vars. simpl. repeat constructor.
  - exists (fun x => String.eqb x "A" || String.eqb x "B"). reflexivity.
  - vm_compute. reflexivity.
  - intros [v Hv]. unfold cnf_eval, clause_eval in Hv. simpl in Hv.
    destruct (v "A"), (v "B"), (v "C"), (v "t1"); discriminate.
Qed.

(* ===================================================================== *)
(** * Further properties of the normaliser and the classical pipeline *)
(* ===================================================================== *)

Lemma elim_vars_back (f : Formula) (x : string) :
  In x (vars f) -> In x (vars (_elim_equiv_impl f)).
Proof.
  induction f as [y | l IHl | l IHl r IHr | l IHl r IHr
                 | l IHl r IHr | l IHl r IHr]; simpl; intros H; auto;
    rewrite ?in_app_iff in *; intuition.
Qed.

(** X1.  [_elim_equiv_impl] returns a tree over [And], [Or], [Not] and
    variables, with the truth value of its argument under every assignment
    and with the same variables; applied to its own result it changes
    nothing. *)
Theorem elim_equiv_impl_normal (f : Formula) :
  no_impl_equiv (_elim_equiv_impl f) = true
  /\ (forall v, eval v (_elim_equiv_impl f) = eval v f)
  /\ (forall x, In x (vars (_elim_equiv_impl f)) <-> In x (vars f))
  /\ _elim_equiv_impl (_elim_equiv_impl f) = _elim_equiv_impl f.
Proof.
  split; [apply elim_no_impl_equiv |].
  split; [intros v; apply elim_eval |].
  split; [| apply elim_fixed, elim_no_impl_equiv].
  intros x. split; [| apply elim_vars_back].
  pose proof (elim_all_vars (fun y => In y (vars f)) f) as H.
  unfold all_vars in H. rewrite !Forall_forall in H. apply H. auto.
Qed.

Lemma nnf_vars (f : Formula) : vars (_nnf f) = vars f.
Proof.
  funelim (_nnf f); simpl in *; auto;
    repeat match goal with
           | IH : vars (_nnf ?g) = _ |- _ => rewrite IH; clear IH
           end;
    reflexivity.
Qed.

(** X2.  [_nnf] keeps the truth value under every assignment and the list
    of variables, whatever the tree. *)
Theorem nnf_preserves (f : Formula) :
  (forall v, eval v (_nnf f) = eval v f) /\ vars (_nnf f) = vars f.
Proof. split; [intros v; apply nnf_eval | apply nnf_vars]. Qed.

(** X3.  On a tree without [Impl] and [Equiv], [_nnf] returns a tree with
    [Not] on variables only, and applied to its own result it changes
    nothing. *)
Theorem nnf_normal (f : Formula) :
  no_impl_equiv f = true ->
  is_nnf (_nnf f) = true /\ _nnf (_nnf f) = _nnf f.
Proof.
  intros H. split; [apply nnf_is_nnf, H |].
  apply nnf_fixed, nnf_is_nnf, H.
Qed.

Lemma nnf_normal_witness :
  let f := Not (And (Var "A") (Not (Or (Var "B") (Not (Var "C"))))) in
  is_nnf (_nnf f) = true /\ _nnf (_nnf f) = _nnf f.
Proof.
  apply (nnf_normal
           (Not (And (Var "A") (Not (Or (Var "B") (Not (Var "C"))))))).
  reflexivity.
Defined.

(** A negated implication is left under its negation: the precondition of
    [_nnf] is that [_elim_equiv_impl] has run. *)
Lemma nnf_keeps_negated_impl (a b : Formula) :
  _nnf (Not (Impl a b)) = Not (Impl (_nnf a) (_nnf b)).
Proof. simp _nnf. reflexivity. Qed.

Lemma is_clause_not_and (f : Formula) : _is_clause f = true -> is_and f = false.
Proof. destruct f; simpl; auto; discriminate. Qed.

Lemma dist_or_over_and_fixed (f : Formula) :
  _is_cnf f = true -> _dist_or_over_and f = f.
Proof.
  assert (Hc : forall g, _is_clause g = true -> _dist_or_over_and g = g).
  { induction g as [x | l IHl | l IHl r IHr | l IHl r IHr
                   | l IHl r IHr | l IHl r IHr]; simpl; intros H;
      try discriminate; auto.
    - destruct (is_variable l); [reflexivity | discriminate].
    - apply andb_true_iff in H. destruct H as [H1 H2].
      rewrite (IHl H1), (IHr H2).
      apply dist_or; apply is_clause_not_and; assumption. }
  induction f as [x | l IHl | l IHl r IHr | l IHl r IHr
                 | l IHl r IHr | l IHl r IHr]; simpl; intros H;
    try discriminate; auto.
  - destruct (is_variable l); [reflexivity | discriminate].
  - apply andb_true_iff in H. destruct H as [H1 H2].
    rewrite (IHl H1), (IHr H2). reflexivity.
  - apply andb_true_iff in H. destruct H as [H1 H2].
    rewrite (Hc l H1), (Hc r H2).
    apply dist_or; apply is_clause_not_and; assumption.
Qed.

(** X4.  On an NNF tree, [_dist_or_over_and] returns a tree that satisfies
    [_is_cnf], with the same truth value under every assignment and no
    variable that the tree does not have. *)
Theorem dist_or_over_and_cnf (f : Formula) :
  is_nnf f = true ->
  _is_cnf (_dist_or_over_and f) = true
  /\ (forall v, eval v (_dist_or_over_and f) = eval v f)
  /\ (forall x, In x (vars (_dist_or_over_and f)) -> In x (vars f)).
Proof.
  intros H. split; [apply dist_or_over_and_is_cnf, H |].
  split; [intros v; apply dist_or_over_and_eval |].
  pose proof (dist_or_over_and_all_vars (fun y => In y (vars f)) f) as Hv.
  unfold all_vars in Hv. rewrite !Forall_forall in Hv. apply Hv. auto.
Qed.

Lemma dist_or_over_and_cnf_witness :
  let f := Or (And (Var "A") (Var "B")) (And (Var "C") (Not (Var "D"))) in
  _is_cnf (_dist_or_over_and f) = true
  /\ (forall v, eval v (_dist_or_over_and f) = eval v f)
  /\ (forall x, In x (vars (_dist_or_over_and f)) -> In x (vars f)).
Proof.
  apply (dist_or_over_and_cnf
           (Or (And (Var "A") (Var "B")) (And (Var "C") (Not (Var "D"))))).
  reflexivity.
Defined.

(** X5.  On a formula that satisfies [_is_cnf] the three rewrites change
    nothing: [to_cnf_equiv] flattens the formula itself, and [tseitin_450]
    returns the simplified output of [to_cnf_equiv]. *)
Theorem pipelines_on_cnf (f : Formula) :
  _is_cnf f = true ->
  _dist_or_over_and f = f
  /\ to_cnf_equiv f = _formula_to_clauses f
  /\ tseitin_450 f = Done (_dedup_simplify (to_cnf_equiv f)).
Proof.
  intros Hc.
  assert (Hn : is_nnf f = true) by (apply is_cnf_is_nnf, Hc).
  assert (Hg : _nnf (_elim_equiv_impl f) = f).
  { rewrite elim_fixed by (apply is_nnf_no_impl_equiv, Hn).
    apply nnf_fixed, Hn. }
  assert (Ht : to_cnf_equiv f = _formula_to_clauses f).
  { unfold to_cnf_equiv. rewrite Hg, dist_or_over_and_fixed; auto. }
  split; [apply dist_or_over_and_fixed, Hc |]. split; [exact Ht |].
  rewrite Ht, tseitin_450_unfold. unfold initial_state. rewrite Hg. simpl.
  pose proof (size_pos f). destruct (size f) as [| n] eqn:E; [lia |].
  simpl. rewrite Hc. simpl. rewrite Hc. reflexivity.
Qed.

Lemma pipelines_on_cnf_witness :
  let f := And (Or (Var "A") (Not (Var "B"))) (Or (Var "B") (Var "C")) in
  _dist_or_over_and f = f
  /\ to_cnf_equiv f = _formula_to_clauses f
  /\ tseitin_450 f = Done (_dedup_simplify (to_cnf_equiv f)).
Proof.
  apply (pipelines_on_cnf
           (And (Or (Var "A") (Not (Var "B"))) (Or (Var "B") (Var "C")))).
  reflexivity.
Defined.

Lemma or_to_literals_nonempty (f : Formula) : _or_to_literals f <> [].
Proof.
  induction f as [x | l IHl | l IHl r IHr | l IHl r IHr
                 | l IHl r IHr | l IHl r IHr]; simpl; try discriminate.
  - destruct l; discriminate.
  - destruct (_or_to_literals l); [contradiction | discriminate].
Qed.

Lemma formula_to_clauses_nonempty (f : Formula) :
  _formula_to_clauses f <> []
  /\ Forall (fun c => c <> []) (_formula_to_clauses f).
Proof.
  induction f as [x | l IHl | l [IHl1 IHl2] r [IHr1 IHr2] | l IHl r IHr
                 | l IHl r IHr | l IHl r IHr];
    try (split; [discriminate |];
         constructor; [apply or_to_literals_nonempty | constructor]).
  simpl. split.
  - destruct (_formula_to_clauses l); [contradiction | discriminate].
  - apply Forall_app; split; assumption.
Qed.

(** X6.  [to_cnf_equiv] returns at least one clause and no empty clause,
    whatever the formula: a formula that is always true still gets its
    clauses, and one that is never true gets no empty clause. *)
Theorem to_cnf_equiv_nonempty (f : Formula) :
  to_cnf_equiv f <> [] /\ Forall (fun c => c <> []) (to_cnf_equiv f).
Proof. apply formula_to_clauses_nonempty. Qed.

(* ===================================================================== *)
(** * Further properties of the clause simplifier *)
(* ===================================================================== *)

Lemma str_lt_irrefl (a : string) : ~ str_lt a a.
Proof.
  unfold str_lt. induction a as [| c r IH]; simpl; [discriminate |].
  unfold Ascii.compare. rewrite N.compare_refl. exact IH.
Qed.

Lemma str_lt_trans (a b c : string) : str_lt a b -> str_lt b c -> str_lt a c.
Proof.
  unfold str_lt. revert b c.
  induction a as [| x a IH]; intros [| y b] [| z c]; simpl;
    try discriminate; auto.
  destruct (Ascii.compare x y) eqn:Exy; try discriminate;
    destruct (Ascii.compare y z) eqn:Eyz; try discriminate; intros H1 H2.
  - apply Ascii.compare_eq_iff in Exy, Eyz. subst.
    unfold Ascii.compare. rewrite N.compare_refl. eapply IH; eauto.
  - apply Ascii.compare_eq_iff in Exy. subst. rewrite Eyz. reflexivity.
  - apply Ascii.compare_eq_iff in Eyz. subst. rewrite Exy. reflexivity.
  - unfold Ascii.compare in *. rewrite N.compare_lt_iff in *.
    assert (H : (N_of_ascii x < N_of_ascii z)%N) by lia.
    apply N.compare_lt_iff in H. rewrite H. reflexivity.
Qed.

Lemma sorted_NoDup (s : list string) : Sorted str_lt s -> NoDup s.
Proof.
  intros H. apply Sorted_StronglySorted in H;
    [| intros a b c; apply str_lt_trans].
  induction H as [| x r Hr IH Hall]; constructor; [| exact IH].
  intros Hin. rewrite Forall_forall in Hall.
  exact (str_lt_irrefl x (Hall x Hin)).
Qed.

Lemma normalise_length (cls : list (list string)) :
  List.length (normalise cls) <= List.length cls.
Proof.
  induction cls as [| c r IH]; simpl; [lia |].
  destruct (tautological (sorted_set c)); simpl; lia.
Qed.

(** X7.  The simplifier keeps the models: under every assignment its output
    has the truth value of its input, and so the output is satisfiable
    exactly when the input is. *)
Theorem dedup_simplify_equivalent (cls : list (list string)) :
  (forall v, cnf_eval v (_dedup_simplify cls) = cnf_eval v cls)
  /\ (cnf_satisfiable (_dedup_simplify cls) <-> cnf_satisfiable cls).
Proof.
  split; [intros v; apply dedup_simplify_eval |].
  split; intros [v Hv]; exists v.
  - rewrite <- dedup_simplify_eval. exact Hv.
  - rewrite dedup_simplify_eval. exact Hv.
Qed.

(** X8.  The simplifier returns no more clauses than it is given; each
    clause of the output lists its literals in strictly increasing order,
    each once, and has the literals of some clause of the input, which has
    no literal together with its negation. *)
Theorem dedup_simplify_canonical (cls : list (list string)) :
  List.length (_dedup_simplify cls) <= List.length cls
  /\ forall C, In C (_dedup_simplify cls) ->
       Sorted str_lt C /\ NoDup C
       /\ exists c, In c cls /\ (forall l, In l C <-> In l c)
                    /\ forall x, ~ (In x c /\ In ("-" ++ x)%string c).
Proof.
  split.
  - rewrite dedup_simplify_filter.
    eapply Nat.le_trans; [apply filter_length_le | apply normalise_length].
  - intros C HC. rewrite dedup_simplify_filter in HC.
    apply filter_In in HC. destruct HC as [HC _].
    apply normalise_In in HC. destruct HC as [c [Hc [-> Ht]]].
    split; [apply sorted_set_sorted |].
    split; [apply sorted_NoDup, sorted_set_sorted |].
    exists c. split; [exact Hc |]. split; [intros l; apply sorted_set_In |].
    intros x [Hx Hn]. apply not_true_iff_false in Ht. apply Ht.
    apply tautological_iff. exists x. rewrite !sorted_set_In. auto.
Qed.

(** X9.  No clause of the output is a strict subset of another clause of
    the output. *)
Theorem dedup_simplify_subsumption_free (cls : list (list string))
  (C D : list string) :
  In C (_dedup_simplify cls) -> In D (_dedup_simplify cls) ->
  incl D C -> incl C D.
Proof.
  intros HC HD Hi. rewrite dedup_simplify_filter in HC, HD.
  apply filter_In in HC, HD. destruct HC as [_ HC]. destruct HD as [HD _].
  apply negb_true_iff in HC. unfold strictly_subsumed in HC.
  apply issubset_incl.
  destruct (issubset C D) eqn:E; [reflexivity |].
  exfalso. apply not_true_iff_false in HC. apply HC.
  apply existsb_exists. exists D. split; [exact HD |].
  apply andb_true_iff. split; [apply issubset_incl, Hi |].
  unfold set_neq. rewrite E, andb_false_r. reflexivity.
Qed.

Lemma dedup_simplify_subsumption_free_witness :
  incl ["A"; "B"] ["A"; "B"].
Proof.
  apply (dedup_simplify_subsumption_free
           [["B"; "A"]; ["A"; "B"; "C"]; ["B"; "A"; "A"]]
           ["A"; "B"] ["A"; "B"]).
  - vm_compute. auto.
  - vm_compute. auto.
  - apply incl_refl.
Defined.

Lemma normalise_app (c d : list (list string)) :
  normalise (c ++ d) = normalise c ++ normalise d.
Proof.
  induction c as [| x r IH]; simpl; [reflexivity |].
  destruct (tautological (sorted_set x)); simpl; rewrite IH; reflexivity.
Qed.

(** X10.  The simplifier does not remove repeated clauses: given a list
    twice, it returns its output for the list twice. *)
Theorem dedup_simplify_keeps_repeats (cls : list (list string)) :
  _dedup_simplify (cls ++ cls) = _dedup_simplify cls ++ _dedup_simplify cls.
Proof.
  rewrite !dedup_simplify_filter, normalise_app, filter_app.
  assert (H : forall c,
             strictly_subsumed (normalise cls ++ normalise cls) c
             = strictly_subsumed (normalise cls) c).
  { intros c. unfold strictly_subsumed. rewrite existsb_app.
    apply orb_diag. }
  f_equal; apply filter_ext; intros c; rewrite H; reflexivity.
Qed.

Lemma issubset_nil_r (c : list string) : issubset c [] = true -> c = [].
Proof. destruct c; [reflexivity | discriminate]. Qed.

(** X11.  When the input has the empty clause, the output is not empty and
    all its clauses are empty: the empty clause subsumes every other. *)
Theorem dedup_simplify_empty_clause (cls : list (list string)) :
  In [] cls ->
  In [] (_dedup_simplify cls)
  /\ forall C, In C (_dedup_simplify cls) -> C = [].
Proof.
  intros H.
  assert (Hn : In [] (normalise cls)).
  { induction cls as [| c r IH]; simpl in *; [contradiction |].
    destruct H as [-> | H].
    - simpl. left. reflexivity.
    - destruct (tautological (sorted_set c)); [| right]; auto. }
  rewrite dedup_simplify_filter. split.
  - apply filter_In. split; [exact Hn |].
    apply negb_true_iff, not_true_iff_false. intros Hs.
    apply existsb_exists in Hs. destruct Hs as [d [_ Hd]].
    apply andb_true_iff in Hd. destruct Hd as [Hd1 Hd2].
    apply issubset_nil_r in Hd1. subst d. discriminate.
  - intros C HC. apply filter_In in HC. destruct HC as [_ HC].
    apply negb_true_iff in HC.
    destruct C as [| x C']; [reflexivity |].
    exfalso. apply not_true_iff_false in HC. apply HC.
    apply existsb_exists. exists []. split; [exact Hn | reflexivity].
Qed.

Lemma dedup_simplify_empty_clause_witness :
  In [] (_dedup_simplify [["A"]; []; ["B"; "-A"]])
  /\ forall C, In C (_dedup_simplify [["A"]; []; ["B"; "-A"]]) -> C = [].
Proof.
  apply (dedup_simplify_empty_clause [["A"]; []; ["B"; "-A"]]).
  simpl. auto.
Defined.

(* ===================================================================== *)
(** * Further properties of the Tseitin clausifier *)
(* ===================================================================== *)

(** ** Size of the output *)

Lemma formula_to_clauses_length (g : Formula) :
  List.length (_formula_to_clauses g) <= size g.
Proof.
  induction g as [x | l IHl | l IHl r IHr | l IHl r IHr
                 | l IHl r IHr | l IHl r IHr]; simpl; try lia.
  rewrite length_app. lia.
Qed.

Lemma run_from_size (st st' : tseitin_state) (k : nat) :
  run_from st k st' ->
  List.length (st_clauses st') = List.length (st_clauses st) + 3 * k
  /\ size (st_g st') + 2 * k <= size (st_g st).
Proof.
  intros Hr. induction Hr as [| k sa sb Hr [IH1 IH2] Hs]; [split; lia |].
  pose proof (iteration_size _ _ Hs) as Hsz.
  apply iteration_shape in Hs.
  destruct Hs as (node & path & l & r & L & R & _ & _ & _ & _ & _ & _ & _
                  & _ & Hc).
  split; [| lia].
  destruct Hc as [[_ ->] | [_ ->]]; rewrite length_app; simpl; lia.
Qed.

(** X12.  The output of [tseitin_450] is linear in the size of the
    normalised formula [g = _nnf (_elim_equiv_impl f)]: a run that
    introduces [k] names has [2 k + 1 <= size g], and twice the number of
    clauses returned is at most three times [size g]. *)
Theorem tseitin_450_linear (f : Formula) :
  exists st cls,
    tseitin_loop (size (_nnf (_elim_equiv_impl f))) (initial_state f)
    = Done st
    /\ tseitin_450 f = Done cls
    /\ 2 * st_fresh_id st + 1 <= size (_nnf (_elim_equiv_impl f))
    /\ List.length (st_clauses st) = 3 * st_fresh_id st
    /\ 2 * List.length cls <= 3 * size (_nnf (_elim_equiv_impl f)).
Proof.
  destruct (tseitin_450_returns f) as (k & st & Hrun & Hcnf & Hloop & Hout).
  pose proof (run_from_fresh_id _ _ _ Hrun) as Hid.
  pose proof (run_from_size _ _ _ Hrun) as [Hlen Hsz].
  simpl in Hid, Hlen, Hsz.
  pose proof (size_pos (st_g st)) as Hpos.
  pose proof (formula_to_clauses_length (st_g st)) as Hftc.
  exists st. eexists. split; [exact Hloop |]. split; [exact Hout |].
  split; [lia |]. split; [lia |].
  rewrite dedup_simplify_filter.
  pose proof (filter_length_le
                (fun c => negb (strictly_subsumed
                   (normalise (st_clauses st ++ _formula_to_clauses (st_g st)))
                   c))
                (normalise (st_clauses st ++ _formula_to_clauses (st_g st))))
    as H1.
  pose proof (normalise_length
                (st_clauses st ++ _formula_to_clauses (st_g st))) as H2.
  rewrite length_app in H2. lia.
Qed.

(** ** The names in the output *)

Lemma literal_over_mono (P Q : string -> Prop) (l : string) :
  (forall x, P x -> Q x) -> literal_over P l -> literal_over Q l.
Proof. intros H (x & Hx & Hl). exists x. auto. Qed.

Lemma lit_to_str_over (P : string -> Prop) (l : Formula) (L : string) :
  all_vars P l -> all_vars plain l -> lit_to_str l = Done L ->
  literal_over P L /\ literal_over P (negate L).
Proof.
  unfold all_vars.
  destruct l as [x | l | | | |]; simpl; try discriminate.
  - intros HP Hp H. inversion H; subst.
    inversion HP; subst. inversion Hp as [| ? ? Hx _]; subst.
    unfold negate. rewrite Hx. split; exists L; auto.
  - destruct l as [x | | | | |]; simpl; try discriminate.
    intros HP Hp H. inversion H; subst.
    inversion HP; subst. inversion Hp; subst.
    split; exists x; auto.
Qed.

Lemma names_inv_iteration (g0 : Formula) (st st' : tseitin_state) :
  names_inv g0 st -> iteration st st' -> names_inv g0 st'.
Proof.
  intros (Hplain & Hknown & Hcl) Hi.
  apply iteration_shape in Hi.
  destruct Hi as (node & path & l & r & L & R & _ & Hs & Hl & Hr & HL & HR
                  & Hid & Hg & Hc).
  set (p := fresh_name (S (st_fresh_id st))) in *.
  destruct (replace_at_subtree _ _ _ (Var p) Hs)
    as (g' & Hg' & _ & _ & Hvars & Hnode & _).
  rewrite Hg in Hg'. inversion Hg'; subst g'. clear Hg'.
  assert (Hmono : forall x, known g0 (st_fresh_id st) x ->
                    known g0 (st_fresh_id st') x).
  { rewrite Hid. intros x [H | (j & Hj & ->)]; [left; exact H |].
    right. exists j. split; [lia | reflexivity]. }
  assert (Hp : known g0 (st_fresh_id st') p).
  { rewrite Hid. right. exists (S (st_fresh_id st)).
    split; [lia | reflexivity]. }
  assert (Hlp : literal_over (known g0 (st_fresh_id st')) p)
    by (exists p; auto).
  assert (Hln : literal_over (known g0 (st_fresh_id st')) ("-" ++ p)%string)
    by (exists p; auto).
  assert (Hlr : forall c L',
             In c [l; r] -> lit_to_str c = Done L' ->
             (node = And l r \/ node = Or l r) ->
             literal_over (known g0 (st_fresh_id st')) L'
             /\ literal_over (known g0 (st_fresh_id st')) (negate L')).
  { intros c L' Hin HL' Hn.
    pose proof (Hnode _ Hplain) as Hpn. pose proof (Hnode _ Hknown) as Hkn.
    unfold all_vars in Hpn, Hkn.
    assert (Hc' : Forall plain (vars c)
                  /\ Forall (known g0 (st_fresh_id st)) (vars c)).
    { destruct Hn as [-> | ->]; simpl in Hpn, Hkn;
        apply Forall_app in Hpn, Hkn;
        destruct Hin as [<- | [<- | []]]; tauto. }
    destruct Hc' as [Hc1 Hc2].
    destruct (lit_to_str_over _ c L' Hc2 Hc1 HL') as [H1 H2].
    split; eapply literal_over_mono; eauto. }
  split; [| split].
  - apply Hvars; [exact Hplain |]. constructor; [| constructor].
    apply fresh_name_plain.
  - apply Hvars.
    + unfold all_vars in *. eapply Forall_impl; [| exact Hknown]. exact Hmono.
    + constructor; [| constructor]. exact Hp.
  - assert (Hn : node = And l r \/ node = Or l r)
      by (destruct Hc as [[-> _] | [-> _]]; auto).
    destruct (Hlr l L ltac:(simpl; auto) HL Hn) as [HLo HLn].
    destruct (Hlr r R ltac:(simpl; auto) HR Hn) as [HRo HRn].
    assert (Hold : Forall (Forall (literal_over (known g0 (st_fresh_id st'))))
                     (st_clauses st)).
    { eapply Forall_impl; [| exact Hcl]. intros c Hcc.
      eapply Forall_impl; [| exact Hcc]. intros x.
      apply literal_over_mono, Hmono. }
    destruct Hc as [[_ ->] | [_ ->]]; apply Forall_app; (split; [exact Hold |]);
      unfold and_clauses, or_clauses; repeat constructor; assumption.
Qed.

Lemma names_inv_run (g0 : Formula) (st st' : tseitin_state) (k : nat) :
  run_from st k st' -> names_inv g0 st -> names_inv g0 st'.
Proof.
  intros Hr Hinv. induction Hr as [| k sa sb Hr IH Hs]; [exact Hinv |].
  eapply names_inv_iteration; eauto.
Qed.

(** X13.  For a well-formed formula [f], every literal in the output of
    [tseitin_450] is a variable of [f], one of the names [t1], ..., [tk]
    that the run introduced, or ['-'] and such a name. *)
Theorem tseitin_450_names (f : Formula) :
  well_formed f ->
  exists st cls,
    tseitin_loop (size (_nnf (_elim_equiv_impl f))) (initial_state f)
    = Done st
    /\ tseitin_450 f = Done cls
    /\ Forall (Forall (literal_over
                 (fun x => In x (vars f) \/ fresh_upto (st_fresh_id st) x)))
         cls.
Proof.
  intros Hwf.
  destruct (tseitin_450_returns f) as (k & st & Hrun & Hcnf & Hloop & Hout).
  set (g0 := _nnf (_elim_equiv_impl f)) in *.
  assert (Hinit : names_inv g0 (initial_state f)).
  { split; [| split]; simpl.
    - apply normal_form_vars, well_formed_plain, Hwf.
    - apply all_vars_In. intros x Hx. left. exact Hx.
    - constructor. }
  destruct (names_inv_run g0 _ _ _ Hrun Hinit) as (Hplain & Hknown & Hcl).
  exists st. eexists. split; [exact Hloop |]. split; [exact Hout |].
  assert (Hk : forall x, known g0 (st_fresh_id st) x ->
                 In x (vars f) \/ fresh_upto (st_fresh_id st) x).
  { intros x [H | H]; [left | right; exact H].
    unfold g0 in H. rewrite nnf_vars in H.
    pose proof (elim_all_vars (fun y => In y (vars f)) f) as Hv.
    unfold all_vars in Hv. rewrite !Forall_forall in Hv. apply Hv; auto. }
  apply dedup_simplify_over. apply Forall_app. split.
  - eapply Forall_impl; [| exact Hcl]. intros c Hc.
    eapply Forall_impl; [| exact Hc]. intros x.
    apply literal_over_mono, Hk.
  - eapply Forall_impl;
      [| apply (formula_to_clauses_over _ _ Hcnf Hknown)].
    intros c Hc. eapply Forall_impl; [| exact Hc]. intros x.
    apply literal_over_mono, Hk.
Qed.

Lemma tseitin_450_names_witness :
  let f := Impl (Var "A") (And (Var "B") (Not (Var "C_1"))) in
  exists st cls,
    tseitin_loop (size (_nnf (_elim_equiv_impl f))) (initial_state f)
    = Done st
    /\ tseitin_450 f = Done cls
    /\ Forall (Forall (literal_over
                 (fun x => In x (vars f) \/ fresh_upto (st_fresh_id st) x)))
         cls.
Proof.
  apply (tseitin_450_names (Impl (Var "A") (And (Var "B") (Not (Var "C_1"))))).
  unfold well_formed, all_vars. simpl. repeat constructor.
Defined.

(** ** The search, the paths and the helpers *)

Lemma replace_at_same (h : Formula) (rel : list string) (node : Formula) :
  subtree_at h rel = Some node -> replace_at h rel node = Some h.
Proof.
  revert h. induction rel as [| d rest IH]; intros h; simpl.
  - intros H. inversion H. reflexivity.
  - destruct (String.eqb d "left");
      destruct h as [x | l | l r | l r | l r | l r]; simpl;
      try discriminate; intros H; rewrite (IH _ H); reflexivity.
Qed.

Lemma find_literal_binary_path (h : Formula) (acc : list string)
  (node : Formula) (path : list string) :
  find_literal_binary h acc = Some (node, path) ->
  exists rel, path = acc ++ rel
              /\ Forall (fun d => d = "left" \/ d = "right") rel.
Proof.
  revert acc.
  assert (Hext : forall (acc : list string) (d : string),
            (d = "left" \/ d = "right") ->
            (exists rel, path = (acc ++ [d]) ++ rel
                         /\ Forall (fun d => d = "left" \/ d = "right") rel) ->
            exists rel, path = acc ++ rel
                        /\ Forall (fun d => d = "left" \/ d = "right") rel).
  { intros acc d Hd (rel & -> & Hf). exists (d :: rel).
    split; [rewrite <- app_assoc; reflexivity | constructor; assumption]. }
  induction h as [x | l IHl | l IHl r IHr | l IHl r IHr
                 | l IHl r IHr | l IHl r IHr]; intros acc; simpl.
  - discriminate.
  - intros H. apply (Hext acc "left"); auto.
  - destruct (is_literal l && is_literal r).
    + intros H. inversion H; subst. exists []. rewrite app_nil_r. auto.
    + destruct (find_literal_binary l (acc ++ ["left"])) eqn:El.
      * intros H. inversion H; subst. apply (Hext acc "left"); auto.
      * intros H. apply (Hext acc "right"); auto.
  - destruct (is_literal l && is_literal r).
    + intros H. inversion H; subst. exists []. rewrite app_nil_r. auto.
    + destruct (find_literal_binary l (acc ++ ["left"])) eqn:El.
      * intros H. inversion H; subst. apply (Hext acc "left"); auto.
      * intros H. apply (Hext acc "right"); auto.
  - destruct (find_literal_binary l (acc ++ ["left"])) eqn:El.
    + intros H. inversion H; subst. apply (Hext acc "left"); auto.
    + intros H. apply (Hext acc "right"); auto.
  - destruct (find_literal_binary l (acc ++ ["left"])) eqn:El.
    + intros H. inversion H; subst. apply (Hext acc "left"); auto.
    + intros H. apply (Hext acc "right"); auto.
Qed.

(** X14.  The path that [find_literal_binary] returns with a node is made
    of ['left'] and ['right'] steps and leads [replace_at] to that node:
    putting the node back gives the tree again, and putting another tree
    there changes the size by the difference of the two. *)
Theorem find_then_replace (g : Formula) (node : Formula)
  (path : list string) (atom : Formula) :
  find_literal_binary g [] = Some (node, path) ->
  Forall (fun d => d = "left" \/ d = "right") path
  /\ replace_at g path node = Some g
  /\ exists g', replace_at g path atom = Some g'
                /\ size g' + size node = size g + size atom.
Proof.
  intros H.
  destruct (find_literal_binary_path _ _ _ _ H) as (rel & Hp & Hf).
  simpl in Hp. subst rel.
  destruct (find_literal_binary_spec _ _ _ _ H) as (rel & Hp & Hs & _).
  simpl in Hp. subst rel.
  split; [exact Hf |]. split; [apply replace_at_same, Hs |].
  destruct (replace_at_subtree _ _ _ atom Hs) as (g' & Hg & Hsz & _).
  exists g'. auto.
Qed.

Lemma find_then_replace_witness :
  let g := Or (Var "A") (And (Var "B") (Not (Var "C"))) in
  let node := And (Var "B") (Not (Var "C")) in
  Forall (fun d => d = "left" \/ d = "right") ["right"]
  /\ replace_at g ["right"] node = Some g
  /\ exists g', replace_at g ["right"] (Var "t1") = Some g'
                /\ size g' + size node = size g + size (Var "t1").
Proof.
  apply (find_then_replace
           (Or (Var "A") (And (Var "B") (Not (Var "C"))))
           (And (Var "B") (Not (Var "C"))) ["right"] (Var "t1")).
  reflexivity.
Defined.

(** X15.  [lit_to_str] returns exactly on literals, with the string that
    [_or_to_literals] gives for the literal, and raises "Expected literal"
    on every other tree. *)
Theorem lit_to_str_literals (x : Formula) :
  (is_literal x = true
   /\ exists L, lit_to_str x = Done L /\ _or_to_literals x = [L])
  \/ (is_literal x = false
      /\ lit_to_str x = Raised (ValueError "Expected literal")).
Proof.
  destruct x as [n | l | l r | l r | l r | l r]; simpl; eauto.
  destruct l; simpl; eauto.
Qed.

(** X16.  [negate] undoes itself on every string that does not start with
    two negation signs; on a string that does, negating twice removes both
    signs. *)
Theorem negate_twice (s : string) :
  negate (negate s)
  = if starts_with_dash s && starts_with_dash (tail s) then tail (tail s)
    else s.
Proof.
  unfold negate. destruct (starts_with_dash s) eqn:E; simpl.
  - destruct (starts_with_dash (tail s)); [reflexivity |].
    symmetry. apply starts_with_dash_tail, E.
  - reflexivity.
Qed.

(* ===================================================================== *)
(** * Further properties of the tokenizer *)
(* ===================================================================== *)

(** ** One step of each loop *)

Lemma scan_ident_step (s : string) (j : nat) :
  scan_ident s j
  = match String.get j s with
    | Some c => if ident_char c then scan_ident s (S j) else j
    | None => j
    end.
Proof.
  funelim (scan_ident s j);
    match goal with
    | H : String.get _ _ = _ |- _ => rewrite H
    end;
    try match goal with
        | H : ident_char _ = _ |- _ => rewrite H
        end;
    reflexivity.
Qed.

Lemma tokenize_loop_step (s : string) (i : nat) (out : list string) :
  tokenize_loop s i out
  = match String.get i s with
    | None => out
    | Some c =>
        if String.eqb (substring i 3 s) "<->" then
          tokenize_loop s (i + 3) (out ++ ["<->"])
        else if String.eqb (substring i 2 s) "->" then
          tokenize_loop s (i + 2) (out ++ ["->"])
        else if symbol_char c then
          tokenize_loop s (i + 1) (out ++ [String c EmptyString])
        else if ident_char c then
          tokenize_loop s (scan_ident s i)
            (out ++ [substring i (scan_ident s i - i) s])
        else tokenize_loop s (i + 1) out
    end.
Proof.
  funelim (tokenize_loop s i out);
    match goal with
    | H : String.get _ _ = _ |- _ => rewrite H
    end; try reflexivity.
  destruct (sumbool_of_bool (ident_char c)) as [E | E]; rewrite E;
    reflexivity.
Qed.

Lemma get_None_ge (s : string) (i : nat) :
  String.length s <= i -> String.get i s = None.
Proof.
  revert i. induction s as [| a r IH]; intros i H; simpl in *.
  - destruct i; reflexivity.
  - destruct i as [| i]; [lia |]. apply IH. lia.
Qed.

(** ** The tokens found so far are kept, and the scan depends on the rest
    of the text only *)

Lemma tokenize_loop_acc (s : string) (i : nat) (out : list string) :
  tokenize_loop s i out = out ++ tokenize_loop s i [].
Proof.
  remember (String.length s - i) as m eqn:Hm.
  assert (Hle : String.length s - i <= m) by lia. clear Hm.
  revert i out Hle. induction m as [| m IH]; intros i out Hle.
  - rewrite (tokenize_loop_step s i out), (tokenize_loop_step s i []).
    rewrite get_None_ge by lia. rewrite app_nil_r. reflexivity.
  - rewrite (tokenize_loop_step s i out), (tokenize_loop_step s i []).
    destruct (String.get i s) as [c |] eqn:Hc;
      [| rewrite app_nil_r; reflexivity].
    pose proof (get_Some_lt _ _ _ Hc) as Hlt.
    assert (Hrec : forall i' t, i < i' ->
              tokenize_loop s i' (out ++ [t])
              = out ++ tokenize_loop s i' ([] ++ [t])).
    { intros i' t Hi'. rewrite (IH i' (out ++ [t])) by lia.
      rewrite (IH i' ([] ++ [t])) by lia. simpl.
      rewrite <- app_assoc. reflexivity. }
    destruct (substring i 3 s =? "<->"); [apply Hrec; lia |].
    destruct (substring i 2 s =? "->"); [apply Hrec; lia |].
    destruct (symbol_char c); [apply Hrec; lia |].
    destruct (ident_char c) eqn:Hid.
    + apply Hrec. eapply scan_ident_gt; eauto.
    + apply IH. lia.
Qed.

Lemma scan_ident_shift (a : ascii) (s : string) (j : nat) :
  scan_ident (String a s) (S j) = S (scan_ident s j).
Proof.
  remember (String.length s - j) as m eqn:Hm.
  assert (Hle : String.length s - j <= m) by lia. clear Hm.
  revert j Hle. induction m as [| m IH]; intros j Hle;
    rewrite (scan_ident_step (String a s) (S j)), (scan_ident_step s j);
    simpl.
  - rewrite get_None_ge by lia. reflexivity.
  - destruct (String.get j s) as [c |] eqn:Hc; [| reflexivity].
    pose proof (get_Some_lt _ _ _ Hc).
    destruct (ident_char c); [apply IH; lia | reflexivity].
Qed.

Lemma tokenize_loop_shift (a : ascii) (s : string) (i : nat)
  (out : list string) :
  tokenize_loop (String a s) (S i) out = tokenize_loop s i out.
Proof.
  remember (String.length s - i) as m eqn:Hm.
  assert (Hle : String.length s - i <= m) by lia. clear Hm.
  revert i out Hle. induction m as [| m IH]; intros i out Hle;
    rewrite (tokenize_loop_step (String a s) (S i)),
            (tokenize_loop_step s i); simpl.
  - rewrite get_None_ge by lia. reflexivity.
  - destruct (String.get i s) as [c |] eqn:Hc; [| reflexivity].
    pose proof (get_Some_lt _ _ _ Hc).
    destruct (substring i 3 s =? "<->"); [apply IH; lia |].
    destruct (substring i 2 s =? "->"); [apply IH; lia |].
    destruct (symbol_char c); [apply IH; lia |].
    destruct (ident_char c) eqn:Hid; [| apply IH; lia].
    rewrite scan_ident_shift. simpl.
    pose proof (scan_ident_gt _ _ _ Hc Hid).
    apply IH. lia.
Qed.

Lemma tokenize_loop_skip (pre s : string) (out : list string) :
  tokenize_loop (pre ++ s) (String.length pre) out = tokenize_loop s 0 out.
Proof.
  induction pre as [| a r IH]; simpl; [reflexivity |].
  rewrite tokenize_loop_shift. exact IH.
Qed.

Lemma lex_empty : lex "" = [].
Proof. reflexivity. Qed.

Lemma lex_token (t r : string) (c : ascii) :
  String.get 0 (t ++ r) = Some c ->
  tokenize_loop (t ++ r) 0 [] = tokenize_loop (t ++ r) (String.length t) [t] ->
  lex (t ++ r) = t :: lex r.
Proof.
  intros _ H. unfold lex. rewrite H, tokenize_loop_acc, tokenize_loop_skip.
  reflexivity.
Qed.

Lemma substring_0_0 (r : string) : substring 0 0 r = "".
Proof. destruct r; reflexivity. Qed.

Lemma lex_equiv (r : string) : lex ("<->" ++ r) = "<->" :: lex r.
Proof.
  apply (lex_token "<->" r "<"); [reflexivity |].
  rewrite (tokenize_loop_step ("<->" ++ r) 0). simpl.
  rewrite substring_0_0. reflexivity.
Qed.

Lemma lex_impl (r : string) : lex ("->" ++ r) = "->" :: lex r.
Proof.
  apply (lex_token "->" r "-"); [reflexivity |].
  rewrite (tokenize_loop_step ("->" ++ r) 0). simpl.
  rewrite substring_0_0. simpl.
  destruct r as [| a r]; reflexivity.
Qed.

Lemma lex_impl_cons (r : string) :
  lex (String "-" (String ">" r)) = "->" :: lex r.
Proof. exact (lex_impl r). Qed.

Lemma lex_equiv_cons (r : string) :
  lex (String "<" (String "-" (String ">" r))) = "<->" :: lex r.
Proof. exact (lex_equiv r). Qed.

Lemma lex_symbol (c : ascii) (r : string) :
  symbol_char c = true -> (c = "-"%char -> not_next ">" r) ->
  lex (String c r) = String c "" :: lex r.
Proof.
  intros Hs Hd.
  apply (lex_token (String c "") r c); [reflexivity |].
  rewrite (tokenize_loop_step (String c "" ++ r) 0). simpl.
  assert (H3 : (substring 0 3 (String c r) =? "<->") = false).
  { apply String.eqb_neq. simpl. intros H. inversion H; subst c.
    discriminate Hs. }
  assert (H2 : (substring 0 2 (String c r) =? "->") = false).
  { apply String.eqb_neq. simpl. intros H.
    destruct r as [| a r']; simpl in H; [discriminate |].
    inversion H; subst. apply (Hd eq_refl). reflexivity. }
  simpl in H3, H2. rewrite H3, H2, Hs. reflexivity.
Qed.

Lemma scan_ident_zero (c : ascii) (s : string) :
  scan_ident (String c s) 0
  = if ident_char c then S (scan_ident s 0) else 0.
Proof.
  rewrite scan_ident_step. simpl.
  destruct (ident_char c); [apply scan_ident_shift | reflexivity].
Qed.

Lemma scan_ident_run_length (x r : string) :
  all_chars ident_char x = true -> stops r ->
  scan_ident (x ++ r) 0 = String.length x.
Proof.
  intros Hx Hr. induction x as [| c x IH]; simpl in *.
  - rewrite scan_ident_step. destruct r as [| a r]; simpl in *; [reflexivity |].
    rewrite Hr. reflexivity.
  - apply andb_true_iff in Hx. destruct Hx as [Hc Hx].
    rewrite scan_ident_zero, Hc, (IH Hx). reflexivity.
Qed.

Lemma substring_prefix (x r : string) :
  substring 0 (String.length x) (x ++ r) = x.
Proof.
  induction x as [| c x IH]; simpl; [apply substring_0_0 |].
  rewrite IH. reflexivity.
Qed.

Lemma lex_name (x r : string) :
  name_token x = true -> stops r -> lex (x ++ r) = x :: lex r.
Proof.
  intros Hx Hr. destruct x as [| c x]; [discriminate |].
  simpl in Hx. apply andb_true_iff in Hx. destruct Hx as [Hs Hall].
  apply negb_true_iff in Hs.
  assert (Hc : ident_char c = true)
    by (apply andb_true_iff in Hall; tauto).
  apply (lex_token (String c x) r c); [reflexivity |].
  rewrite (tokenize_loop_step (String c x ++ r) 0).
  change (String.get 0 (String c x ++ r)) with (Some c).
  assert (H3 : (substring 0 3 (String c x ++ r) =? "<->") = false).
  { simpl. destruct (Ascii.eqb c "<") eqn:E; [| reflexivity].
    apply Ascii.eqb_eq in E. subst c. discriminate Hc. }
  assert (H2 : (substring 0 2 (String c x ++ r) =? "->") = false).
  { simpl. destruct (Ascii.eqb c "-") eqn:E; [| reflexivity].
    apply Ascii.eqb_eq in E. subst c. discriminate Hc. }
  rewrite H3, H2, Hs, Hc.
  rewrite (scan_ident_run_length (String c x) r Hall Hr).
  rewrite Nat.sub_0_r, substring_prefix. reflexivity.
Qed.

(** ** The tokens of a text *)

Lemma substring_first (s : string) (i n : nat) (c : ascii) :
  String.get i s = Some c -> 0 < n ->
  exists rest, substring i n s = String c rest.
Proof.
  intros Hg Hn.
  assert (H0 : String.get 0 (substring i n s) = Some c).
  { rewrite substring_correct1 by lia. exact Hg. }
  destruct (substring i n s) as [| a rest]; [discriminate |].
  simpl in H0. inversion H0. eauto.
Qed.

Lemma ident_run_name (s : string) (i : nat) (c : ascii) :
  String.get i s = Some c -> ident_char c = true -> symbol_char c = false ->
  name_token (substring i (scan_ident s i - i) s) = true.
Proof.
  intros Hg Hc Hs.
  pose proof (ident_run_identifier s i c Hg Hc) as Hid.
  pose proof (scan_ident_gt s i c Hg Hc) as Hgt.
  destruct (substring_first s i (scan_ident s i - i) c Hg ltac:(lia))
    as [rest Hr].
  rewrite Hr in *. unfold identifier in Hid.
  apply andb_true_iff in Hid. destruct Hid as [_ Hall].
  simpl. rewrite Hs. exact Hall.
Qed.

Lemma tokenize_loop_proper (s : string) (i : nat) (out : list string) :
  Forall proper_token out -> Forall proper_token (tokenize_loop s i out).
Proof.
  funelim (tokenize_loop s i out); intros Hout; auto.
  destruct (substring i 3 s =? "<->").
  { apply H. apply Forall_app; split; auto.
    constructor; [| constructor]. left. unfold symbol_token. simpl. auto. }
  destruct (substring i 2 s =? "->").
  { apply H0. apply Forall_app; split; auto.
    constructor; [| constructor]. left. unfold symbol_token. simpl. auto. }
  destruct (symbol_char c) eqn:Hs.
  { apply H1. apply Forall_app; split; auto.
    constructor; [| constructor]. left. apply symbol_char_token, Hs. }
  destruct (sumbool_of_bool (ident_char c)) as [Hid | Hid].
  - apply H2; [exact Hid |]. apply Forall_app; split; auto.
    constructor; [| constructor]. right. eapply ident_run_name; eauto.
  - apply H3; [exact Hid | exact Hout].
Qed.

(** X17.  Every token of [_tokenize] is one of the symbols [<->], [->],
    [-], [&], [v], [(], [)], or a non-empty run of alphanumeric and
    underscore characters that does not begin with the letter [v]: at the
    start of a token, [v] is always the disjunction symbol. *)
Theorem tokenize_proper_tokens (s : string) :
  Forall (fun t =>
            In t ["<->"; "->"; "-"; "&"; "v"; "("; ")"]
            \/ (identifier t = true
                /\ exists c r, t = String c r /\ c <> "v"%char))
    (_tokenize s).
Proof.
  eapply Forall_impl; [| apply (tokenize_loop_proper _ 0 []); constructor].
  intros t [Hs | Hn]; [left; exact Hs | right].
  destruct t as [| c r]; [discriminate |].
  simpl in Hn. apply andb_true_iff in Hn. destruct Hn as [Hs Hall].
  split.
  - unfold identifier. simpl. exact Hall.
  - exists c, r. split; [reflexivity |]. intros ->. discriminate Hs.
Qed.

(** ** Spaces *)

Lemma remove_spaces_app (a b : string) :
  remove_spaces (a ++ b) = (remove_spaces a ++ remove_spaces b)%string.
Proof.
  induction a as [| c a IH]; simpl; [reflexivity |].
  destruct (Ascii.eqb c " "); simpl; rewrite IH; reflexivity.
Qed.

Lemma remove_spaces_ident (x : string) :
  all_chars ident_char x = true -> remove_spaces x = x.
Proof.
  induction x as [| c x IH]; simpl; intros H; [reflexivity |].
  apply andb_true_iff in H. destruct H as [Hc Hx].
  destruct (Ascii.eqb c " ") eqn:E.
  - apply Ascii.eqb_eq in E. subst c. discriminate Hc.
  - rewrite (IH Hx). reflexivity.
Qed.

Lemma all_chars_app (P : ascii -> bool) (a b : string) :
  all_chars P (a ++ b) = all_chars P a && all_chars P b.
Proof.
  induction a as [| c a IH]; simpl; [reflexivity |].
  rewrite IH, andb_assoc. reflexivity.
Qed.

Lemma append_nil_r (s : string) : (s ++ "")%string = s.
Proof. induction s as [| c s IH]; simpl; [| rewrite IH]; reflexivity. Qed.

Lemma append_assoc (a b c : string) :
  ((a ++ b) ++ c)%string = (a ++ (b ++ c))%string.
Proof. induction a as [| x a IH]; simpl; [| rewrite IH]; reflexivity. Qed.

Lemma parse_single (x : string) :
  name_token x = true -> _parse_equiv (parse_fuel [x]) [x] 0 = Done (Var x, 1).
Proof.
  intros H. destruct x as [| c r]; [discriminate |].
  simpl in H. apply andb_true_iff in H. destruct H as [Hs Hall].
  apply andb_true_iff in Hall. destruct Hall as [Hc _].
  assert (Hd : Ascii.eqb c "-" = false).
  { destruct (Ascii.eqb c "-") eqn:E; [| reflexivity].
    apply Ascii.eqb_eq in E. subst c. discriminate Hc. }
  assert (Hp : Ascii.eqb c "(" = false).
  { destruct (Ascii.eqb c "(") eqn:E; [| reflexivity].
    apply Ascii.eqb_eq in E. subst c. discriminate Hc. }
  unfold parse_fuel. simpl. unfold tok_is. simpl. rewrite Hd, Hp. simpl.
  reflexivity.
Qed.

(** X18.  A space never separates tokens: a text and the text with a space
    put in anywhere have the same tokens, and two runs of identifier
    characters with a space between them are one token. *)
Theorem tokenize_ignores_spaces (a b x y : string) :
  name_token x = true -> all_chars ident_char y = true ->
  _tokenize (a ++ " " ++ b) = _tokenize (a ++ b)
  /\ _tokenize (x ++ " " ++ y) = [(x ++ y)%string].
Proof.
  intros Hx Hy.
  assert (Hsp : forall p q, _tokenize (p ++ " " ++ q) = _tokenize (p ++ q)).
  { intros p q. unfold _tokenize. rewrite !remove_spaces_app. reflexivity. }
  split; [apply Hsp |].
  rewrite Hsp. unfold _tokenize.
  assert (Hxy : name_token (x ++ y) = true).
  { destruct x as [| c x]; [discriminate |]. simpl in *.
    apply andb_true_iff in Hx. destruct Hx as [Hs Hall].
    apply andb_true_iff in Hall. destruct Hall as [Hc Hall].
    rewrite Hs, Hc, all_chars_app, Hall, Hy. reflexivity. }
  assert (Hall : all_chars ident_char (x ++ y) = true).
  { destruct (x ++ y)%string as [| c r]; [discriminate |].
    simpl in Hxy. apply andb_true_iff in Hxy. tauto. }
  rewrite (remove_spaces_ident _ Hall).
  pose proof (lex_name (x ++ y) "" Hxy I) as H.
  rewrite append_nil_r in H. exact H.
Qed.

Lemma tokenize_ignores_spaces_witness :
  _tokenize ("(p" ++ " " ++ "& q)") = _tokenize ("(p" ++ "& q)")
  /\ _tokenize ("A" ++ " " ++ "vB") = [("A" ++ "vB")%string].
Proof.
  apply (tokenize_ignores_spaces "(p" "& q)" "A" "vB"); reflexivity.
Defined.

(** X19.  A disjunction of two bare names is read as one name: for names
    [a] and [b] the text [a v b] has the single token [avb], and [parse]
    returns the variable of that name. *)
Theorem parse_or_of_names (a b : string) :
  name_token a = true -> all_chars ident_char b = true ->
  _tokenize (a ++ " v " ++ b) = [(a ++ "v" ++ b)%string]
  /\ parse (a ++ " v " ++ b) = Done (Var (a ++ "v" ++ b)).
Proof.
  intros Ha Hb.
  assert (Ha' : all_chars ident_char a = true).
  { destruct a as [| c a]; [discriminate |].
    simpl in Ha. apply andb_true_iff in Ha. tauto. }
  assert (Hn : name_token (a ++ "v" ++ b) = true).
  { destruct a as [| c a]; [discriminate |]. simpl in *.
    apply andb_true_iff in Ha. destruct Ha as [Hs Hall].
    apply andb_true_iff in Hall. destruct Hall as [Hc Hall].
    rewrite Hs, Hc, all_chars_app, Hall. simpl. rewrite Hb. reflexivity. }
  assert (Ht : _tokenize (a ++ " v " ++ b) = [(a ++ "v" ++ b)%string]).
  { unfold _tokenize. rewrite remove_spaces_app. simpl.
    rewrite (remove_spaces_ident a Ha'), (remove_spaces_ident b Hb).
    pose proof (lex_name (a ++ "v" ++ b) "" Hn I) as H.
    rewrite append_nil_r in H. exact H. }
  split; [exact Ht |].
  unfold parse. rewrite Ht, (parse_single _ Hn). reflexivity.
Qed.

Lemma parse_or_of_names_witness :
  _tokenize ("p1" ++ " v " ++ "q") = [("p1" ++ "v" ++ "q")%string]
  /\ parse ("p1" ++ " v " ++ "q") = Done (Var ("p1" ++ "v" ++ "q")).
Proof.
  apply (parse_or_of_names "p1" "q"); reflexivity.
Defined.

(** ** Texts without tokens *)

Lemma lex_other (s : string) : all_chars other_char s = true -> lex s = [].
Proof.
  induction s as [| c r IH]; intros H; [reflexivity |].
  simpl in H. apply andb_true_iff in H. destruct H as [Hc Hr].
  unfold other_char in Hc. apply andb_true_iff in Hc.
  destruct Hc as [Hs Hi]. apply negb_true_iff in Hs, Hi.
  unfold lex. rewrite tokenize_loop_step.
  change (String.get 0 (String c r)) with (Some c).
  assert (H3 : (substring 0 3 (String c r) =? "<->") = false).
  { apply String.eqb_neq. simpl. intros E. inversion E as [[Ec E2]].
    destruct r as [| a r']; simpl in E2; [discriminate |].
    inversion E2; subst a. simpl in Hr. discriminate Hr. }
  assert (H2 : (substring 0 2 (String c r) =? "->") = false).
  { apply String.eqb_neq. simpl. intros E. inversion E; subst c.
    discriminate Hs. }
  rewrite H3, H2, Hs, Hi. change (0 + 1) with 1.
  rewrite tokenize_loop_shift. apply IH, Hr.
Qed.

Lemma remove_spaces_all (P : ascii -> bool) (s : string) :
  all_chars P s = true -> all_chars P (remove_spaces s) = true.
Proof.
  induction s as [| c r IH]; simpl; intros H; [reflexivity |].
  apply andb_true_iff in H. destruct H as [Hc Hr].
  destruct (Ascii.eqb c " "); simpl; rewrite ?Hc, IH; auto.
Qed.

(** X20.  A text with no symbol and no identifier character, such as the
    empty text or a run of spaces, has no token, and [parse] raises
    "Unexpected end" on it. *)
Theorem parse_without_tokens (s : string) :
  all_chars (fun c => negb (symbol_char c) && negb (ident_char c)) s = true ->
  _tokenize s = [] /\ parse s = Raised err_unexpected_end.
Proof.
  intros H.
  assert (Ht : _tokenize s = [])
    by (apply lex_other, remove_spaces_all, H).
  split; [exact Ht |]. unfold parse. rewrite Ht. reflexivity.
Qed.

Lemma parse_without_tokens_witness :
  _tokenize "  > $ " = [] /\ parse "  > $ " = Raised err_unexpected_end.
Proof.
  apply (parse_without_tokens "  > $ "). reflexivity.
Defined.

(* ===================================================================== *)
(** * Further properties of the parser *)
(* ===================================================================== *)

(** ** Every node takes a token *)

Ltac sized_call H :=
  match type of H with
  | _ ?m =>
      let f := fresh "f" in
      let p := fresh "pos" in
      destruct m as [[f p] | ? |]; simpl in H |- *; auto
  | _ _ ?m =>
      let f := fresh "f" in
      let p := fresh "pos" in
      destruct m as [[f p] | ? |]; simpl in H |- *; auto
  | _ _ _ ?m =>
      let f := fresh "f" in
      let p := fresh "pos" in
      destruct m as [[f p] | ? |]; simpl in H |- *; auto
  end.

Lemma parser_consumes (n : nat) :
  (forall ts pos, consumed_ok pos (_parse_equiv n ts pos))
  /\ (forall ts pos, consumed_ok pos (_parse_impl n ts pos))
  /\ (forall ts pos, consumed_ok pos (_parse_or n ts pos))
  /\ (forall ts l pos, consumed_loop_ok l pos (or_loop n ts l pos))
  /\ (forall ts pos, consumed_ok pos (_parse_and n ts pos))
  /\ (forall ts l pos, consumed_loop_ok l pos (and_loop n ts l pos))
  /\ (forall ts pos, consumed_ok pos (_parse_not n ts pos))
  /\ (forall ts pos, consumed_ok pos (_parse_primary n ts pos)).
Proof.
  induction n as [| n IH]; [simpl; repeat split; auto |].
  destruct IH as (IHeq & IHimpl & IHor & IHorl & IHand & IHandl & IHnot & IHpr).
  repeat split; intros; simpl.
  - pose proof (IHimpl ts pos) as H1. sized_call H1.
    destruct (tok_is ts pos0 "<->"); simpl; auto.
    pose proof (IHeq ts (pos0 + 1)) as H2. sized_call H2. lia.
  - pose proof (IHor ts pos) as H1. sized_call H1.
    destruct (tok_is ts pos0 "->"); simpl; auto.
    pose proof (IHimpl ts (pos0 + 1)) as H2. sized_call H2. lia.
  - pose proof (IHand ts pos) as H1. sized_call H1.
    pose proof (IHorl ts f pos0) as H2. sized_call H2. lia.
  - destruct (tok_is ts pos "v"); simpl; [| lia].
    pose proof (IHand ts (pos + 1)) as H1. sized_call H1.
    pose proof (IHorl ts (Or l f) pos0) as H2. sized_call H2. lia.
  - pose proof (IHnot ts pos) as H1. sized_call H1.
    pose proof (IHandl ts f pos0) as H2. sized_call H2. lia.
  - destruct (tok_is ts pos "&"); simpl; [| lia].
    pose proof (IHnot ts (pos + 1)) as H1. sized_call H1.
    pose proof (IHandl ts (And l f) pos0) as H2. sized_call H2. lia.
  - destruct (tok_is ts pos "-"); simpl.
    + pose proof (IHnot ts (pos + 1)) as H1. sized_call H1. lia.
    + apply IHpr.
  - destruct (tok_is ts pos "("); simpl.
    + pose proof (IHeq ts (pos + 1)) as H1. sized_call H1.
      destruct (negb (pos0 <? List.length ts)%nat || negb (tok_is ts pos0 ")"));
        simpl; auto; lia.
    + destruct (pos <? List.length ts)%nat; simpl; auto.
      unfold tok_at. destruct (nth_error ts pos); simpl; auto; lia.
Qed.

(** X21.  The tree that [parse] returns has at most as many nodes as the
    text has tokens: every variable and every operator of the tree took a
    token of its own. *)
Theorem parse_size (s : string) (f : Formula) :
  parse s = Done f -> size f <= List.length (_tokenize s).
Proof.
  intros Hp. destruct (parse_cases s) as [f' E H | | |]; try congruence.
  assert (f' = f) by congruence. subst f'.
  pose proof (proj1 (parser_consumes (parse_fuel (_tokenize s)))
                (_tokenize s) 0) as Hc.
  rewrite E in Hc. simpl in Hc. exact Hc.
Qed.

Lemma parse_size_witness :
  size (Impl (And (Var "A") (Not (Var "B"))) (Var "C"))
  <= List.length (_tokenize "(A & -B) -> C").
Proof.
  apply (parse_size "(A & -B) -> C"). vm_compute. reflexivity.
Defined.

(** ** Printing and parsing back *)

Lemma name_token_ident (x : string) :
  name_token x = true -> all_chars ident_char x = true.
Proof.
  destruct x as [| c r]; [discriminate |]. simpl. intros H.
  apply andb_true_iff in H. tauto.
Qed.

Lemma str_first (f : Formula) (r : string) :
  printable f = true -> not_next ">" (remove_spaces (str f) ++ r).
Proof.
  destruct f as [x | l | l1 l2 | l1 l2 | l1 l2 | l1 l2]; simpl; intros H;
    try discriminate.
  destruct x as [| c x]; [discriminate |].
  pose proof (name_token_ident _ H) as Hall.
  rewrite (remove_spaces_ident _ Hall). simpl.
  simpl in Hall. apply andb_true_iff in Hall. destruct Hall as [Hc _].
  intros ->. discriminate Hc.
Qed.

Lemma lex_str (f : Formula) (r : string) :
  printable f = true -> (open_end f = true -> stops r) ->
  lex (remove_spaces (str f) ++ r) = toks f ++ lex r.
Proof.
  revert r.
  induction f as [x | l IHl | l IHl l' IHr | l IHl l' IHr
                 | l IHl l' IHr | l IHl l' IHr]; intros r Hp Ho; simpl in *.
  - rewrite (remove_spaces_ident _ (name_token_ident _ Hp)).
    apply lex_name; auto.
  - rewrite lex_symbol; [| reflexivity | intros _; apply str_first, Hp].
    rewrite (IHl r Hp Ho). reflexivity.
  - apply andb_true_iff in Hp. destruct Hp as [Hl Hr].
    repeat (rewrite ?remove_spaces_app; simpl).
    repeat (rewrite ?append_assoc; simpl).
    rewrite lex_symbol by (reflexivity || discriminate).
    rewrite IHl by (auto; intros _; reflexivity).
    rewrite lex_symbol by (reflexivity || discriminate).
    rewrite IHr by (auto; intros _; reflexivity).
    rewrite lex_symbol by (reflexivity || discriminate).
    repeat (simpl; rewrite <- app_assoc). reflexivity.
  - apply andb_true_iff in Hp. destruct Hp as [Hp Hn].
    apply andb_true_iff in Hp. destruct Hp as [Hl Hr].
    apply negb_true_iff in Hn.
    repeat (rewrite ?remove_spaces_app; simpl).
    repeat (rewrite ?append_assoc; simpl).
    rewrite lex_symbol by (reflexivity || discriminate).
    rewrite IHl by (auto; congruence).
    rewrite lex_symbol by (reflexivity || discriminate).
    rewrite IHr by (auto; intros _; reflexivity).
    rewrite lex_symbol by (reflexivity || discriminate).
    repeat (simpl; rewrite <- app_assoc). reflexivity.
  - apply andb_true_iff in Hp. destruct Hp as [Hl Hr].
    repeat (rewrite ?remove_spaces_app; simpl).
    repeat (rewrite ?append_assoc; simpl).
    rewrite lex_symbol by (reflexivity || discriminate).
    rewrite IHl by (auto; intros _; reflexivity).
    rewrite lex_impl_cons.
    rewrite IHr by (auto; intros _; reflexivity).
    rewrite lex_symbol by (reflexivity || discriminate).
    repeat (simpl; rewrite <- app_assoc). reflexivity.
  - apply andb_true_iff in Hp. destruct Hp as [Hl Hr].
    repeat (rewrite ?remove_spaces_app; simpl).
    repeat (rewrite ?append_assoc; simpl).
    rewrite lex_symbol by (reflexivity || discriminate).
    rewrite IHl by (auto; intros _; reflexivity).
    rewrite lex_equiv_cons.
    rewrite IHr by (auto; intros _; reflexivity).
    rewrite lex_symbol by (reflexivity || discriminate).
    repeat (simpl; rewrite <- app_assoc). reflexivity.
Qed.

Lemma tokenize_str (f : Formula) :
  printable f = true -> _tokenize (str f) = toks f.
Proof.
  intros Hp. unfold _tokenize.
  pose proof (lex_str f "" Hp (fun _ => I)) as H.
  rewrite append_nil_r, lex_empty, app_nil_r in H. exact H.
Qed.

(** ** The methods follow the grammar *)

Lemma tok_is_at (ts : list string) (p : nat) (x t : string) :
  nth_error ts p = Some x -> tok_is ts p t = String.eqb x t.
Proof. intros H. unfold tok_is. rewrite H. reflexivity. Qed.

Lemma name_token_not_symbol (x t : string) :
  name_token x = true -> symbol_token t -> String.eqb x t = false.
Proof.
  intros Hx Ht. destruct x as [| c r]; [discriminate |].
  simpl in Hx. apply andb_true_iff in Hx. destruct Hx as [Hs Hall].
  apply andb_true_iff in Hall. destruct Hall as [Hc _].
  apply negb_true_iff in Hs. apply String.eqb_neq. intros E. subst t.
  unfold symbol_token in Ht. simpl in Ht.
  destruct Ht as [H | [H | [H | [H | [H | [H | [H | []]]]]]]];
    inversion H; subst; discriminate.
Qed.

(** One level of each method. *)
Lemma parse_equiv_S (n : nat) (ts : list string) (pos : nat) :
  _parse_equiv (S n) ts pos
  = ('(l, pos) <- _parse_impl n ts pos ;;
     if tok_is ts pos "<->" then
       '(r, pos) <- _parse_equiv n ts (pos + 1) ;; Done (Equiv l r, pos)
     else Done (l, pos)).
Proof. reflexivity. Qed.

Lemma parse_impl_S (n : nat) (ts : list string) (pos : nat) :
  _parse_impl (S n) ts pos
  = ('(l, pos) <- _parse_or n ts pos ;;
     if tok_is ts pos "->" then
       '(r, pos) <- _parse_impl n ts (pos + 1) ;; Done (Impl l r, pos)
     else Done (l, pos)).
Proof. reflexivity. Qed.

Lemma parse_or_S (n : nat) (ts : list string) (pos : nat) :
  _parse_or (S n) ts pos
  = ('(l, pos) <- _parse_and n ts pos ;; or_loop n ts l pos).
Proof. reflexivity. Qed.

Lemma or_loop_S (n : nat) (ts : list string) (l : Formula) (pos : nat) :
  or_loop (S n) ts l pos
  = if tok_is ts pos "v" then
      '(r, pos) <- _parse_and n ts (pos + 1) ;; or_loop n ts (Or l r) pos
    else Done (l, pos).
Proof. reflexivity. Qed.

Lemma parse_and_S (n : nat) (ts : list string) (pos : nat) :
  _parse_and (S n) ts pos
  = ('(l, pos) <- _parse_not n ts pos ;; and_loop n ts l pos).
Proof. reflexivity. Qed.

Lemma and_loop_S (n : nat) (ts : list string) (l : Formula) (pos : nat) :
  and_loop (S n) ts l pos
  = if tok_is ts pos "&" then
      '(r, pos) <- _parse_not n ts (pos + 1) ;; and_loop n ts (And l r) pos
    else Done (l, pos).
Proof. reflexivity. Qed.

Lemma parse_not_S (n : nat) (ts : list string) (pos : nat) :
  _parse_not (S n) ts pos
  = if tok_is ts pos "-" then
      '(l, pos) <- _parse_not n ts (pos + 1) ;; Done (Not l, pos)
    else _parse_primary n ts pos.
Proof. reflexivity. Qed.

Lemma parse_primary_S (n : nat) (ts : list string) (pos : nat) :
  _parse_primary (S n) ts pos
  = if tok_is ts pos "(" then
      '(node, pos) <- _parse_equiv n ts (pos + 1) ;;
      if negb (pos <? List.length ts)%nat || negb (tok_is ts pos ")") then
        Raised err_expected_rparen
      else Done (node, pos + 1)
    else if (pos <? List.length ts)%nat then
      tok <- tok_at ts pos ;; Done (Var tok, pos + 1)
    else Raised err_unexpected_end.
Proof. reflexivity. Qed.

Lemma bind_Done {A B : Type} (a : A) (k : A -> outcome B) :
  bind (Done a) k = k a.
Proof. reflexivity. Qed.

Lemma nth_error_ltb (ts : list string) (p : nat) (x : string) :
  nth_error ts p = Some x -> (p <? List.length ts)%nat = true.
Proof. intros H. apply Nat.ltb_lt, nth_error_Some. congruence. Qed.

Lemma yields_var (ts : list string) (q : nat) (x : string) :
  nth_error ts q = Some x -> name_token x = true ->
  yields (fun m => _parse_not m ts q) (Var x, q + 1).
Proof.
  intros Hq Hx. exists 2. intros m Hm.
  destruct m as [| [| m]]; try lia.
  rewrite parse_not_S, parse_primary_S, !(tok_is_at _ _ _ _ Hq).
  rewrite !(name_token_not_symbol x)
    by (auto; unfold symbol_token; simpl; auto 10).
  rewrite (nth_error_ltb _ _ _ Hq). unfold tok_at. rewrite Hq. reflexivity.
Qed.

Lemma yields_neg (ts : list string) (q p : nat) (l : Formula) :
  nth_error ts q = Some "-" ->
  yields (fun m => _parse_not m ts (q + 1)) (l, p) ->
  yields (fun m => _parse_not m ts q) (Not l, p).
Proof.
  intros Hq [m0 H]. exists (S m0). intros m Hm.
  destruct m as [| m]; [lia |].
  rewrite parse_not_S, (tok_is_at _ _ _ _ Hq), H by lia. reflexivity.
Qed.

Lemma yields_paren (ts : list string) (q p : nat) (node : Formula) :
  nth_error ts q = Some "(" -> nth_error ts p = Some ")" ->
  yields (fun m => _parse_equiv m ts (q + 1)) (node, p) ->
  yields (fun m => _parse_not m ts q) (node, p + 1).
Proof.
  intros Hq Hp [m0 H]. exists (S (S m0)). intros m Hm.
  destruct m as [| [| m]]; try lia.
  rewrite parse_not_S, parse_primary_S, !(tok_is_at _ _ _ _ Hq).
  simpl String.eqb. cbv iota. rewrite H by lia. rewrite bind_Done.
  rewrite (tok_is_at _ _ _ _ Hp), (nth_error_ltb _ _ _ Hp). reflexivity.
Qed.

Lemma yields_and (ts : list string) (q p : nat) (f : Formula) :
  yields (fun m => _parse_not m ts q) (f, p) -> tok_is ts p "&" = false ->
  yields (fun m => _parse_and m ts q) (f, p).
Proof.
  intros [m0 H] Ht. exists (S (S m0)). intros m Hm.
  destruct m as [| [| m]]; try lia.
  rewrite parse_and_S, H by lia. rewrite bind_Done, and_loop_S, Ht.
  reflexivity.
Qed.

Lemma yields_and_node (ts : list string) (q p1 p2 : nat) (l r : Formula) :
  yields (fun m => _parse_not m ts q) (l, p1) ->
  nth_error ts p1 = Some "&" ->
  yields (fun m => _parse_not m ts (p1 + 1)) (r, p2) ->
  tok_is ts p2 "&" = false ->
  yields (fun m => _parse_and m ts q) (And l r, p2).
Proof.
  intros [ml Hl] Hop [mr Hr] Ht. exists (S (S (S (ml + mr)))). intros m Hm.
  destruct m as [| [| [| m]]]; try lia.
  rewrite parse_and_S, Hl by lia. rewrite bind_Done, and_loop_S.
  rewrite (tok_is_at _ _ _ _ Hop). simpl String.eqb. cbv iota.
  rewrite Hr by lia. rewrite bind_Done, and_loop_S, Ht. reflexivity.
Qed.

Lemma yields_or (ts : list string) (q p : nat) (f : Formula) :
  yields (fun m => _parse_and m ts q) (f, p) -> tok_is ts p "v" = false ->
  yields (fun m => _parse_or m ts q) (f, p).
Proof.
  intros [m0 H] Ht. exists (S (S m0)). intros m Hm.
  destruct m as [| [| m]]; try lia.
  rewrite parse_or_S, H by lia. rewrite bind_Done, or_loop_S, Ht.
  reflexivity.
Qed.

Lemma yields_or_node (ts : list string) (q p1 p2 : nat) (l r : Formula) :
  yields (fun m => _parse_and m ts q) (l, p1) ->
  nth_error ts p1 = Some "v" ->
  yields (fun m => _parse_and m ts (p1 + 1)) (r, p2) ->
  tok_is ts p2 "v" = false ->
  yields (fun m => _parse_or m ts q) (Or l r, p2).
Proof.
  intros [ml Hl] Hop [mr Hr] Ht. exists (S (S (S (ml + mr)))). intros m Hm.
  destruct m as [| [| [| m]]]; try lia.
  rewrite parse_or_S, Hl by lia. rewrite bind_Done, or_loop_S.
  rewrite (tok_is_at _ _ _ _ Hop). simpl String.eqb. cbv iota.
  rewrite Hr by lia. rewrite bind_Done, or_loop_S, Ht. reflexivity.
Qed.

Lemma yields_impl (ts : list string) (q p : nat) (f : Formula) :
  yields (fun m => _parse_or m ts q) (f, p) -> tok_is ts p "->" = false ->
  yields (fun m => _parse_impl m ts q) (f, p).
Proof.
  intros [m0 H] Ht. exists (S m0). intros m Hm.
  destruct m as [| m]; try lia.
  rewrite parse_impl_S, H by lia. rewrite bind_Done, Ht. reflexivity.
Qed.

Lemma yields_impl_node (ts : list string) (q p1 p2 : nat) (l r : Formula) :
  yields (fun m => _parse_or m ts q) (l, p1) ->
  nth_error ts p1 = Some "->" ->
  yields (fun m => _parse_impl m ts (p1 + 1)) (r, p2) ->
  yields (fun m => _parse_impl m ts q) (Impl l r, p2).
Proof.
  intros [ml Hl] Hop [mr Hr]. exists (S (ml + mr)). intros m Hm.
  destruct m as [| m]; try lia.
  rewrite parse_impl_S, Hl by lia. rewrite bind_Done.
  rewrite (tok_is_at _ _ _ _ Hop). simpl String.eqb. cbv iota.
  rewrite Hr by lia. reflexivity.
Qed.

Lemma yields_equiv (ts : list string) (q p : nat) (f : Formula) :
  yields (fun m => _parse_impl m ts q) (f, p) -> tok_is ts p "<->" = false ->
  yields (fun m => _parse_equiv m ts q) (f, p).
Proof.
  intros [m0 H] Ht. exists (S m0). intros m Hm.
  destruct m as [| m]; try lia.
  rewrite parse_equiv_S, H by lia. rewrite bind_Done, Ht. reflexivity.
Qed.

Lemma yields_equiv_node (ts : list string) (q p1 p2 : nat) (l r : Formula) :
  yields (fun m => _parse_impl m ts q) (l, p1) ->
  nth_error ts p1 = Some "<->" ->
  yields (fun m => _parse_equiv m ts (p1 + 1)) (r, p2) ->
  yields (fun m => _parse_equiv m ts q) (Equiv l r, p2).
Proof.
  intros [ml Hl] Hop [mr Hr]. exists (S (ml + mr)). intros m Hm.
  destruct m as [| m]; try lia.
  rewrite parse_equiv_S, Hl by lia. rewrite bind_Done.
  rewrite (tok_is_at _ _ _ _ Hop). simpl String.eqb. cbv iota.
  rewrite Hr by lia. reflexivity.
Qed.

(** What the run yields with some fuel, [parse] returns. *)
Lemma yields_parse (s : string) (f : Formula) :
  yields (fun m => _parse_equiv m (_tokenize s) 0)
    (f, List.length (_tokenize s)) ->
  parse s = Done f.
Proof.
  intros [m0 H].
  set (n := Nat.max m0 (parse_fuel (_tokenize s))).
  destruct (parse_equiv_total (_tokenize s) n ltac:(lia)) as [_ Heq].
  rewrite (H n ltac:(lia)) in Heq.
  unfold parse. rewrite <- Heq. simpl. rewrite Nat.eqb_refl. reflexivity.
Qed.

Lemma yields_and_loop_stop (ts : list string) (p : nat) (l : Formula) :
  tok_is ts p "&" = false -> yields (fun m => and_loop m ts l p) (l, p).
Proof.
  intros Ht. exists 1. intros m Hm. destruct m as [| m]; [lia |].
  rewrite and_loop_S, Ht. reflexivity.
Qed.

Lemma yields_and_loop_step (ts : list string) (p p2 : nat) (l r : Formula)
  (res : Formula * nat) :
  nth_error ts p = Some "&" ->
  yields (fun m => _parse_not m ts (p + 1)) (r, p2) ->
  yields (fun m => and_loop m ts (And l r) p2) res ->
  yields (fun m => and_loop m ts l p) res.
Proof.
  intros Hop [mr Hr] [ml Hl]. exists (S (mr + ml)). intros m Hm.
  destruct m as [| m]; [lia |].
  rewrite and_loop_S, (tok_is_at _ _ _ _ Hop). simpl String.eqb. cbv iota.
  rewrite Hr by lia. rewrite bind_Done. apply Hl. lia.
Qed.

Lemma yields_and_intro (ts : list string) (q p : nat) (l : Formula)
  (res : Formula * nat) :
  yields (fun m => _parse_not m ts q) (l, p) ->
  yields (fun m => and_loop m ts l p) res ->
  yields (fun m => _parse_and m ts q) res.
Proof.
  intros [m1 H1] [m2 H2]. exists (S (m1 + m2)). intros m Hm.
  destruct m as [| m]; [lia |].
  rewrite parse_and_S, H1 by lia. rewrite bind_Done. apply H2. lia.
Qed.

Lemma yields_or_loop_stop (ts : list string) (p : nat) (l : Formula) :
  tok_is ts p "v" = false -> yields (fun m => or_loop m ts l p) (l, p).
Proof.
  intros Ht. exists 1. intros m Hm. destruct m as [| m]; [lia |].
  rewrite or_loop_S, Ht. reflexivity.
Qed.

Lemma yields_or_loop_step (ts : list string) (p p2 : nat) (l r : Formula)
  (res : Formula * nat) :
  nth_error ts p = Some "v" ->
  yields (fun m => _parse_and m ts (p + 1)) (r, p2) ->
  yields (fun m => or_loop m ts (Or l r) p2) res ->
  yields (fun m => or_loop m ts l p) res.
Proof.
  intros Hop [mr Hr] [ml Hl]. exists (S (mr + ml)). intros m Hm.
  destruct m as [| m]; [lia |].
  rewrite or_loop_S, (tok_is_at _ _ _ _ Hop). simpl String.eqb. cbv iota.
  rewrite Hr by lia. rewrite bind_Done. apply Hl. lia.
Qed.

Lemma yields_or_intro (ts : list string) (q p : nat) (l : Formula)
  (res : Formula * nat) :
  yields (fun m => _parse_and m ts q) (l, p) ->
  yields (fun m => or_loop m ts l p) res ->
  yields (fun m => _parse_or m ts q) res.
Proof.
  intros [m1 H1] [m2 H2]. exists (S (m1 + m2)). intros m Hm.
  destruct m as [| m]; [lia |].
  rewrite parse_or_S, H1 by lia. rewrite bind_Done. apply H2. lia.
Qed.

Lemma yields_up (ts : list string) (q p : nat) (f : Formula) :
  yields (fun m => _parse_not m ts q) (f, p) -> ends_at ts p ->
  yields (fun m => _parse_equiv m ts q) (f, p).
Proof.
  intros H (H1 & H2 & H3 & H4).
  apply yields_equiv; [| exact H4]. apply yields_impl; [| exact H3].
  apply yields_or; [| exact H2]. apply yields_and; [exact H | exact H1].
Qed.

Lemma ends_at_rparen (ts : list string) (p : nat) :
  nth_error ts p = Some ")" -> ends_at ts p.
Proof.
  intros H. unfold ends_at. rewrite !(tok_is_at _ _ _ _ H). auto.
Qed.

Lemma ends_at_end (ts : list string) : ends_at ts (List.length ts).
Proof.
  unfold ends_at, tok_is.
  assert (H : nth_error ts (List.length ts) = None)
    by (apply nth_error_None; lia).
  rewrite H. auto.
Qed.

Lemma tokens_at_cons (ts : list string) (q : nat) (a : string)
  (l : list string) :
  tokens_at ts q (a :: l) ->
  nth_error ts q = Some a /\ tokens_at ts (q + 1) l.
Proof.
  intros H. split.
  - specialize (H 0 a eq_refl). rewrite Nat.add_0_r in H. exact H.
  - intros k t Hk. specialize (H (S k) t Hk).
    replace (q + 1 + k) with (q + S k) by lia. exact H.
Qed.

Lemma tokens_at_app (ts : list string) (q : nat) (l1 l2 : list string) :
  tokens_at ts q (l1 ++ l2) ->
  tokens_at ts q l1 /\ tokens_at ts (q + List.length l1) l2.
Proof.
  intros H. split.
  - intros k t Hk. apply H. rewrite nth_error_app1; [exact Hk |].
    apply nth_error_Some. congruence.
  - intros k t Hk. specialize (H (List.length l1 + k) t).
    rewrite nth_error_app2 in H by lia.
    replace (List.length l1 + k - List.length l1) with k in H by lia.
    rewrite Nat.add_assoc in H. exact (H Hk).
Qed.

Lemma parse_toks (f : Formula) (ts : list string) (q : nat) :
  printable f = true -> tokens_at ts q (toks f) ->
  yields (fun m => _parse_not m ts q) (f, q + List.length (toks f)).
Proof.
  revert ts q.
  assert (Hbin : forall (l r : Formula) (op : string) ts q,
            tokens_at ts q ("(" :: toks l ++ op :: toks r ++ [")"]) ->
            nth_error ts q = Some "("
            /\ tokens_at ts (q + 1) (toks l)
            /\ nth_error ts (q + 1 + List.length (toks l)) = Some op
            /\ tokens_at ts (q + 1 + List.length (toks l) + 1) (toks r)
            /\ nth_error ts (q + 1 + List.length (toks l) + 1
                             + List.length (toks r)) = Some ")"
            /\ q + List.length ("(" :: toks l ++ op :: toks r ++ [")"])
               = q + 1 + List.length (toks l) + 1 + List.length (toks r) + 1).
  { intros l r op ts q H.
    apply tokens_at_cons in H. destruct H as [H0 H].
    apply tokens_at_app in H. destruct H as [Hl H].
    apply tokens_at_cons in H. destruct H as [Hop H].
    apply tokens_at_app in H. destruct H as [Hr H].
    apply tokens_at_cons in H. destruct H as [Hc _].
    repeat (split; [assumption |]).
    simpl. rewrite length_app. simpl. rewrite length_app. simpl. lia. }
  induction f as [x | l IHl | l IHl r IHr | l IHl r IHr
                 | l IHl r IHr | l IHl r IHr]; intros ts q Hp Ht;
    simpl in Hp.
  - apply tokens_at_cons in Ht. destruct Ht as [Hq _].
    apply yields_var; assumption.
  - simpl in Ht. apply tokens_at_cons in Ht. destruct Ht as [Hq Ht].
    apply yields_neg; [exact Hq |].
    replace (q + List.length (toks (Not l)))
      with (q + 1 + List.length (toks l)) by (simpl; lia).
    apply IHl; assumption.
  - apply andb_true_iff in Hp. destruct Hp as [Hpl Hpr].
    destruct (Hbin l r "&" ts q Ht) as (H0 & Hl & Hop & Hr & Hc & E).
    simpl toks. rewrite E. clear E.
    apply yields_paren; [exact H0 | exact Hc |].
    destruct (ends_at_rparen _ _ Hc) as (E1 & E2 & E3 & E4).
    apply yields_equiv; [| exact E4]. apply yields_impl; [| exact E3].
    apply yields_or; [| exact E2].
    eapply yields_and_node; [apply IHl; eassumption | exact Hop | | exact E1].
    apply IHr; assumption.
  - apply andb_true_iff in Hp. destruct Hp as [Hp _].
    apply andb_true_iff in Hp. destruct Hp as [Hpl Hpr].
    destruct (Hbin l r "v" ts q Ht) as (H0 & Hl & Hop & Hr & Hc & E).
    simpl toks. rewrite E. clear E.
    apply yields_paren; [exact H0 | exact Hc |].
    destruct (ends_at_rparen _ _ Hc) as (E1 & E2 & E3 & E4).
    apply yields_equiv; [| exact E4]. apply yields_impl; [| exact E3].
    eapply yields_or_node; [| exact Hop | | exact E2].
    + apply yields_and; [apply IHl; assumption |].
      rewrite (tok_is_at _ _ _ _ Hop). reflexivity.
    + apply yields_and; [apply IHr; assumption | exact E1].
  - apply andb_true_iff in Hp. destruct Hp as [Hpl Hpr].
    destruct (Hbin l r "->" ts q Ht) as (H0 & Hl & Hop & Hr & Hc & E).
    simpl toks. rewrite E. clear E.
    apply yields_paren; [exact H0 | exact Hc |].
    destruct (ends_at_rparen _ _ Hc) as (E1 & E2 & E3 & E4).
    apply yields_equiv; [| exact E4].
    eapply yields_impl_node; [| exact Hop |].
    + apply yields_or; [apply yields_and; [apply IHl; assumption |] |];
        rewrite (tok_is_at _ _ _ _ Hop); reflexivity.
    + apply yields_impl; [| exact E3]. apply yields_or; [| exact E2].
      apply yields_and; [apply IHr; assumption | exact E1].
  - apply andb_true_iff in Hp. destruct Hp as [Hpl Hpr].
    destruct (Hbin l r "<->" ts q Ht) as (H0 & Hl & Hop & Hr & Hc & E).
    simpl toks. rewrite E. clear E.
    apply yields_paren; [exact H0 | exact Hc |].
    eapply yields_equiv_node; [| exact Hop |].
    + apply yields_impl;
        [apply yields_or; [apply yields_and; [apply IHl; assumption |] |] |];
        rewrite (tok_is_at _ _ _ _ Hop); reflexivity.
    + apply yields_up; [apply IHr; assumption | apply ends_at_rparen, Hc].
Qed.

(** X22.  [parse] reads back the text of a tree: when the variables of
    [f] are names (runs of identifier characters that do not begin with
    [v]) and the left operand of every disjunction is a binary node or a
    negated one, so that its text ends with a parenthesis, the tokens of
    [str f] are those of [f] and [parse (str f)] returns [f]. *)
Theorem parse_str_round_trip (f : Formula) :
  printable f = true ->
  _tokenize (str f) = toks f /\ parse (str f) = Done f.
Proof.
  intros Hp. pose proof (tokenize_str f Hp) as Ht. split; [exact Ht |].
  apply yields_parse. rewrite Ht.
  apply yields_up; [| apply ends_at_end].
  apply (parse_toks f (toks f) 0 Hp). intros k t Hk. exact Hk.
Qed.

Lemma parse_str_round_trip_witness :
  let f := Equiv (Or (And (Var "A") (Not (Var "B_1"))) (Var "C"))
             (Impl (Not (Not (Var "p"))) (Var "q2")) in
  _tokenize (str f) = toks f /\ parse (str f) = Done f.
Proof.
  apply (parse_str_round_trip
           (Equiv (Or (And (Var "A") (Not (Var "B_1"))) (Var "C"))
              (Impl (Not (Not (Var "p"))) (Var "q2")))).
  reflexivity.
Defined.

(** X23.  On such trees [str] loses nothing: two of them with the same
    text are the same tree. *)
Theorem str_injective (f g : Formula) :
  printable f = true -> printable g = true -> str f = str g -> f = g.
Proof.
  intros Hf Hg H.
  destruct (parse_toks f (toks f) 0 Hf (fun k t Hk => Hk)) as [mf Hmf].
  pose proof (tokenize_str f Hf) as Tf. pose proof (tokenize_str g Hg) as Tg.
  rewrite H, Tg in Tf.
  destruct (parse_toks g (toks g) 0 Hg (fun k t Hk => Hk)) as [mg Hmg].
  specialize (Hmf (mf + mg) ltac:(lia)). specialize (Hmg (mf + mg) ltac:(lia)).
  rewrite <- Tf in Hmf. rewrite Hmg in Hmf. inversion Hmf. reflexivity.
Qed.

Lemma str_injective_witness :
  And (Var "A") (Not (Var "B")) = And (Var "A") (Not (Var "B")).
Proof.
  apply (str_injective (And (Var "A") (Not (Var "B")))
           (And (Var "A") (Not (Var "B")))); reflexivity.
Defined.

Lemma lex_name_end (x : string) : name_token x = true -> lex x = [x].
Proof.
  intros H. pose proof (lex_name x "" H I) as E.
  rewrite append_nil_r, lex_empty in E. exact E.
Qed.

Lemma remove_spaces_name (x : string) :
  name_token x = true -> remove_spaces x = x.
Proof. intros H. apply remove_spaces_ident, name_token_ident, H. Qed.

Lemma name_first (x r : string) (c : ascii) :
  name_token x = true -> ident_char c = false -> not_next c (x ++ r).
Proof.
  destruct x as [| a x]; [discriminate |]. intros H Hc. simpl.
  apply name_token_ident in H. simpl in H. apply andb_true_iff in H.
  destruct H as [Ha _]. intros ->. congruence.
Qed.

(** The scan of a text made of names, operators and spaces: spaces go,
    then each piece is read by its own rule. *)
Ltac scan_text :=
  unfold _tokenize;
  match goal with
  | |- tokenize_loop ?s 0 nil = ?r => change (lex s = r)
  end;
  repeat (rewrite ?remove_spaces_app; simpl remove_spaces);
  repeat match goal with
    | H : name_token ?x = true |- _ =>
        rewrite (remove_spaces_name x H)
    end;
  repeat (rewrite ?append_assoc; simpl append);
  repeat first
    [ rewrite lex_name_end by assumption
    | rewrite lex_name by (assumption || exact I || reflexivity)
    | rewrite lex_equiv_cons
    | rewrite lex_impl_cons
    | rewrite lex_symbol
        by (reflexivity || discriminate
            || (intros _; apply name_first; [assumption | reflexivity]))
    | rewrite lex_empty ];
  reflexivity.

Ltac tok := first [reflexivity | assumption].

Ltac operand q x :=
  apply (yields_var _ q x); tok.

Ltac group q q1 q2 x :=
  apply yields_and; [| reflexivity];
  apply (yields_paren _ q q2); [reflexivity | reflexivity |];
  apply yields_up; [operand q1 x | apply ends_at_rparen; reflexivity].

Section Chains.

Variables a b c : string.
Hypothesis Ha : name_token a = true.
Hypothesis Hb : name_token b = true.
Hypothesis Hc : name_token c = true.

Lemma tokenize_impl_chain :
  _tokenize (a ++ " -> " ++ b ++ " -> " ++ c) = [a; "->"; b; "->"; c].
Proof. scan_text. Qed.

Lemma tokenize_equiv_chain :
  _tokenize (a ++ " <-> " ++ b ++ " <-> " ++ c) = [a; "<->"; b; "<->"; c].
Proof. scan_text. Qed.

Lemma tokenize_and_chain :
  _tokenize (a ++ " & " ++ b ++ " & " ++ c) = [a; "&"; b; "&"; c].
Proof. scan_text. Qed.

Lemma tokenize_or_chain :
  _tokenize ("(" ++ a ++ ") v (" ++ b ++ ") v (" ++ c ++ ")")
  = ["("; a; ")"; "v"; "("; b; ")"; "v"; "("; c; ")"].
Proof. scan_text. Qed.

Lemma tokenize_mixed :
  _tokenize ("(" ++ a ++ ") v -" ++ b ++ " & " ++ c ++ " -> " ++ a
             ++ " <-> " ++ b)
  = ["("; a; ")"; "v"; "-"; b; "&"; c; "->"; a; "<->"; b].
Proof. scan_text. Qed.

Lemma parse_impl_chain :
  parse (a ++ " -> " ++ b ++ " -> " ++ c)
  = Done (Impl (Var a) (Impl (Var b) (Var c))).
Proof.
  apply yields_parse. rewrite tokenize_impl_chain.
  apply yields_equiv; [| reflexivity].
  apply yields_impl_node with (p1 := 1); [| reflexivity |].
  - apply yields_or; [apply yields_and; [operand 0 a | tok] | tok].
  - apply yields_impl_node with (p1 := 3); [| reflexivity |].
    + apply yields_or; [apply yields_and; [operand 2 b | tok] | tok].
    + apply yields_impl; [| reflexivity].
      apply yields_or; [apply yields_and; [operand 4 c | tok] | tok].
Qed.

Lemma parse_equiv_chain :
  parse (a ++ " <-> " ++ b ++ " <-> " ++ c)
  = Done (Equiv (Var a) (Equiv (Var b) (Var c))).
Proof.
  apply yields_parse. rewrite tokenize_equiv_chain.
  apply yields_equiv_node with (p1 := 1); [| reflexivity |].
  - apply yields_impl; [| reflexivity].
    apply yields_or; [apply yields_and; [operand 0 a | tok] | tok].
  - apply yields_equiv_node with (p1 := 3); [| reflexivity |].
    + apply yields_impl; [| reflexivity].
      apply yields_or; [apply yields_and; [operand 2 b | tok] | tok].
    + apply yields_up; [operand 4 c | repeat split].
Qed.

Lemma parse_and_chain :
  parse (a ++ " & " ++ b ++ " & " ++ c)
  = Done (And (And (Var a) (Var b)) (Var c)).
Proof.
  apply yields_parse. rewrite tokenize_and_chain.
  apply yields_equiv; [| reflexivity]. apply yields_impl; [| reflexivity].
  apply yields_or; [| reflexivity].
  apply yields_and_intro with (l := Var a) (p := 1); [operand 0 a |].
  apply yields_and_loop_step with (r := Var b) (p2 := 3);
    [reflexivity | operand 2 b |].
  apply yields_and_loop_step with (r := Var c) (p2 := 5);
    [reflexivity | operand 4 c |].
  apply yields_and_loop_stop. reflexivity.
Qed.

Lemma parse_or_chain :
  parse ("(" ++ a ++ ") v (" ++ b ++ ") v (" ++ c ++ ")")
  = Done (Or (Or (Var a) (Var b)) (Var c)).
Proof.
  apply yields_parse. rewrite tokenize_or_chain.
  apply yields_equiv; [| reflexivity]. apply yields_impl; [| reflexivity].
  apply yields_or_intro with (l := Var a) (p := 3);
    [group 0 1 2 a |].
  apply yields_or_loop_step with (r := Var b) (p2 := 7);
    [reflexivity | group 4 5 6 b |].
  apply yields_or_loop_step with (r := Var c) (p2 := 11);
    [reflexivity | group 8 9 10 c |].
  apply yields_or_loop_stop. reflexivity.
Qed.

Lemma parse_mixed :
  parse ("(" ++ a ++ ") v -" ++ b ++ " & " ++ c ++ " -> " ++ a
         ++ " <-> " ++ b)
  = Done (Equiv (Impl (Or (Var a) (And (Not (Var b)) (Var c))) (Var a))
            (Var b)).
Proof.
  apply yields_parse. rewrite tokenize_mixed.
  apply yields_equiv_node with (p1 := 10); [| reflexivity |].
  - apply yields_impl_node with (p1 := 8); [| reflexivity |].
    + apply yields_or_node with (p1 := 3); [| reflexivity | | reflexivity].
      * apply yields_and; [| reflexivity].
        apply (yields_paren _ 0 2); [reflexivity | reflexivity |].
        apply yields_up; [operand 1 a | apply ends_at_rparen; reflexivity].
      * apply yields_and_node with (p1 := 6);
          [| reflexivity | operand 7 c | reflexivity].
        apply yields_neg; [reflexivity | operand 5 b].
    + apply yields_impl; [| reflexivity].
      apply yields_or; [apply yields_and; [operand 9 a | tok] | tok].
  - apply yields_up; [operand 11 b | repeat split].
Qed.

End Chains.

(** X24.  Chains of one operator between names: [->] and [<->] nest to
    the right, [&] and (between parenthesised names) [v] nest to the
    left. *)
Theorem parse_chains (a b c : string) :
  name_token a = true -> name_token b = true -> name_token c = true ->
  parse (a ++ " -> " ++ b ++ " -> " ++ c)
  = Done (Impl (Var a) (Impl (Var b) (Var c)))
  /\ parse (a ++ " <-> " ++ b ++ " <-> " ++ c)
     = Done (Equiv (Var a) (Equiv (Var b) (Var c)))
  /\ parse (a ++ " & " ++ b ++ " & " ++ c)
     = Done (And (And (Var a) (Var b)) (Var c))
  /\ parse ("(" ++ a ++ ") v (" ++ b ++ ") v (" ++ c ++ ")")
     = Done (Or (Or (Var a) (Var b)) (Var c)).
Proof.
  intros Ha Hb Hc.
  split; [apply parse_impl_chain; assumption |].
  split; [apply parse_equiv_chain; assumption |].
  split; [apply parse_and_chain; assumption |].
  apply parse_or_chain; assumption.
Qed.

Lemma parse_chains_witness :
  parse "p -> q1 -> r_2" = Done (Impl (Var "p") (Impl (Var "q1") (Var "r_2")))
  /\ parse "p <-> q1 <-> r_2"
     = Done (Equiv (Var "p") (Equiv (Var "q1") (Var "r_2")))
  /\ parse "p & q1 & r_2" = Done (And (And (Var "p") (Var "q1")) (Var "r_2"))
  /\ parse "(p) v (q1) v (r_2)"
     = Done (Or (Or (Var "p") (Var "q1")) (Var "r_2")).
Proof. apply (parse_chains "p" "q1" "r_2"); reflexivity. Defined.

(** X25.  The operators bind in the order [-], [&], [v], [->], [<->],
    from the tightest: with names [a], [b], [c] the text
    [(a) v -b & c -> a <-> b] is read as
    [((a v (-b & c)) -> a) <-> b]. *)
Theorem parse_precedence (a b c : string) :
  name_token a = true -> name_token b = true -> name_token c = true ->
  parse ("(" ++ a ++ ") v -" ++ b ++ " & " ++ c ++ " -> " ++ a
         ++ " <-> " ++ b)
  = Done (Equiv (Impl (Or (Var a) (And (Not (Var b)) (Var c))) (Var a))
            (Var b)).
Proof. intros Ha Hb Hc. apply parse_mixed; assumption. Qed.

Lemma parse_precedence_witness :
  parse "(p) v -q1 & r_2 -> p <-> q1"
  = Done (Equiv (Impl (Or (Var "p") (And (Not (Var "q1")) (Var "r_2")))
                   (Var "p")) (Var "q1")).
Proof. apply (parse_precedence "p" "q1" "r_2"); reflexivity. Defined.

(* ===================================================================== *)
(** * Printing a clause list *)
(* ===================================================================== *)

Lemma concat_app (sep : string) (xs ys : list string) :
  xs <> [] -> ys <> [] ->
  String.concat sep (xs ++ ys)
  = (String.concat sep xs ++ sep ++ String.concat sep ys)%string.
Proof.
  intros Hx Hy. induction xs as [| x xs IH]; [congruence |].
  destruct xs as [| x' xs].
  - simpl. destruct ys; [congruence | reflexivity].
  - change (String.concat sep ((x :: x' :: xs) ++ ys))
      with (x ++ sep ++ String.concat sep ((x' :: xs) ++ ys))%string.
    rewrite IH by discriminate.
    change (String.concat sep (x :: x' :: xs))
      with (x ++ sep ++ String.concat sep (x' :: xs))%string.
    rewrite !append_assoc. reflexivity.
Qed.

Lemma format_cnf_app (xs ys : list (list string)) :
  xs <> [] -> ys <> [] ->
  format_cnf (xs ++ ys)
  = (format_cnf xs ++ " & " ++ format_cnf ys)%string.
Proof.
  intros Hx Hy. unfold format_cnf.
  destruct xs as [| x xs]; [congruence |].
  destruct ys as [| y ys]; [congruence |].
  change ((x :: xs) ++ y :: ys) with (x :: (xs ++ y :: ys)).
  cbv iota. change (x :: xs ++ y :: ys) with ((x :: xs) ++ y :: ys).
  rewrite map_app. apply concat_app; discriminate.
Qed.

Lemma to_cnf_equiv_and (l r : Formula) :
  to_cnf_equiv (And l r) = to_cnf_equiv l ++ to_cnf_equiv r.
Proof.
  unfold to_cnf_equiv. simpl _elim_equiv_impl. simp _nnf. reflexivity.
Qed.

(** X26.  The classical pipeline works on the two sides of a conjunction
    apart: the clauses of [l & r] are those of [l] followed by those of
    [r], and [format_cnf] prints them as the two texts joined by [ & ]. *)
Theorem format_cnf_conjunction (l r : Formula) :
  to_cnf_equiv (And l r) = to_cnf_equiv l ++ to_cnf_equiv r
  /\ format_cnf (to_cnf_equiv (And l r))
     = (format_cnf (to_cnf_equiv l) ++ " & "
        ++ format_cnf (to_cnf_equiv r))%string.
Proof.
  split; [apply to_cnf_equiv_and |].
  rewrite to_cnf_equiv_and. apply format_cnf_app.
  - unfold to_cnf_equiv. apply formula_to_clauses_nonempty.
  - unfold to_cnf_equiv. apply formula_to_clauses_nonempty.
Qed.
